(** * plyfile: a shallow embedding of the binary PLY reader (ply.go)
    and of the whole-file reader of package plyreader (plyreader.go)

    The development follows the Go source function by function.  Go's
    [string] is a byte sequence and is embedded as [string]; [[]byte] is
    [list byte]; [int] and [int64] are 64-bit two's-complement integers,
    embedded as [Z] with the wrap-around [wrap64] written at every
    arithmetic operation; a pointer that may be nil is an [option].
    A call returns [Ok], a Go [error] value ([Err]) or stops with a
    run-time panic ([Panic]). *)

From Stdlib Require Import ZArith List String Ascii Bool Lia.
From Stdlib.Strings Require Import Byte.
From Stdlib Require DecimalString.
From stdpp Require Import base list.
Import ListNotations.

Local Open Scope string_scope.
Local Open Scope list_scope.
Local Open Scope Z_scope.

(** ** Outcomes of a call *)

Inductive error : Type :=
| ErrNew (msg : string)      (* errors.New(msg) *)
| EOF                        (* io.EOF *)
| EINVAL                     (* seek: invalid argument *)
| ErrClosed.                 (* os.ErrClosed *)

Inductive result (A : Type) : Type :=
| Ok (a : A)
| Err (e : error)
| Panic (msg : string).
Arguments Ok {A} a.
Arguments Err {A} e.
Arguments Panic {A} msg.

Definition rbind {A B} (m : result A) (k : A -> result B) : result B :=
  match m with
  | Ok a => k a
  | Err e => Err e
  | Panic msg => Panic msg
  end.

Notation "'do' x <- m ; k" := (rbind m (fun x => k))
  (at level 10, x name, m at level 100, k at level 200).

Definition is_Ok {A} (r : result A) : bool :=
  match r with Ok _ => true | _ => false end.

(** ** Machine integers *)

Definition wrap64 (z : Z) : Z := (z + 2 ^ 63) mod 2 ^ 64 - 2 ^ 63.
Definition maxInt64 : Z := 2 ^ 63 - 1.
Definition in_int64 (z : Z) : Prop := - 2 ^ 63 <= z < 2 ^ 63.

(** ** Strings *)

Definition lenZ (s : string) : Z := Z.of_nat (String.length s).

(** [strip_prefix p s] is the rest of [s] after its prefix [p]. *)
Fixpoint strip_prefix (p s : string) : option string :=
  match p, s with
  | EmptyString, _ => Some s
  | String a p', String b s' =>
      if Ascii.eqb a b then strip_prefix p' s' else None
  | String _ _, EmptyString => None
  end.

(** strings.Index: byte offset of the first occurrence, or -1. *)
Fixpoint strings_Index (s substr : string) : Z :=
  match strip_prefix substr s with
  | Some _ => 0
  | None =>
      match s with
      | EmptyString => -1
      | String _ s' =>
          let i := strings_Index s' substr in
          if i =? -1 then -1 else i + 1
      end
  end.

(** s[:n] for 0 <= n <= len(s). *)
Fixpoint str_take (n : nat) (s : string) : string :=
  match n, s with
  | O, _ => EmptyString
  | S n', String c s' => String c (str_take n' s')
  | S _, EmptyString => EmptyString
  end.

(** strings.Split(s, newline): the pieces between newlines, n+1 of them for
    n newlines. *)
Definition newline : ascii := "010"%char.

Fixpoint split_lines (s : string) : list string :=
  match s with
  | EmptyString => [EmptyString]
  | String c s' =>
      if Ascii.eqb c newline then EmptyString :: split_lines s'
      else match split_lines s' with
           | l :: ls => String c l :: ls
           | [] => [String c EmptyString]
           end
  end.

(** ** Regular expressions

    The four header patterns only use literals, alternatives of literals,
    a starred character class and capturing groups, all anchored by [^].
    [rmatch r s] lists every way [r] matches a prefix of [s] as
    (matched text, rest, captured groups), in the order a backtracking
    matcher tries them (alternatives left to right, stars longest
    first), so its head is the match Go's regexp package reports. *)

Inductive regex : Type :=
| Lit (s : string)
| Alt (alts : list string)
| Star (cls : ascii -> bool)
| Seq (r1 r2 : regex)
| Group (r : regex).

Definition match_lit (p s : string) : list (string * string * list string) :=
  match strip_prefix p s with
  | Some rest => [(p, rest, [])]
  | None => []
  end.

Fixpoint star_splits (cls : ascii -> bool) (s : string) : list (string * string) :=
  match s with
  | EmptyString => [(EmptyString, EmptyString)]
  | String c s' =>
      if cls c
      then map (fun ur => (String c (fst ur), snd ur)) (star_splits cls s')
             ++ [(EmptyString, s)]
      else [(EmptyString, s)]
  end.

Fixpoint rmatch (r : regex) (s : string) : list (string * string * list string) :=
  match r with
  | Lit p => match_lit p s
  | Alt ps => flat_map (fun p => match_lit p s) ps
  | Star cls => map (fun ur => (fst ur, snd ur, [])) (star_splits cls s)
  | Seq r1 r2 =>
      flat_map (fun m1 =>
        match m1 with
        | (u1, rest1, caps1) =>
            map (fun m2 =>
                   match m2 with
                   | (u2, rest2, caps2) => ((u1 ++ u2)%string, rest2, caps1 ++ caps2)
                   end) (rmatch r2 rest1)
        end) (rmatch r1 s)
  | Group r1 =>
      map (fun m => match m with (u, rest, caps) => (u, rest, u :: caps) end)
        (rmatch r1 s)
  end.

(** re.FindAllStringSubmatch(line, -1) for a pattern anchored by [^]: a
    match can only start at offset 0, so there is at most one; its row is
    the whole match followed by the groups. *)
Definition FindAllStringSubmatch (re : regex) (line : string) : list (list string) :=
  match rmatch re line with
  | [] => []
  | (u, _, caps) :: _ => [u :: caps]
  end.

(** res[i][j] *)
Definition sub (res : list (list string)) (i j : nat) : string :=
  nth j (nth i res []) EmptyString.

Definition between (lo hi c : ascii) : bool :=
  (nat_of_ascii lo <=? nat_of_ascii c)%nat && (nat_of_ascii c <=? nat_of_ascii hi)%nat.

(* \d *)
Definition cls_digit (c : ascii) : bool := between "0" "9" c.
(* \w *)
Definition cls_word (c : ascii) : bool :=
  between "0" "9" c || between "A" "Z" c || between "a" "z" c || Ascii.eqb c "_".
(* . *)
Definition cls_dot (c : ascii) : bool := negb (Ascii.eqb c newline).

Definition type_tokens : list string :=
  ["char"; "uchar"; "short"; "ushort"; "int"; "uint"; "float"; "double"].

(** The four patterns of the source, written here with [{*}] for the
    star so that the text stays inside the comment:
      regExpFormat    ^format (ascii|binary_little_endian).{*}
      regExpComment   ^comment (.{*})
      regExpElement   ^element (\w{*}) (\d{*})
      regExpProperty  ^property (char|uchar|short|ushort|int|uint|float|double) (\w{*}) *)
Definition regExpFormat : regex :=
  Seq (Lit "format ") (Seq (Group (Alt ["ascii"; "binary_little_endian"])) (Star cls_dot)).
Definition regExpComment : regex :=
  Seq (Lit "comment ") (Group (Star cls_dot)).
Definition regExpElement : regex :=
  Seq (Lit "element ")
    (Seq (Group (Star cls_word)) (Seq (Lit " ") (Group (Star cls_digit)))).
Definition regExpProperty : regex :=
  Seq (Lit "property ")
    (Seq (Group (Alt type_tokens)) (Seq (Lit " ") (Group (Star cls_word)))).
Definition headerEnd : string := "end_header".

(** strconv.Atoi on the text of a [\d*] group: the empty text is a syntax
    error with value 0, a value beyond the int range is a range error
    with value MaxInt64; the caller drops the error. *)
Definition digit_val (c : ascii) : Z := Z.of_nat (nat_of_ascii c) - 48.

Fixpoint digits_val (acc : Z) (s : string) : Z :=
  match s with
  | EmptyString => acc
  | String c s' => digits_val (acc * 10 + digit_val c) s'
  end.

Definition Atoi (s : string) : Z :=
  let v := digits_val 0 s in
  if maxInt64 <? v then maxInt64 else v.


(** ** The byte source

    An *os.File opened for reading on a regular file: its content, the
    position of the next read, whether it was closed, and the log of the
    calls made on it (oldest first).  Read delivers the bytes that are
    left, at most len(buf); an empty buffer reads nothing and is no
    error; at the end of the content Read reports io.EOF.  Seek to a
    negative position is refused, any other is accepted. *)

Inductive io_event : Type :=
| EvRead (requested delivered : Z)
| EvSeek (off : Z)
| EvClose.

Record File : Type := mkFile {
  content : list byte;
  fpos : Z;
  closed : bool;
  trace : list io_event
}.

Definition os_Open (bytes : list byte) : File :=
  mkFile bytes 0 false [].

Definition log (ev : io_event) (f : File) : File :=
  mkFile (content f) (fpos f) (closed f) (trace f ++ [ev]).

Definition lenB (b : list byte) : Z := Z.of_nat (length b).

(** n, err := f.Read(buf): the count, the error and the buffer after the
    call. *)
Definition file_Read (f : File) (buf : list byte)
  : Z * option error * list byte * File :=
  if closed f then (0, Some ErrClosed, buf, f)
  else if lenB buf =? 0 then (0, None, buf, log (EvRead 0 0) f)
  else if lenB (content f) <=? fpos f
       then (0, Some EOF, buf, log (EvRead (lenB buf) 0) f)
  else
    let data := take (length buf) (drop (Z.to_nat (fpos f)) (content f)) in
    let n := lenB data in
    (n, None, data ++ drop (length data) buf,
     mkFile (content f) (fpos f + n) (closed f)
            (trace f ++ [EvRead (lenB buf) n])).

(** f.Seek(off, 0) *)
Definition file_Seek (f : File) (off : Z) : result Z * File :=
  if closed f then (Err ErrClosed, f)
  else if off <? 0 then (Err EINVAL, log (EvSeek off) f)
  else (Ok off, mkFile (content f) off (closed f) (trace f ++ [EvSeek off])).

Definition file_Close (f : File) : option error * File :=
  if closed f then (Some ErrClosed, f)
  else (None, mkFile (content f) (fpos f) true (trace f ++ [EvClose])).

(** ** Data model *)

Record property : Type := mkProperty {
  prop_Type : string;
  prop_Name : string;
  prop_Size : Z
}.

Record element : Type := mkElement {
  elem_Name : string;
  elem_Count : Z;
  elem_Properties : list property
}.

(** [hdr_Elements] is Go's []*element: an entry is a pointer and may be
    nil ([None]). *)
Record header : Type := mkHeader {
  hdr_Format : string;
  hdr_Comment : string;
  hdr_offset : Z;
  hdr_Elements : list (option element)
}.

Record PlyFile : Type := mkPlyFile {
  headerStr : string;
  ply_header : header
}.

Record ElementReader : Type := mkReader {
  rd_pos : Z;
  rd_offset : Z;
  rd_element : element
}.

Definition propertySizes : list (string * Z) :=
  [("char", 1); ("uchar", 1); ("short", 2); ("ushort", 2);
   ("int", 4); ("uint", 4); ("float", 4); ("double", 8)].

Fixpoint map_get (m : list (string * Z)) (k : string) : option Z :=
  match m with
  | [] => None
  | (k', v) :: m' => if String.eqb k' k then Some v else map_get m' k
  end.

Definition propertySize (t : string) : Z :=
  match map_get propertySizes t with
  | Some size => size
  | None => 0
  end.

Definition PointByteSize (e : element) : Z :=
  fold_left (fun size prop => wrap64 (size + prop_Size prop))
            (elem_Properties e) 0.

(** ** readHeader

    The loop reads 100 bytes at a time until the text read so far holds
    "end_header".  Every round either fails or moves the file position
    forward, so [S (length content)] rounds always suffice
    ([readHeader_loop_fuel]); [None] is the exhausted counter.  [pos] is
    an index into the text, so [pos + len("end_header") + 1] is at most
    one more than the length of a string in memory: this sum cannot
    wrap and is written without [wrap64]. *)

Definition nil_deref : string := "invalid memory address or nil pointer dereference".
Definition slice_bounds : string := "slice bounds out of range".

Fixpoint readHeader_loop (fuel : nat) (f : File) (hs : string)
  : option (result (string * Z) * File) :=
  match fuel with
  | O => None
  | S fuel' =>
      match file_Read f (repeat x00 100) with
      | (n, Some _, _, f1) => Some (Err (ErrNew "failed read header"), f1)
      | (n, None, buf, f1) =>
          let hs1 := (hs ++ string_of_list_byte (take (Z.to_nat n) buf))%string in
          let pos := strings_Index hs1 "end_header" in
          if negb (pos =? -1) then
            let offset := pos + lenZ "end_header" + 1 in
            if (offset <? 0) || (lenZ hs1 <? offset)
            then Some (Panic slice_bounds, f1)
            else Some (Ok (str_take (Z.to_nat offset) hs1, offset), f1)
          else readHeader_loop fuel' f1 hs1
      end
  end.

(** After the loop the source tests the header text for emptiness. *)
Definition readHeader_fuel (fuel : nat) (f : File)
  : option (result (string * Z) * File) :=
  match readHeader_loop fuel f EmptyString with
  | Some (Ok (hs, offset), f1) =>
      if String.eqb hs EmptyString
      then Some (Err (ErrNew "invalid ply file"), f1)
      else Some (Ok (hs, offset), f1)
  | other => other
  end.

Definition readHeader (f : File) : result (string * Z) * File :=
  match readHeader_fuel (S (length (content f))) f with
  | Some r => r
  | None => (Panic "readHeader: no result", f)
  end.

(** ** parseHeader

    While the header is parsed the elements live in a store and the
    header's list and [currElement] hold pointers into it (indices), as
    in the source: a property line writes through [currElement], also
    when that element is already in the list. *)

Record parse_state : Type := mkParse {
  ps_Format : string;
  ps_Comment : string;
  ps_Elements : list (option nat);
  ps_store : list element;
  ps_curr : option nat            (* currElement; None is nil *)
}.

Definition rFormat : regex := regExpFormat.
Definition rComment : regex := regExpComment.
Definition rElement : regex := regExpElement.
Definition rProperty : regex := regExpProperty.

Definition add_property (e : element) (p : property) : element :=
  mkElement (elem_Name e) (elem_Count e) (elem_Properties e ++ [p]).

(** The part of the loop body after the three branches that end in
    [continue]: the property branch, then the test for the terminator. *)
Definition parse_property_and_end (line : string) (st : parse_state)
  : result parse_state :=
  do st1 <-
    match FindAllStringSubmatch rProperty line with
    | [] => Ok st
    | res =>
        match ps_curr st with
        | None => Panic nil_deref
        | Some p =>
            match ps_store st !! p with
            | None => Panic nil_deref
            | Some e =>
                let prop := mkProperty (sub res 0 1) (sub res 0 2)
                                       (propertySize (sub res 0 1)) in
                Ok (mkParse (ps_Format st) (ps_Comment st) (ps_Elements st)
                            (<[p := add_property e prop]> (ps_store st))
                            (ps_curr st))
            end
        end
    end;
  if String.eqb line headerEnd
  then Ok (mkParse (ps_Format st1) (ps_Comment st1)
                   (ps_Elements st1 ++ [ps_curr st1])
                   (ps_store st1) (ps_curr st1))
  else Ok st1.

Definition parse_line (line : string) (st : parse_state) : result parse_state :=
  match FindAllStringSubmatch rFormat line with
  | (_ :: _) as res =>
      Ok (mkParse (sub res 0 1) (ps_Comment st) (ps_Elements st)
                  (ps_store st) (ps_curr st))
  | [] =>
  match FindAllStringSubmatch rComment line with
  | (_ :: _) as res =>
      Ok (mkParse (ps_Format st) (sub res 0 1) (ps_Elements st)
                  (ps_store st) (ps_curr st))
  | [] =>
  match FindAllStringSubmatch rElement line with
  | (_ :: _) as res =>
      let elements :=
        match ps_curr st with
        | Some p => ps_Elements st ++ [Some p]
        | None => ps_Elements st
        end in
      let count := Atoi (sub res 0 2) in
      Ok (mkParse (ps_Format st) (ps_Comment st) elements
                  (ps_store st ++ [mkElement (sub res 0 1) count []])
                  (Some (length (ps_store st))))
  | [] => parse_property_and_end line st
  end end end.

Fixpoint parse_lines (lines : list string) (st : parse_state) : result parse_state :=
  match lines with
  | [] => Ok st
  | line :: rest => do st1 <- parse_line line st; parse_lines rest st1
  end.

(** The pointers of the finished list, followed into the store. *)
Definition resolve (st : parse_state) : list (option element) :=
  map (fun ptr => match ptr with
                  | Some p => ps_store st !! p
                  | None => None
                  end) (ps_Elements st).

(** Open builds the header as [&header{offset: 0}]; readHeader has set
    [offset]; parseHeader fills the rest. *)
Definition parseHeader (hs : string) (offset : Z) : result PlyFile :=
  do st <- parse_lines (split_lines hs) (mkParse "" "" [] [] None);
  Ok (mkPlyFile hs (mkHeader (ps_Format st) (ps_Comment st) offset (resolve st))).

(** Open, from the opened file on ([os.Open] itself is outside the
    model). *)
Definition Open (bytes : list byte) : result PlyFile * File :=
  let file := os_Open bytes in
  match readHeader file with
  | (Ok (hs, offset), f1) =>
      match parseHeader hs offset with
      | Ok ply =>
          if negb (String.eqb (hdr_Format (ply_header ply)) "binary_little_endian")
          then (Err (ErrNew "binary_little_endian support only"),
                snd (file_Close f1))
          else (Ok ply, f1)
      | Err e => (Err e, f1)
      | Panic msg => (Panic msg, f1)
      end
  | (Err e, f1) => (Err e, snd (file_Close f1))
  | (Panic msg, f1) => (Panic msg, f1)
  end.

(** ** Lookups in the schema *)

Fixpoint Has_loop (es : list (option element)) (name : string) : result bool :=
  match es with
  | [] => Ok false
  | None :: _ => Panic nil_deref
  | Some e :: rest =>
      if String.eqb (elem_Name e) name then Ok true else Has_loop rest name
  end.

Definition Has (f : PlyFile) (name : string) : result bool :=
  Has_loop (hdr_Elements (ply_header f)) name.

Fixpoint getElement_loop (es : list (option element)) (name : string)
  : result (option element) :=
  match es with
  | [] => Ok None
  | None :: _ => Panic nil_deref
  | Some e :: rest =>
      if String.eqb (elem_Name e) name then Ok (Some e)
      else getElement_loop rest name
  end.

Definition getElement (f : PlyFile) (name : string) : result (option element) :=
  getElement_loop (hdr_Elements (ply_header f)) name.

Fixpoint getElementOffset_loop (es : list (option element)) (name : string)
    (offset : Z) : result Z :=
  match es with
  | [] => Ok offset
  | None :: _ => Panic nil_deref
  | Some e :: rest =>
      if negb (String.eqb (elem_Name e) name)
      then getElementOffset_loop rest name
             (wrap64 (offset + wrap64 (elem_Count e * PointByteSize e)))
      else Ok offset
  end.

Definition getElementOffset (f : PlyFile) (name : string) : result Z :=
  do has <- Has f name;
  if negb has then Ok (-1)
  else getElementOffset_loop (hdr_Elements (ply_header f)) name 0.

Definition Sprintf_unknown (name : string) : string :=
  ("unknown element '" ++ name ++ "'")%string.

(** The reader's [element] is the pointer [getElement] returns; after
    [Has] it is never nil ([getElement_after_Has]). *)
Definition GetElementReader (f : PlyFile) (name : string) : result ElementReader :=
  do has <- Has f name;
  if negb has then Err (ErrNew (Sprintf_unknown name))
  else
    do off <- getElementOffset f name;
    do e <- getElement f name;
    match e with
    | Some e => Ok (mkReader 0 (wrap64 (hdr_offset (ply_header f) + off)) e)
    | None => Panic nil_deref
    end.

Definition Close (f : PlyFile) (file : File) : option error * (PlyFile * File) :=
  let h := ply_header f in
  let f1 := mkPlyFile "" (mkHeader (hdr_Format h) (hdr_Comment h) 0 (hdr_Elements h)) in
  (fst (file_Close file), (f1, snd (file_Close file))).

(** ** Targets

    The caller's [pointer interface{}].  A field of the pointed struct
    has a name (exported when it starts with a capital), the value of its
    [ply] tag (empty when there is none) and a value of a numeric type.
    Integer values are kept as numbers, float32 and float64 values as
    their IEEE bit patterns: the reader only copies them.

    The structs covered are those of the package's own [Point] kind:
    fields of the predeclared integer and floating-point types, with
    ASCII names.  For such a field Value.Set accepts a value exactly
    when the value's type is the field's type (no two of these types are
    assignable to each other), and the field is exported exactly when
    its name starts with a letter from A to Z.  Fields of other types (a
    field of an interface type accepts every value) are not covered. *)

Inductive gotype : Type :=
| Tuint8 | Tint8 | Tuint16 | Tint16 | Tuint32 | Tint32
| Tuint64 | Tint64 | Tuint | Tint | Tfloat32 | Tfloat64.

#[global] Instance gotype_eq_dec : EqDecision gotype.
Proof. solve_decision. Defined.

Record govalue : Type := mkValue { vtype : gotype; vbits : Z }.

Record field : Type := mkField {
  fname : string;
  ftag : string;            (* t.Field(i).Tag.Get("ply") *)
  fval : govalue
}.

Inductive target : Type :=
| PtrStruct (fields : list field)     (* pointer to a struct *)
| PtrOther (v : govalue)              (* pointer to a value that is no struct *)
| NotPtr.                             (* no pointer: its type has no Elem *)

Definition exported (f : field) : bool :=
  match fname f with
  | String c _ => between "A" "Z" c
  | EmptyString => false
  end.

(** unsafe.Sizeof of a value of the type, in bytes. *)
Definition sizeof (t : gotype) : Z :=
  match t with
  | Tuint8 | Tint8 => 1
  | Tuint16 | Tint16 => 2
  | Tuint32 | Tint32 | Tfloat32 => 4
  | Tuint64 | Tint64 | Tuint | Tint | Tfloat64 => 8
  end.

Definition is_signed (t : gotype) : bool :=
  match t with
  | Tint8 | Tint16 | Tint32 | Tint64 | Tint => true
  | _ => false
  end.

Definition byteZ (b : byte) : Z := Z.of_N (Byte.to_N b).

(** The number held by bytes laid out least significant first. *)
Fixpoint le_value (bs : list byte) : Z :=
  match bs with
  | [] => 0
  | b :: bs' => byteZ b + 256 * le_value bs'
  end.

(** The value of type [t] whose storage holds the unsigned number [u]. *)
Definition of_bits (t : gotype) (u : Z) : Z :=
  if is_signed t && (2 ^ (8 * sizeof t - 1) <=? u)
  then u - 2 ^ (8 * sizeof t)
  else u.

(** v := T(0); memcpy(bits, unsafe.Pointer(&v)) on a little-endian
    machine: the low len(bits) bytes of [v] are overwritten.  Copying
    more bytes than [v] has writes past it, which the model stops on. *)
Definition memcpy (bits : list byte) (t : gotype) : result govalue :=
  if sizeof t <? lenB bits then Panic "memcpy: write past the destination"
  else Ok (mkValue t (of_bits t (le_value bits))).

(** buf[lo:hi] *)
Definition slice (buf : list byte) (lo hi : Z) : result (list byte) :=
  if (lo <? 0) || (hi <? lo) || (lenB buf <? hi) then Panic slice_bounds
  else Ok (take (Z.to_nat (hi - lo)) (drop (Z.to_nat lo) buf)).

(** Field(i).Set(reflect.ValueOf(v)): the field must be exported and the
    value's type must be the field's type. *)
Definition reflect_Set (f : field) (v : govalue) : result field :=
  if negb (exported f)
  then Panic "reflect: reflect.Value.Set using value obtained using unexported field"
  else if bool_decide (vtype v = vtype (fval f))
       then Ok (mkField (fname f) (ftag f) v)
       else Panic "reflect.Set: value is not assignable to the field's type".

(** The variable each case of the switch on prop.Type declares. *)
Definition case_type (typ : string) : option gotype :=
  if String.eqb typ "char" || String.eqb typ "uchar" then Some Tuint8
  else if String.eqb typ "short" then Some Tint16
  else if String.eqb typ "ushort" then Some Tuint16
  else if String.eqb typ "int" then Some Tint32
  else if String.eqb typ "uint" then Some Tuint32
  else if String.eqb typ "float" then Some Tfloat32
  else if String.eqb typ "double" then Some Tfloat64
  else None.

(** One case of the switch, for field [f]. *)
Definition store (prop : property) (offset : Z) (buf : list byte) (f : field)
  : result field :=
  match case_type (prop_Type prop) with
  | None => Ok f
  | Some t =>
      do bits <- slice buf offset (wrap64 (offset + prop_Size prop));
      do v <- memcpy bits t;
      reflect_Set f v
  end.

(** The inner loop over the fields of the struct. *)
Fixpoint set_fields (prop : property) (offset : Z) (buf : list byte)
    (fs : list field) : result (list field) :=
  match fs with
  | [] => Ok []
  | f :: rest =>
      do f1 <- (if String.eqb (ftag f) (prop_Name prop)
                then store prop offset buf f else Ok f);
      do rest1 <- set_fields prop offset buf rest;
      Ok (f1 :: rest1)
  end.

Definition decode_prop (prop : property) (offset : Z) (buf : list byte)
    (tgt : target) : result target :=
  match tgt with
  | NotPtr => Panic "reflect: Elem of invalid type"
  | PtrOther v => Ok (PtrOther v)
  | PtrStruct fs => do fs1 <- set_fields prop offset buf fs; Ok (PtrStruct fs1)
  end.

(** The loop over the properties, with its running [offset]. *)
Fixpoint decode_props (props : list property) (offset : Z) (buf : list byte)
    (tgt : target) : result target :=
  match props with
  | [] => Ok tgt
  | prop :: rest =>
      do tgt1 <- decode_prop prop offset buf tgt;
      decode_props rest (wrap64 (offset + prop_Size prop)) buf tgt1
  end.

(** The struct as the loops leave it when they stop.  Field(i).Set
    writes into the caller's struct, one field at a time: when a store
    panics, the fields stored before it keep their new values, and the
    field of the panic and the fields after it are as they were.  When
    the loops complete this is the decoded struct
    ([decode_props_left_Ok]). *)
Fixpoint set_fields_left (prop : property) (offset : Z) (buf : list byte)
    (fs : list field) : list field :=
  match fs with
  | [] => []
  | f :: rest =>
      match (if String.eqb (ftag f) (prop_Name prop)
             then store prop offset buf f else Ok f) with
      | Ok f1 => f1 :: set_fields_left prop offset buf rest
      | _ => f :: rest
      end
  end.

Definition decode_prop_left (prop : property) (offset : Z) (buf : list byte)
    (tgt : target) : target :=
  match tgt with
  | PtrStruct fs => PtrStruct (set_fields_left prop offset buf fs)
  | _ => tgt
  end.

Fixpoint decode_props_left (props : list property) (offset : Z)
    (buf : list byte) (tgt : target) : target :=
  match props with
  | [] => tgt
  | prop :: rest =>
      match decode_prop prop offset buf tgt with
      | Ok tgt1 =>
          decode_props_left rest (wrap64 (offset + prop_Size prop)) buf tgt1
      | _ => decode_prop_left prop offset buf tgt
      end
  end.

(** ** The element reader

    A call works on the shared file, the reader and the struct behind
    the caller's pointer; all three are returned, also when the call
    fails. *)

Record world : Type := mkWorld {
  w_file : File;
  w_reader : ElementReader;
  w_target : target
}.

Definition set_pos (r : ElementReader) (pos : Z) : ElementReader :=
  mkReader pos (rd_offset r) (rd_element r).

(* fmt.Sprintf("%d", z) *)
Definition Sprintf_d (z : Z) : string :=
  DecimalString.NilZero.string_of_int (Z.to_int z).

Definition Sprintf_seek (pos : Z) : string :=
  ("can't offset on " ++ Sprintf_d pos ++ " position")%string.

Definition Seek (r : ElementReader) (pos : Z) : result unit * ElementReader :=
  if (pos <? 0) || (elem_Count (rd_element r) <? pos)
  then (Err (ErrNew (Sprintf_seek pos)), r)
  else (Ok tt, set_pos r pos).

Definition Reset (r : ElementReader) : result unit * ElementReader :=
  Seek r 0.

Definition is_EOF (err : option error) : bool :=
  match err with Some EOF => true | _ => false end.

Definition ReadNext (w : world) : result Z * world :=
  let r := w_reader w in
  let size := PointByteSize (rd_element r) in
  match file_Seek (w_file w) (wrap64 (rd_offset r + wrap64 (rd_pos r * size))) with
  | (Err e, f1) => (Err e, mkWorld f1 r (w_target w))
  | (Panic msg, f1) => (Panic msg, mkWorld f1 r (w_target w))
  | (Ok _, f1) =>
      if size <? 0
      then (Panic "makeslice: len out of range", mkWorld f1 r (w_target w))
      else
        let buf := repeat x00 (Z.to_nat size) in
        if elem_Count (rd_element r) <=? rd_pos r
        then (Err EOF, mkWorld f1 r (w_target w))
        else
          match file_Read f1 buf with
          | (_, err, buf1, f2) =>
              if is_EOF err then (Err EOF, mkWorld f2 r (w_target w))
              else
                match decode_props (elem_Properties (rd_element r)) 0 buf1
                                   (w_target w) with
                | Ok tgt1 =>
                    let pos1 := wrap64 (rd_pos r + 1) in
                    (Ok pos1, mkWorld f2 (set_pos r pos1) tgt1)
                | Err e =>
                    (Err e,
                     mkWorld f2 r
                       (decode_props_left (elem_Properties (rd_element r)) 0
                          buf1 (w_target w)))
                | Panic msg =>
                    (Panic msg,
                     mkWorld f2 r
                       (decode_props_left (elem_Properties (rd_element r)) 0
                          buf1 (w_target w)))
                end
          end
  end.

Definition ReadAt (pos : Z) (w : world) : result unit * world :=
  let currPos := rd_pos (w_reader w) in
  match Seek (w_reader w) pos with
  | (Ok _, r1) =>
      match ReadNext (mkWorld (w_file w) r1 (w_target w)) with
      | (Ok _, w1) =>
          (Ok tt, mkWorld (w_file w1) (set_pos (w_reader w1) currPos) (w_target w1))
      | (Err e, w1) => (Err e, w1)
      | (Panic msg, w1) => (Panic msg, w1)
      end
  | (Err e, r1) => (Err e, mkWorld (w_file w) r1 (w_target w))
  | (Panic msg, r1) => (Panic msg, mkWorld (w_file w) r1 (w_target w))
  end.

Definition ReadFirst (w : world) : result unit * world := ReadAt 0 w.

Definition CurrentPos (r : ElementReader) : Z := rd_pos r.
Definition Count (r : ElementReader) : Z := elem_Count (rd_element r).

(** ** The package's own target: type Point *)

Definition Point (x y z r g b : Z) : target :=
  PtrStruct
    [mkField "X" "x" (mkValue Tfloat64 x);
     mkField "Y" "y" (mkValue Tfloat64 y);
     mkField "Z" "z" (mkValue Tfloat64 z);
     mkField "R" "red" (mkValue Tuint8 r);
     mkField "G" "green" (mkValue Tuint8 g);
     mkField "B" "blue" (mkValue Tuint8 b)].

(** ** The second reader: package plyreader (plyreader.go)

    ReadPly reads a whole file into a slice of PlyPoint.  Its header
    loop is the loop of readHeader, word for word, and its property
    pattern is [regExpProperty]; both are shared with the model above.
    As for Open, [os.Open] itself is outside the model: ReadPly starts
    from the opened file, and its deferred Close runs on every way out.

    A PlyPoint is modelled in memory, because memcpy writes len(bits)
    bytes from the address of a field on, whatever the field's size:
    on a 64-bit little-endian machine X, Y and Z lie at offsets 0, 8 and
    16, R, G and B at 24, 25 and 26, and five bytes of padding fill the
    point up to 32.  Float fields are kept as their IEEE bit patterns. *)

Module plyreader.

Record PlyPoint : Type := mkPlyPoint {
  pt_X : Z; pt_Y : Z; pt_Z : Z;
  pt_R : Z; pt_G : Z; pt_B : Z
}.

Record PlyProperty : Type := mkPlyProperty {
  pp_Name : string;
  pp_Size : Z
}.

Definition pointByteSize (props : list PlyProperty) : Z :=
  fold_left (fun size prop => wrap64 (size + pp_Size prop)) props 0.

Definition addProperty (props : list PlyProperty) (name ptype : string)
  : list PlyProperty :=
  let size :=
    if String.eqb ptype "char" then 1
    else if String.eqb ptype "uchar" then 1
    else if String.eqb ptype "short" then 2
    else if String.eqb ptype "ushort" then 2
    else if String.eqb ptype "int" then 4
    else if String.eqb ptype "uint" then 4
    else if String.eqb ptype "float" then 4
    else if String.eqb ptype "double" then 8
    else 0 in
  props ++ [mkPlyProperty name size].

(** unsafe.Sizeof(PlyPoint{}) and the offsets of its fields. *)
Definition point_bytes : nat := 32.
Definition off_X : nat := 0.
Definition off_Y : nat := 8.
Definition off_Z : nat := 16.
Definition off_R : nat := 24.
Definition off_G : nat := 25.
Definition off_B : nat := 26.

(** point := PlyPoint{} *)
Definition zero_point : list byte := repeat x00 point_bytes.

(** The point a memory image holds. *)
Definition load (mem : list byte) : PlyPoint :=
  mkPlyPoint (le_value (take 8 (drop off_X mem)))
             (le_value (take 8 (drop off_Y mem)))
             (le_value (take 8 (drop off_Z mem)))
             (le_value (take 1 (drop off_R mem)))
             (le_value (take 1 (drop off_G mem)))
             (le_value (take 1 (drop off_B mem))).

(** memcpy(bits, unsafe.Pointer(&point.F)) for the field at [off]: the
    bytes overwrite the point from [off] on.  A copy that runs past the
    last byte of the point writes outside the variable, which the model
    stops on. *)
Definition memcpy (bits : list byte) (mem : list byte) (off : nat)
  : result (list byte) :=
  if (length mem <? off + length bits)%nat
  then Panic "memcpy: write past the destination"
  else Ok (take off mem ++ bits ++ drop (off + length bits) mem).

(** if prop.Name == name { memcpy(buf[offset:offset+prop.Size], &point.F) } *)
Definition copy_named (name : string) (off : nat) (prop : PlyProperty)
    (offset : Z) (buf mem : list byte) : result (list byte) :=
  if String.eqb (pp_Name prop) name
  then do bits <- slice buf offset (wrap64 (offset + pp_Size prop));
       memcpy bits mem off
  else Ok mem.

(** The six tests of the loop body, in the order of the source. *)
Definition copy_fields (prop : PlyProperty) (offset : Z) (buf mem : list byte)
  : result (list byte) :=
  do m1 <- copy_named "x" off_X prop offset buf mem;
  do m2 <- copy_named "y" off_Y prop offset buf m1;
  do m3 <- copy_named "z" off_Z prop offset buf m2;
  do m4 <- copy_named "red" off_R prop offset buf m3;
  do m5 <- copy_named "green" off_G prop offset buf m4;
  copy_named "blue" off_B prop offset buf m5.

(** The loop over the properties, with its running [offset]. *)
Fixpoint decode_point (props : list PlyProperty) (offset : Z)
    (buf mem : list byte) : result (list byte) :=
  match props with
  | [] => Ok mem
  | prop :: rest =>
      do mem1 <- copy_fields prop offset buf mem;
      decode_point rest (wrap64 (offset + pp_Size prop)) buf mem1
  end.

(** The loop over the header's lines. *)
Definition header_property (props : list PlyProperty) (p : string)
  : list PlyProperty :=
  let pp := FindAllStringSubmatch rProperty p in
  if (0 <? length pp)%nat && (3 <=? length (nth 0 pp []))%nat
  then addProperty props (sub pp 0 2) (sub pp 0 1)
  else props.

Definition header_properties (headerProps : list string) : list PlyProperty :=
  fold_left header_property headerProps [].

(** The loop that reads the points: [buf] is one buffer for all reads,
    and only io.EOF ends the loop.  [None] is the exhausted counter. *)
Fixpoint read_points (fuel : nat) (props : list PlyProperty) (f : File)
    (buf : list byte) (points : list PlyPoint)
  : option (result (list PlyPoint) * File) :=
  match fuel with
  | O => None
  | S fuel' =>
      match file_Read f buf with
      | (_, err, buf1, f1) =>
          if is_EOF err then Some (Ok points, f1)
          else
            match decode_point props 0 buf1 zero_point with
            | Ok mem => read_points fuel' props f1 buf1 (points ++ [load mem])
            | Err e => Some (Err e, f1)
            | Panic msg => Some (Panic msg, f1)
            end
      end
  end.

Definition ReadPly_fuel (fuel : nat) (bytes : list byte)
  : option (result (list PlyPoint) * File) :=
  let f := os_Open bytes in
  match readHeader_loop (S (length bytes)) f EmptyString with
  | None => None
  | Some (Err e, f1) => Some (Err e, snd (file_Close f1))
  | Some (Panic msg, f1) => Some (Panic msg, snd (file_Close f1))
  | Some (Ok (header, headerOffset), f1) =>
      let props := header_properties (split_lines header) in
      match props with
      | [] => Some (Err (ErrNew "failed read header properties"),
                    snd (file_Close f1))
      | _ :: _ =>
          let size := pointByteSize props in
          if size <? 0
          then Some (Panic "makeslice: len out of range", snd (file_Close f1))
          else
            match file_Seek f1 headerOffset with
            | (Ok _, f2) =>
                match read_points fuel props f2 (repeat x00 (Z.to_nat size)) [] with
                | Some (r, f3) => Some (r, snd (file_Close f3))
                | None => None
                end
            | (_, f2) => Some (Err (ErrNew "failed read body"),
                               snd (file_Close f2))
            end
      end
  end.

(** Every read of the loop delivers at least one byte or ends it, so
    [S (length bytes)] rounds suffice ([ReadPly_spec]). *)
Definition ReadPly (bytes : list byte) : result (list PlyPoint) * File :=
  match ReadPly_fuel (S (length bytes)) bytes with
  | Some r => r
  | None => (Panic "ReadPly: no result", os_Open bytes)
  end.

End plyreader.

(** ** Notions used to state the properties *)

(** The bytes the records of the elements [pre] take in the body: the
    sum of count times record size, as a number. *)
Definition bytes_before (pre : list element) : Z :=
  fold_right (fun e acc => elem_Count e * PointByteSize e + acc) 0 pre.

(** The file position ReadNext seeks to. *)
Definition record_position (r : ElementReader) : Z :=
  wrap64 (rd_offset r + wrap64 (rd_pos r * PointByteSize (rd_element r))).

(** The buffer ReadNext decodes: [size] zero bytes, overwritten from the
    front by the bytes the file has at [pos], at most [size] of them. *)
Definition record_buffer (bytes : list byte) (pos size : Z) : list byte :=
  let data := take (Z.to_nat size) (drop (Z.to_nat pos) bytes) in
  data ++ drop (length data) (repeat x00 (Z.to_nat size)).

(** The decoder on the fields of a struct ([decode_props_struct]). *)
Fixpoint decode_fields (props : list property) (offset : Z) (buf : list byte)
    (fs : list field) : result (list field) :=
  match props with
  | [] => Ok fs
  | prop :: rest =>
      do fs1 <- set_fields prop offset buf fs;
      decode_fields rest (wrap64 (offset + prop_Size prop)) buf fs1
  end.

(** The running offset after the properties [props], from [offset]. *)
Definition running_offset (props : list property) (offset : Z) : Z :=
  fold_left (fun o prop => wrap64 (o + prop_Size prop)) props offset.

Definition sum_sizes (props : list property) : Z :=
  fold_right (fun prop acc => prop_Size prop + acc) 0 props.

(** The bytes of buf[lo:hi]. *)
Definition bits_at (buf : list byte) (lo hi : Z) : list byte :=
  take (Z.to_nat (hi - lo)) (drop (Z.to_nat lo) buf).

(** The value of type [t] read from the [size] bytes at [offset]. *)
Definition scalar_at (t : gotype) (buf : list byte) (offset size : Z) : govalue :=
  mkValue t (of_bits t (le_value (bits_at buf offset (wrap64 (offset + size))))).

(** A property as parseHeader builds it: its size is the size of its
    type. *)
Definition wf_property (p : property) : Prop :=
  prop_Size p = propertySize (prop_Type p).

(** Every property bound to the field finds it exported and of exactly
    the type the property decodes to. *)
Definition settable (props : list property) (f : field) : Prop :=
  forall p t, In p props -> prop_Name p = ftag f ->
              case_type (prop_Type p) = Some t ->
              exported f = true /\ vtype (fval f) = t.

Definition same_shape (f f1 : field) : Prop :=
  fname f1 = fname f /\ ftag f1 = ftag f /\ vtype (fval f1) = vtype (fval f).

(** Some property of [props] stores into the fields tagged [tag]. *)
Definition writes (props : list property) (tag : string) : bool :=
  existsb (fun p => String.eqb tag (prop_Name p)
                    && match case_type (prop_Type p) with
                       | Some _ => true
                       | None => false
                       end) props.

(** Two structs of one type that differ at most in fields [props]
    stores into. *)
Definition agree (props : list property) (a b : list field) : Prop :=
  Forall2 (fun fa fb => same_shape fa fb /\
                        (writes props (ftag fa) = false -> fa = fb)) a b.

Definition agree_target (props : list property) (t t1 : target) : Prop :=
  match t, t1 with
  | PtrStruct a, PtrStruct b => agree props a b
  | PtrOther v, PtrOther v1 => v = v1
  | NotPtr, NotPtr => True
  | _, _ => False
  end.

(** Two outcomes of one kind: both complete, with related values, or
    both stop with the same error or panic. *)
Definition rel_result {A} (R : A -> A -> Prop) (x y : result A) : Prop :=
  match x, y with
  | Ok a, Ok b => R a b
  | Err e, Err e1 => e = e1
  | Panic m, Panic m1 => m = m1
  | _, _ => False
  end.

(** The claim of the specification that the first format line decides. *)
Definition first_format_line_wins (hs : string) : Prop :=
  forall offset ply pre line post,
    parseHeader hs offset = Ok ply ->
    split_lines hs = pre ++ line :: post ->
    Forall (fun l => FindAllStringSubmatch rFormat l = []) pre ->
    FindAllStringSubmatch rFormat line <> [] ->
    hdr_Format (ply_header ply) = sub (FindAllStringSubmatch rFormat line) 0 1.

(** The claim of the specification that the base offset of a reader is
    the header offset plus the bytes of the elements before, as a
    number. *)
Definition offset_is_the_sum (ply : PlyFile) : Prop :=
  forall name pre e post r,
    hdr_Elements (ply_header ply) = map Some pre ++ Some e :: post ->
    Forall (fun p => elem_Name p <> name) pre ->
    elem_Name e = name ->
    GetElementReader ply name = Ok r ->
    rd_offset r = hdr_offset (ply_header ply) + bytes_before pre.

(** A line that gets to the property branch of the loop and matches
    there. *)
Definition bare_property (line : string) : Prop :=
  FindAllStringSubmatch rFormat line = [] /\
  FindAllStringSubmatch rComment line = [] /\
  FindAllStringSubmatch rElement line = [] /\
  FindAllStringSubmatch rProperty line <> [].

(** [currElement] points to an element. *)
Definition curr_valid (st : parse_state) : Prop :=
  exists p, ps_curr st = Some p /\ (p < length (ps_store st))%nat.

(** The text of a file, as readHeader sees its bytes. *)
Definition file_text (bytes : list byte) : string := string_of_list_byte bytes.

(** The byte offset of the first "end_header" in the file, or -1. *)
Definition terminator_pos (bytes : list byte) : Z :=
  strings_Index (file_text bytes) "end_header".

(** The terminator ends where a 100-byte read ends or where the file
    ends: the byte after it is not in the text when it is found. *)
Definition terminator_at_read_end (bytes : list byte) : Prop :=
  terminator_pos bytes + 10 = lenB bytes \/
  (terminator_pos bytes + 10) mod 100 = 0.

(** Every character of [s] is in the class. *)
Fixpoint all_chars (cls : ascii -> bool) (s : string) : bool :=
  match s with
  | EmptyString => true
  | String c s1 => cls c && all_chars cls s1
  end.

(** The texts a pattern matches, and its capturing groups in the order
    of their opening parentheses. *)
Fixpoint lang (r : regex) (u : string) : Prop :=
  match r with
  | Lit p => u = p
  | Alt ps => In u ps
  | Star cls => all_chars cls u = true
  | Seq r1 r2 => exists u1 u2, u = (u1 ++ u2)%string /\ lang r1 u1 /\ lang r2 u2
  | Group r1 => lang r1 u
  end.

Fixpoint groups (r : regex) : list regex :=
  match r with
  | Lit _ | Alt _ | Star _ => []
  | Seq r1 r2 => groups r1 ++ groups r2
  | Group r1 => r1 :: groups r1
  end.

(** What parseHeader guarantees of a property and of an element. *)
Definition property_ok (p : property) : Prop :=
  In (prop_Type p) type_tokens /\
  all_chars cls_word (prop_Name p) = true /\
  prop_Size p = propertySize (prop_Type p) /\
  exists t, case_type (prop_Type p) = Some t /\ prop_Size p = sizeof t.

Definition element_ok (e : element) : Prop :=
  0 <= elem_Count e <= maxInt64 /\
  all_chars cls_word (elem_Name e) = true /\
  Forall property_ok (elem_Properties e).

(** The entries of the element list point into the store. *)
Definition entries_valid (st : parse_state) : Prop :=
  Forall (fun x => exists p, x = Some p /\ (p < length (ps_store st))%nat)
         (ps_Elements st).

(** The numbers a Go value of the type can hold (for the float types:
    the bit patterns). *)
Definition in_range (t : gotype) (z : Z) : Prop :=
  if is_signed t
  then - 2 ^ (8 * sizeof t - 1) <= z < 2 ^ (8 * sizeof t - 1)
  else 0 <= z < 2 ^ (8 * sizeof t).

(** The header text and the record layout ReadPly works with: the file
    up to and including the byte after the first "end_header", and the
    properties of all its property lines, whatever element they are
    under. *)
Definition header_text (bytes : list byte) : string :=
  str_take (Z.to_nat (terminator_pos bytes + 11)) (file_text bytes).

Definition declared_properties (bytes : list byte) : list plyreader.PlyProperty :=
  plyreader.header_properties (split_lines (header_text bytes)).

Definition sum_pp (props : list plyreader.PlyProperty) : Z :=
  fold_right (fun prop acc => plyreader.pp_Size prop + acc) 0 props.

(** A property as the pattern and addProperty make it. *)
Definition pp_ok (p : plyreader.PlyProperty) : Prop :=
  In (plyreader.pp_Size p) [1; 2; 4; 8] /\
  all_chars cls_word (plyreader.pp_Name p) = true.

(** The property makes memcpy write past the end of the point: eight
    bytes copied to the address of G or of B. *)
Definition writes_past (p : plyreader.PlyProperty) : bool :=
  (plyreader.pp_Size p =? 8) &&
  (String.eqb (plyreader.pp_Name p) "green" ||
   String.eqb (plyreader.pp_Name p) "blue").

(** The property of package plyreader for a property of package
    plyfile. *)
Definition to_pp (p : property) : plyreader.PlyProperty :=
  plyreader.mkPlyProperty (prop_Name p) (prop_Size p).

(** The line opens an element: it takes the third branch of the loop of
    parseHeader. *)
Definition is_element_line (line : string) : bool :=
  match FindAllStringSubmatch rFormat line,
        FindAllStringSubmatch rComment line,
        FindAllStringSubmatch rElement line with
  | [], [], _ :: _ => true
  | _, _, _ => false
  end.

Definition element_lines (lines : list string) : nat :=
  length (List.filter is_element_line lines).

(** The property suits type Point: x, y and z are doubles, the colours
    are single bytes. *)
Definition point_typed (p : property) : Prop :=
  (In (prop_Name p) ["x"; "y"; "z"] -> prop_Type p = "double") /\
  (In (prop_Name p) ["red"; "green"; "blue"] ->
   prop_Type p = "char" \/ prop_Type p = "uchar").

(** The line adds a property: it takes the fourth branch of the loop. *)
Definition is_property_line (line : string) : bool :=
  match FindAllStringSubmatch rFormat line,
        FindAllStringSubmatch rComment line,
        FindAllStringSubmatch rElement line,
        FindAllStringSubmatch rProperty line with
  | [], [], [], _ :: _ => true
  | _, _, _, _ => false
  end.

(** The element an element line opens and the property a property line
    declares. *)
Definition line_element (line : string) : element :=
  let res := FindAllStringSubmatch rElement line in
  mkElement (sub res 0 1) (Atoi (sub res 0 2)) [].

Definition line_property (line : string) : property :=
  let res := FindAllStringSubmatch rProperty line in
  mkProperty (sub res 0 1) (sub res 0 2) (propertySize (sub res 0 1)).

Definition open_list (open : option element) : list element :=
  match open with
  | Some e => [e]
  | None => []
  end.

(** The schema a header declares, read as a PLY header is meant: an
    element line opens an element, the property lines that follow it
    are its properties in their order, and the elements come in the
    order of their lines.  [open] is the element being read. *)
Fixpoint declared (lines : list string) (open : option element) : list element :=
  match lines with
  | [] => open_list open
  | line :: rest =>
      if is_element_line line
      then open_list open ++ declared rest (Some (line_element line))
      else if is_property_line line
      then declared rest
             (option_map (fun e => add_property e (line_property line)) open)
      else declared rest open
  end.

(** The parser's store, list and [currElement] hold the elements that
    are complete ([done]) and the one being read ([open]). *)
Definition holds (st : parse_state) (done : list element)
    (open : option element) : Prop :=
  ps_store st = done ++ open_list open /\
  ps_Elements st = map Some (seq 0 (length done)) /\
  ps_curr st = match open with
               | Some _ => Some (length done)
               | None => None
               end.

(** The Point that holds the values of a PlyPoint. *)
Definition point_target (p : plyreader.PlyPoint) : target :=
  Point (plyreader.pt_X p) (plyreader.pt_Y p) (plyreader.pt_Z p)
        (plyreader.pt_R p) (plyreader.pt_G p) (plyreader.pt_B p).

(** ** Reading a whole element, in the two ways *)

(** [n] calls of ReadNext on one target; the values the target takes. *)
Fixpoint ReadNext_n (n : nat) (w : world) : result (list target) :=
  match n with
  | O => Ok []
  | S n1 =>
      match ReadNext w with
      | (Ok _, w1) => do rest <- ReadNext_n n1 w1; Ok (w_target w1 :: rest)
      | (Err e, _) => Err e
      | (Panic msg, _) => Panic msg
      end
  end.

(** r.Reset() and then Count() calls of ReadNext. *)
Definition read_sequentially (w : world) : result (list target) :=
  match Reset (w_reader w) with
  | (Ok _, r1) =>
      ReadNext_n (Z.to_nat (Count r1)) (mkWorld (w_file w) r1 (w_target w))
  | (Err e, _) => Err e
  | (Panic msg, _) => Panic msg
  end.

(** ReadAt(i, fresh) for i, i+1, ... ([n] calls), each on a new copy of
    [fresh]; the values the copies take. *)
Fixpoint ReadAt_each (n : nat) (i : Z) (fresh : target) (w : world)
  : result (list target) :=
  match n with
  | O => Ok []
  | S n1 =>
      match ReadAt i (mkWorld (w_file w) (w_reader w) fresh) with
      | (Ok _, w1) =>
          do rest <- ReadAt_each n1 (i + 1) fresh w1; Ok (w_target w1 :: rest)
      | (Err e, _) => Err e
      | (Panic msg, _) => Panic msg
      end
  end.

Definition read_by_index (w : world) : result (list target) :=
  ReadAt_each (Z.to_nat (Count (w_reader w))) 0 (w_target w) w.

(** ** Sequences of calls on a reader *)

Inductive op : Type :=
| OpSeek (pos : Z)
| OpReset
| OpReadNext
| OpReadAt (pos : Z)
| OpReadFirst.

(** The world after the call, whatever it returned. *)
Definition apply_op (o : op) (w : world) : world :=
  match o with
  | OpSeek pos => mkWorld (w_file w) (snd (Seek (w_reader w) pos)) (w_target w)
  | OpReset => mkWorld (w_file w) (snd (Reset (w_reader w))) (w_target w)
  | OpReadNext => snd (ReadNext w)
  | OpReadAt pos => snd (ReadAt pos w)
  | OpReadFirst => snd (ReadFirst w)
  end.

Definition run_ops (ops : list op) (w : world) : world :=
  fold_left (fun w1 o => apply_op o w1) ops w.

(** ** Sample inputs *)

Definition nl : string := String newline EmptyString.

(** The text with a newline after every line. *)
Fixpoint unlines (ls : list string) : string :=
  match ls with
  | [] => EmptyString
  | l :: ls' => (l ++ nl ++ unlines ls')%string
  end.

(** The header of the specification's end-to-end scenario. *)
Definition sample_header : string :=
  unlines ["ply"; "format binary_little_endian 1.0"; "comment test";
           "element vertex 2"; "property float x"; "property float y";
           "property uchar red"; "end_header"].

Definition two_formats_header : string :=
  unlines ["ply"; "format ascii 1.0"; "format binary_little_endian 1.0";
           "element vertex 0"; "end_header"].

Definition early_property_header : string :=
  unlines ["ply"; "format binary_little_endian 1.0"; "property float x";
           "element vertex 1"; "property float y"; "end_header"].

Definition no_element_header : string :=
  unlines ["ply"; "format binary_little_endian 1.0"; "end_header"].

Definition two_element_header : string :=
  unlines ["ply"; "format binary_little_endian 1.0"; "comment two elements";
           "element vertex 2"; "property double x"; "property short y";
           "property uchar red"; "element face 3"; "property int a";
           "end_header"].

Definition vertex_element : element :=
  mkElement "vertex" 2
    [mkProperty "double" "x" 8; mkProperty "short" "y" 2;
     mkProperty "uchar" "red" 1].

Definition face_element : element :=
  mkElement "face" 3 [mkProperty "int" "a" 4].

(** What Open makes of [two_element_header] ([Open_two_element]). *)
Definition two_element_ply : PlyFile :=
  mkPlyFile two_element_header
    (mkHeader "binary_little_endian" "two elements" 169
       [Some vertex_element; Some face_element]).

(** A file for [two_element_header]: two vertex records of 11 bytes and
    three face records of 4 bytes. *)
Definition two_element_file : list byte :=
  list_byte_of_string two_element_header ++
  [x01; x00; x00; x00; x00; x00; x00; x00; xff; xff; x07;
   x02; x00; x00; x00; x00; x00; x00; x00; xfe; xff; x08;
   x0a; x00; x00; x00; x0b; x00; x00; x00; x0c; x00; x00; x00].

Definition vertex_target (x y r extra : Z) : target :=
  PtrStruct [mkField "Y" "y" (mkValue Tint16 y);
             mkField "X" "x" (mkValue Tfloat64 x);
             mkField "Extra" "" (mkValue Tint extra);
             mkField "R" "red" (mkValue Tuint8 r)].

(** A header that declares more records than any file holds: the count
    of [a] is MaxInt64, so the records of [b] start past the int64
    range. *)
Definition huge_count_header : string :=
  unlines ["ply"; "format binary_little_endian 1.0";
           "element a 9223372036854775807"; "property uchar r";
           "element b 0"; "end_header"].

Definition huge_count_ply : PlyFile :=
  mkPlyFile huge_count_header
    (mkHeader "binary_little_endian" "" 106
       [Some (mkElement "a" 9223372036854775807 [mkProperty "uchar" "r" 1]);
        Some (mkElement "b" 0 [])]).

(** One declared record of one double, and a body of three bytes. *)
Definition short_body_header : string :=
  unlines ["ply"; "format binary_little_endian 1.0"; "element vertex 1";
           "property double x"; "end_header"].

Definition short_body_file : list byte :=
  list_byte_of_string short_body_header ++ [x01; x02; x03].

Definition short_body_ply : PlyFile :=
  mkPlyFile short_body_header
    (mkHeader "binary_little_endian" "" 82
       [Some (mkElement "vertex" 1 [mkProperty "double" "x" 8])]).

Definition only_X (x : Z) : target :=
  PtrStruct [mkField "X" "x" (mkValue Tfloat64 x)].

(** One record of one uchar property and a target whose field for it is
    wider (uint32). *)
Definition red_header : string :=
  unlines ["ply"; "format binary_little_endian 1.0"; "element vertex 1";
           "property uchar red"; "end_header"].

Definition red_file : list byte := list_byte_of_string red_header ++ [x07].

Definition red_ply : PlyFile :=
  mkPlyFile red_header
    (mkHeader "binary_little_endian" "" 83
       [Some (mkElement "vertex" 1 [mkProperty "uchar" "red" 1])]).

Definition wide_R (t : gotype) (r : Z) : target :=
  PtrStruct [mkField "R" "red" (mkValue t r)].

(** The record of the specification's example: x, y, z, red, green and
    blue, and a target that has no field for green but one more field
    bound to nothing in the record. *)
Definition rgb_props : list property :=
  [mkProperty "double" "x" 8; mkProperty "double" "y" 8;
   mkProperty "double" "z" 8; mkProperty "uchar" "red" 1;
   mkProperty "uchar" "green" 1; mkProperty "uchar" "blue" 1].

Definition rgb_buf : list byte :=
  [x01; x00; x00; x00; x00; x00; x00; x00;
   x02; x00; x00; x00; x00; x00; x00; x00;
   x03; x00; x00; x00; x00; x00; x00; x00;
   x07; x08; x09].


(** A file whose terminator is its last text: no byte follows it. *)
Definition no_newline_file : list byte :=
  list_byte_of_string ("ply" ++ nl ++ "format binary_little_endian 1.0" ++ nl
                       ++ "element vertex 0" ++ nl ++ "end_header")%string.

(** A file whose terminator ends at byte 100, with a newline and a body
    after it. *)
Definition hundred_byte_header_file : list byte :=
  list_byte_of_string
    (unlines ["ply"; "format binary_little_endian 1.0";
              "comment padding to one hundred bytes ....";
              "element v 1"; "end_header"]) ++ [x01; x02; x03].

Definition ascii_file : list byte :=
  list_byte_of_string
    (unlines ["ply"; "format ascii 1.0"; "element vertex 0"; "end_header"]).

Definition two_comments_header : string :=
  unlines ["ply"; "comment first"; "format binary_little_endian 1.0";
           "comment the second one"; "element vertex 0"; "end_header"].

(** The target of [vertex_target] with its fields in another order. *)
Definition vertex_target_reordered (x y r extra : Z) : target :=
  PtrStruct [mkField "R" "red" (mkValue Tuint8 r);
             mkField "Extra" "" (mkValue Tint extra);
             mkField "X" "x" (mkValue Tfloat64 x);
             mkField "Y" "y" (mkValue Tint16 y)].

(** What ReadPly makes of [two_element_file]: it lays the four
    properties of both elements out as one record of 15 bytes and cuts
    the 34 bytes of body into two such records and a rest. *)
Definition two_element_points : list plyreader.PlyPoint :=
  [plyreader.mkPlyPoint 1 65535 0 7 0 0;
   plyreader.mkPlyPoint 723109206579740672 0 0 0 0 0;
   plyreader.mkPlyPoint 723109206579740684 0 0 0 0 0].

(** A header that declares green as a double. *)
Definition wide_green_file : list byte :=
  list_byte_of_string
    (unlines ["ply"; "format binary_little_endian 1.0"; "element vertex 1";
              "property double green"; "end_header"]) ++
  [x01; x02; x03; x04; x05; x06; x07; x08].

(** [short_body_file] with the line ends of Windows: carriage return and
    newline. *)
Definition crlf_file : list byte :=
  [x70; x6c; x79; x0d; x0a] ++
  list_byte_of_string "format binary_little_endian 1.0" ++ [x0d; x0a] ++
  list_byte_of_string "element vertex 1" ++ [x0d; x0a] ++
  list_byte_of_string "property double x" ++ [x0d; x0a] ++
  list_byte_of_string "end_header" ++ [x0d; x0a] ++
  [x01; x00; x00; x00; x00; x00; x00; x00].

(** A target for the records of [face_element]. *)
Definition face_target (a : Z) : target :=
  PtrStruct [mkField "A" "a" (mkValue Tint32 a)].

(** * Properties *)

(** ** Machine arithmetic *)

Lemma wrap64_range z : in_int64 (wrap64 z).
Proof.
  unfold in_int64, wrap64.
  pose proof (Z.mod_pos_bound (z + 2 ^ 63) (2 ^ 64) ltac:(lia)). lia.
Qed.

Lemma wrap64_id z : in_int64 z -> wrap64 z = z.
Proof.
  unfold in_int64, wrap64. intros H.
  rewrite Z.mod_small by lia. lia.
Qed.

Lemma wrap64_add_l a b : wrap64 (wrap64 a + b) = wrap64 (a + b).
Proof.
  unfold wrap64.
  replace ((a + 2 ^ 63) mod 2 ^ 64 - 2 ^ 63 + b + 2 ^ 63)
    with ((a + 2 ^ 63) mod 2 ^ 64 + b) by lia.
  rewrite Zplus_mod_idemp_l. f_equal. f_equal. lia.
Qed.

Lemma wrap64_add_r a b : wrap64 (a + wrap64 b) = wrap64 (a + b).
Proof. rewrite Z.add_comm, wrap64_add_l. f_equal. lia. Qed.

(** ** Strings *)

Lemma strip_prefix_length p s r :
  strip_prefix p s = Some r ->
  String.length s = (String.length p + String.length r)%nat.
Proof.
  revert s. induction p as [|a p IH]; intros s; simpl; intros H.
  - injection H as <-. reflexivity.
  - destruct s as [|b s]; [discriminate|].
    destruct (Ascii.eqb a b); [|discriminate].
    simpl. rewrite (IH _ H). reflexivity.
Qed.

Lemma strip_prefix_take p s r n :
  strip_prefix p s = Some r -> (String.length p <= n)%nat ->
  strip_prefix p (str_take n s) = Some (str_take (n - String.length p) r).
Proof.
  revert s n. induction p as [|a p IH]; intros s n H Hn; simpl in *.
  - injection H as <-. now rewrite Nat.sub_0_r.
  - destruct s as [|b s]; [discriminate|].
    destruct n as [|n]; [lia|]. simpl.
    destruct (Ascii.eqb a b); [|discriminate].
    apply IH; [assumption|lia].
Qed.

Lemma strip_prefix_take_None p s n :
  strip_prefix p s = None -> strip_prefix p (str_take n s) = None.
Proof.
  revert s n. induction p as [|a p IH]; intros s n H; simpl in *.
  - discriminate.
  - destruct s as [|b s]; destruct n as [|n]; simpl; try reflexivity.
    destruct (Ascii.eqb a b); [now apply IH | reflexivity].
Qed.

Lemma str_take_length n s :
  (n <= String.length s)%nat -> String.length (str_take n s) = n.
Proof.
  revert s. induction n as [|n IH]; intros [|c s]; simpl; intros H;
    try reflexivity; try lia.
  rewrite IH by lia. reflexivity.
Qed.

Lemma strings_Index_range s substr :
  strings_Index s substr <> -1 ->
  0 <= strings_Index s substr /\
  strings_Index s substr + lenZ substr <= lenZ s.
Proof.
  unfold lenZ. induction s as [|c s IH]; simpl.
  - destruct (strip_prefix substr "") eqn:E; [|congruence].
    intros _. apply strip_prefix_length in E. simpl in E. lia.
  - destruct (strip_prefix substr (String c s)) eqn:E.
    + intros _. apply strip_prefix_length in E. simpl in E. lia.
    + destruct (Z.eqb_spec (strings_Index s substr) (-1)); [congruence|].
      intros _. specialize (IH n). lia.
Qed.

Lemma strings_Index_take s substr n :
  strings_Index s substr <> -1 ->
  strings_Index s substr + lenZ substr <= Z.of_nat n ->
  strings_Index (str_take n s) substr = strings_Index s substr.
Proof.
  unfold lenZ. revert n. induction s as [|c s IH]; intros n.
  - destruct n; simpl; auto.
  - cbn [strings_Index].
    destruct (strip_prefix substr (String c s)) eqn:E.
    + intros _ Hn.
      assert (Hs : strings_Index (str_take n (String c s)) substr = 0).
      { destruct (str_take n (String c s)) eqn:Et; simpl;
          rewrite <- Et, (strip_prefix_take _ _ _ n E) by lia; reflexivity. }
      exact Hs.
    + destruct (Z.eqb_spec (strings_Index s substr) (-1)) as [|Hne];
        [congruence|].
      intros _ Hn. pose proof (strings_Index_range s substr Hne) as [H0 _].
      destruct n as [|n]; [lia|].
      cbn [str_take strings_Index].
      change (String c (str_take n s)) with (str_take (S n) (String c s)).
      rewrite (strip_prefix_take_None _ _ (S n) E).
      rewrite IH by (assumption || lia).
      destruct (Z.eqb_spec (strings_Index s substr) (-1)); [congruence|].
      reflexivity.
Qed.

(** ** readHeader *)

Lemma file_Read_progress f buf n buf1 f1 :
  file_Read f buf = (n, None, buf1, f1) -> lenB buf <> 0 -> 0 <= fpos f ->
  content f1 = content f /\ closed f1 = closed f /\
  fpos f < fpos f1 /\ fpos f < lenB (content f).
Proof.
  unfold file_Read, lenB. intros H Hb Hp.
  destruct (closed f) eqn:Ec; [discriminate|].
  destruct (Z.eqb_spec (Z.of_nat (length buf)) 0); [contradiction|].
  destruct (Z.leb_spec (Z.of_nat (length (content f))) (fpos f));
    [discriminate|].
  injection H as <- _ <-. simpl. repeat split; try assumption.
  rewrite length_take, length_drop.
  assert (0 < length buf `min` (length (content f) - Z.to_nat (fpos f)))%nat
    by (apply Nat.min_glb_lt; lia).
  lia.
Qed.

(** The loop never runs out of rounds. *)
Lemma readHeader_loop_fuel fuel f hs :
  0 <= fpos f ->
  (Z.to_nat (lenB (content f) - fpos f) < fuel)%nat ->
  readHeader_loop fuel f hs <> None.
Proof.
  revert f hs. induction fuel as [|fuel IH]; intros f hs Hp Hf; [lia|].
  cbn [readHeader_loop].
  destruct (file_Read f (repeat x00 100)) as [[[n err] buf] f1] eqn:ER.
  destruct err; [discriminate|].
  destruct (negb _); [destruct (_ || _); discriminate|].
  apply file_Read_progress in ER as (Hc & _ & Hlt & Hin);
    [|unfold lenB; rewrite repeat_length; lia|assumption].
  apply IH; [lia|]. rewrite Hc. lia.
Qed.

Lemma readHeader_loop_Ok fuel f hs0 hs offset f1 :
  readHeader_loop fuel f hs0 = Some (Ok (hs, offset), f1) ->
  strings_Index hs "end_header" <> -1 /\
  offset = lenZ hs /\ lenZ "end_header" < offset /\
  strings_Index hs "end_header" + lenZ "end_header" + 1 = offset.
Proof.
  revert f hs0. induction fuel as [|fuel IH]; intros f hs0; [discriminate|].
  cbn [readHeader_loop].
  destruct (file_Read f (repeat x00 100)) as [[[n err] buf] f2].
  destruct err; [discriminate|].
  set (hs1 := (hs0 ++ _)%string).
  destruct (Z.eqb_spec (strings_Index hs1 "end_header") (-1)) as [|Hfound];
    cbn [negb]; [apply IH|].
  destruct (_ || _) eqn:Eb; [discriminate|].
  apply orb_false_iff in Eb as [_ Hlen%Z.ltb_ge].
  intros [= <- <- <-].
  pose proof (strings_Index_range _ _ Hfound) as [Hpos Hend].
  set (pos := strings_Index hs1 "end_header") in *.
  assert (Hn : (Z.to_nat (pos + lenZ "end_header" + 1) <= String.length hs1)%nat)
    by (unfold lenZ in *; lia).
  split; [|split; [|split]].
  - rewrite strings_Index_take; [assumption|assumption|lia].
  - unfold lenZ at 2. rewrite (str_take_length _ _ Hn). unfold lenZ. lia.
  - lia.
  - rewrite strings_Index_take; [reflexivity|assumption|lia].
Qed.

Lemma readHeader_fuel_not_invalid fuel f f1 :
  readHeader_fuel fuel f <> Some (Err (ErrNew "invalid ply file"), f1).
Proof.
  unfold readHeader_fuel.
  destruct (readHeader_loop fuel f "") as [[[[hs offset]|e|msg] f2]|] eqn:E;
    try discriminate.
  - apply readHeader_loop_Ok in E as (_ & Hoff & Hlen & _).
    destruct hs as [|c hs]; [|simpl; discriminate].
    subst offset. unfold lenZ in Hlen. simpl in Hlen. lia.
  - intros [= -> _]. revert E. generalize "" at 1. revert f.
    induction fuel as [|fuel IH]; intros f hs0; [discriminate|].
    cbn [readHeader_loop].
    destruct (file_Read f (repeat x00 100)) as [[[n err] buf] f3].
    destruct err; [discriminate|].
    destruct (negb _); [destruct (_ || _); discriminate | apply IH].
Qed.

Lemma parse_line_not_Err line st e : parse_line line st <> Err e.
Proof.
  unfold parse_line, parse_property_and_end.
  repeat (destruct (FindAllStringSubmatch _ line); try discriminate);
    destruct (ps_curr st); try discriminate;
    try (destruct (ps_store st !! _)); try discriminate;
    simpl; destruct (String.eqb line headerEnd); discriminate.
Qed.

Lemma parse_lines_not_Err lines st e : parse_lines lines st <> Err e.
Proof.
  revert st. induction lines as [|line lines IH]; intros st; simpl;
    [discriminate|].
  destruct (parse_line line st) eqn:E; simpl; [apply IH| |discriminate].
  now apply parse_line_not_Err in E.
Qed.

(** C10: when the header loop ends without a read error the header text
    holds the terminator and is not empty, so the test for an empty
    header never fires: neither readHeader nor Open ever returns the
    "invalid ply file" error, and on an opened file readHeader always
    returns. *)
Theorem readHeader_never_invalid :
  (forall fuel f hs0 hs offset f1,
      readHeader_loop fuel f hs0 = Some (Ok (hs, offset), f1) ->
      strings_Index hs "end_header" <> -1 /\ hs <> "") /\
  (forall bytes, readHeader_fuel (S (length bytes)) (os_Open bytes) <> None) /\
  (forall bytes, fst (readHeader (os_Open bytes)) <> Err (ErrNew "invalid ply file")) /\
  (forall bytes, fst (Open bytes) <> Err (ErrNew "invalid ply file")).
Proof.
  assert (Hrh : forall bytes,
             fst (readHeader (os_Open bytes)) <> Err (ErrNew "invalid ply file")).
  { intros bytes. unfold readHeader.
    destruct (readHeader_fuel _ _) as [[r f1]|] eqn:E; simpl; [|discriminate].
    intros ->. now apply readHeader_fuel_not_invalid in E. }
  repeat split.
  - now apply readHeader_loop_Ok in H.
  - apply readHeader_loop_Ok in H as (_ & -> & Hlen & _).
    intros ->. unfold lenZ in Hlen. simpl in Hlen. lia.
  - intros bytes. unfold readHeader_fuel.
    pose proof (readHeader_loop_fuel (S (length bytes)) (os_Open bytes) "") as Hf.
    destruct (readHeader_loop _ _ _) as [[[[hs offset]|e|msg] f2]|];
      [destruct (String.eqb hs ""); discriminate|discriminate|discriminate|].
    exfalso. apply Hf; [simpl; lia| simpl; unfold lenB; lia | reflexivity].
  - exact Hrh.
  - intros bytes. unfold Open. specialize (Hrh bytes).
    destruct (readHeader (os_Open bytes)) as [[[hs offset]|e|msg] f1];
      cbn [fst] in *; [|intros [= ->]; now apply Hrh|discriminate].
    unfold parseHeader.
    destruct (parse_lines _ _) eqn:E; simpl; [|now apply parse_lines_not_Err in E|discriminate].
    destruct (negb _); simpl; discriminate.
Qed.

Lemma readHeader_never_invalid_witness :
  strings_Index sample_header "end_header" <> -1 /\ sample_header <> "".
Proof.
  eapply (proj1 readHeader_never_invalid 3%nat
            (os_Open (list_byte_of_string sample_header)) "").
  vm_compute. reflexivity.
Defined.

(** ** parseHeader *)

Lemma parse_lines_app l1 l2 st :
  parse_lines (l1 ++ l2) st = (do st1 <- parse_lines l1 st; parse_lines l2 st1).
Proof.
  revert st. induction l1 as [|l l1 IH]; intros st; simpl; [reflexivity|].
  destruct (parse_line l st); simpl; auto.
Qed.

Lemma parse_line_format line st :
  FindAllStringSubmatch rFormat line <> [] ->
  parse_line line st =
  Ok (mkParse (sub (FindAllStringSubmatch rFormat line) 0 1) (ps_Comment st)
              (ps_Elements st) (ps_store st) (ps_curr st)).
Proof.
  unfold parse_line. destruct (FindAllStringSubmatch rFormat line);
    [congruence | reflexivity].
Qed.

Lemma parse_line_keeps_format line st st1 :
  FindAllStringSubmatch rFormat line = [] ->
  parse_line line st = Ok st1 -> ps_Format st1 = ps_Format st.
Proof.
  unfold parse_line, parse_property_and_end. intros ->.
  repeat (destruct (FindAllStringSubmatch _ line); try (intros [= <-]; reflexivity));
    destruct (ps_curr st); try discriminate;
    try (destruct (ps_store st !! _)); try discriminate;
    simpl; destruct (String.eqb line headerEnd); intros [= <-]; reflexivity.
Qed.

Lemma parse_lines_keep_format lines st st1 :
  Forall (fun l => FindAllStringSubmatch rFormat l = []) lines ->
  parse_lines lines st = Ok st1 -> ps_Format st1 = ps_Format st.
Proof.
  intros HF. revert st. induction HF as [|l lines Hl _ IH]; intros st; simpl.
  - now intros [= <-].
  - destruct (parse_line l st) as [st2| |] eqn:E; simpl; try discriminate.
    intros H. rewrite (IH _ H). eapply parse_line_keeps_format; eassumption.
Qed.

(** C1 (as the code has it): the format of the parsed header is the token
    of the last line that matches the format pattern; every later
    matching line overwrites the format a former one has set. *)
Theorem last_format_line_wins hs offset ply pre line post :
  parseHeader hs offset = Ok ply ->
  split_lines hs = pre ++ line :: post ->
  FindAllStringSubmatch rFormat line <> [] ->
  Forall (fun l => FindAllStringSubmatch rFormat l = []) post ->
  hdr_Format (ply_header ply) = sub (FindAllStringSubmatch rFormat line) 0 1.
Proof.
  unfold parseHeader. intros Hp Hs Hm Hpost.
  rewrite Hs, parse_lines_app in Hp.
  destruct (parse_lines pre _) as [st1| |]; simpl in Hp; try discriminate.
  rewrite (parse_line_format _ _ Hm) in Hp. simpl in Hp.
  destruct (parse_lines post _) as [st2| |] eqn:E; simpl in Hp; try discriminate.
  injection Hp as <-. simpl.
  now rewrite (parse_lines_keep_format _ _ _ Hpost E).
Qed.

Lemma last_format_line_wins_witness :
  exists ply,
    parseHeader two_formats_header 0 = Ok ply /\
    hdr_Format (ply_header ply) = "binary_little_endian".
Proof.
  eexists. split; [vm_compute; reflexivity|].
  apply (last_format_line_wins two_formats_header 0 _
           ["ply"; "format ascii 1.0"] "format binary_little_endian 1.0"
           ["element vertex 0"; "end_header"; ""]).
  - vm_compute; reflexivity.
  - vm_compute; reflexivity.
  - vm_compute; discriminate.
  - repeat constructor.
Defined.

(** C1 as the specification words it fails: with two format lines the
    second one decides, and Open accepts a file whose first format line
    says ascii. *)
Lemma first_format_line_wins_counterexample :
  ~ first_format_line_wins two_formats_header.
Proof.
  intros H.
  specialize (H 0 _ ["ply"] "format ascii 1.0"
                ["format binary_little_endian 1.0"; "element vertex 0";
                 "end_header"; ""]
                ltac:(vm_compute; reflexivity) ltac:(vm_compute; reflexivity)).
  vm_compute in H.
  assert (E : "binary_little_endian" = "ascii") by (apply H; [repeat constructor | discriminate]).
  discriminate E.
Qed.

(** Once an element is open every line parses. *)
Lemma parse_line_valid line st :
  curr_valid st -> exists st1, parse_line line st = Ok st1 /\ curr_valid st1.
Proof.
  intros (p & Hp & Hlt). unfold parse_line, parse_property_and_end, curr_valid.
  destruct (FindAllStringSubmatch rFormat line);
    [|eexists; split; [reflexivity|simpl; eauto]].
  destruct (FindAllStringSubmatch rComment line);
    [|eexists; split; [reflexivity|simpl; eauto]].
  destruct (FindAllStringSubmatch rElement line).
  - rewrite Hp. destruct (lookup_lt_is_Some_2 _ _ Hlt) as [e He]. rewrite He.
    destruct (FindAllStringSubmatch rProperty line); simpl;
      destruct (String.eqb line headerEnd); eexists; (split; [reflexivity|]);
      simpl; try rewrite length_insert; eauto.
  - eexists. split; [reflexivity|]. simpl. eexists. split; [reflexivity|].
    rewrite length_app. simpl. lia.
Qed.

Lemma parse_lines_valid lines st :
  curr_valid st -> exists st1, parse_lines lines st = Ok st1.
Proof.
  revert st. induction lines as [|line lines IH]; intros st Hv; simpl;
    [eexists; reflexivity|].
  destruct (parse_line_valid line st Hv) as (st1 & -> & Hv1). simpl. auto.
Qed.

(** The parse completes when no property line comes before the first
    element line. *)
Lemma parse_lines_total pre rest st :
  ps_curr st = None ->
  Forall (fun l => ~ bare_property l) pre ->
  (rest = [] \/
   exists l rest1, rest = l :: rest1 /\
                   FindAllStringSubmatch rFormat l = [] /\
                   FindAllStringSubmatch rComment l = [] /\
                   FindAllStringSubmatch rElement l <> []) ->
  exists st1, parse_lines (pre ++ rest) st = Ok st1.
Proof.
  intros Hnil Hpre Hrest. revert st Hnil.
  induction Hpre as [|line pre Hl _ IH]; intros st Hnil; simpl.
  - destruct Hrest as [->|(l & rest1 & -> & Hf & Hc & He)];
      [eexists; reflexivity|].
    simpl. unfold parse_line. rewrite Hf, Hc.
    destruct (FindAllStringSubmatch rElement l); [congruence|].
    simpl. apply parse_lines_valid. eexists. split; [reflexivity|].
    simpl. rewrite length_app. simpl. lia.
  - unfold parse_line at 1, parse_property_and_end.
    destruct (FindAllStringSubmatch rFormat line) eqn:Ef; [|simpl; now apply IH].
    destruct (FindAllStringSubmatch rComment line) eqn:Ec; [|simpl; now apply IH].
    destruct (FindAllStringSubmatch rElement line) eqn:Ee.
    + destruct (FindAllStringSubmatch rProperty line) eqn:Ep.
      * simpl. destruct (String.eqb line headerEnd); simpl; now apply IH.
      * exfalso. apply Hl. unfold bare_property. rewrite Ep. auto.
    + simpl. apply parse_lines_valid.
      eexists. split; [reflexivity|]. simpl. rewrite length_app. simpl. lia.
Qed.

(** C4: a property line met while no element is open stops the parse with
    a nil dereference, whatever came before; nothing is ignored. *)
Theorem property_before_element_panics line st :
  ps_curr st = None ->
  FindAllStringSubmatch rFormat line = [] ->
  FindAllStringSubmatch rComment line = [] ->
  FindAllStringSubmatch rElement line = [] ->
  FindAllStringSubmatch rProperty line <> [] ->
  parse_line line st = Panic nil_deref.
Proof.
  unfold parse_line, parse_property_and_end. intros -> -> -> -> H.
  destruct (FindAllStringSubmatch rProperty line); [congruence | reflexivity].
Qed.

Lemma property_before_element_panics_witness :
  parse_line "property float x" (mkParse "binary_little_endian" "" [] [] None)
  = Panic nil_deref /\
  fst (Open (list_byte_of_string early_property_header)) = Panic nil_deref.
Proof.
  split.
  - apply property_before_element_panics; vm_compute; congruence.
  - vm_compute; reflexivity.
Defined.

(** C9: a header without any element line is accepted by Open and leaves
    one nil entry in the element list; Has and GetElementReader then stop
    with a nil dereference for every name. *)
Theorem no_element_header_nil_entry :
  exists ply f,
    Open (list_byte_of_string no_element_header) = (Ok ply, f) /\
    hdr_Elements (ply_header ply) = [None] /\
    forall name,
      Has ply name = Panic nil_deref /\
      GetElementReader ply name = Panic nil_deref.
Proof.
  eexists _, _. split; [vm_compute; reflexivity|].
  split; [reflexivity|]. intros name. split; reflexivity.
Qed.

(** ** Offsets of the elements *)

Section Lookup.
Variables (name : string) (e : element) (post : list (option element)).
Hypothesis e_named : elem_Name e = name.

Lemma Has_loop_found pre :
  Forall (fun p => elem_Name p <> name) pre ->
  Has_loop (map Some pre ++ Some e :: post) name = Ok true.
Proof using e_named.
  induction 1 as [|p ps Hp _ IH]; simpl.
  - now rewrite (proj2 (String.eqb_eq _ _) e_named).
  - now rewrite (proj2 (String.eqb_neq _ _) Hp).
Qed.

Lemma getElement_loop_found pre :
  Forall (fun p => elem_Name p <> name) pre ->
  getElement_loop (map Some pre ++ Some e :: post) name = Ok (Some e).
Proof using e_named.
  induction 1 as [|p ps Hp _ IH]; simpl.
  - now rewrite (proj2 (String.eqb_eq _ _) e_named).
  - now rewrite (proj2 (String.eqb_neq _ _) Hp).
Qed.

Lemma getElementOffset_loop_found pre offset :
  Forall (fun p => elem_Name p <> name) pre ->
  in_int64 offset ->
  getElementOffset_loop (map Some pre ++ Some e :: post) name offset
  = Ok (wrap64 (offset + bytes_before pre)).
Proof using e_named.
  intros Hpre. revert offset.
  induction Hpre as [|p ps Hp _ IH]; intros offset Hr; simpl.
  - rewrite (proj2 (String.eqb_eq _ _) e_named). simpl.
    now rewrite Z.add_0_r, wrap64_id.
  - rewrite (proj2 (String.eqb_neq _ _) Hp). simpl.
    rewrite IH by apply wrap64_range.
    rewrite wrap64_add_l, <- Z.add_assoc, (Z.add_comm (wrap64 _)),
      Z.add_assoc, wrap64_add_r.
    f_equal. f_equal. unfold bytes_before. simpl. lia.
Qed.
End Lookup.

Lemma getElement_after_Has f name :
  Has f name = Ok true -> exists e, getElement f name = Ok (Some e).
Proof.
  unfold Has, getElement.
  induction (hdr_Elements (ply_header f)) as [|[e|] es IH]; simpl;
    try discriminate.
  destruct (String.eqb (elem_Name e) name); [eauto | exact IH].
Qed.

(** C5 (as the code has it): the reader made for a declared element
    starts at the header offset plus the bytes of all elements declared
    before it, count times record size each, computed in int64, which
    wraps around; when that number fits int64 it is the offset itself,
    and the reader of the first element starts at the header offset. *)
Theorem element_reader_offset ply name pre e post :
  hdr_Elements (ply_header ply) = map Some pre ++ Some e :: post ->
  Forall (fun p => elem_Name p <> name) pre ->
  elem_Name e = name ->
  in_int64 (hdr_offset (ply_header ply)) ->
  exists r,
    GetElementReader ply name = Ok r /\
    rd_element r = e /\ rd_pos r = 0 /\
    rd_offset r = wrap64 (hdr_offset (ply_header ply) + bytes_before pre) /\
    (in_int64 (hdr_offset (ply_header ply) + bytes_before pre) ->
     rd_offset r = hdr_offset (ply_header ply) + bytes_before pre) /\
    (pre = [] -> rd_offset r = hdr_offset (ply_header ply)).
Proof.
  intros HE Hpre He Hoff.
  unfold GetElementReader, getElementOffset, getElement, Has.
  rewrite HE, (Has_loop_found name e post He pre Hpre). simpl.
  rewrite (getElementOffset_loop_found name e post He pre 0 Hpre)
    by (unfold in_int64; lia).
  rewrite (getElement_loop_found name e post He pre Hpre). simpl.
  eexists. split; [reflexivity|]. simpl.
  rewrite wrap64_add_r.
  repeat split; try reflexivity.
  - intros Hfit. now apply wrap64_id.
  - intros ->. simpl. rewrite Z.add_0_r. now apply wrap64_id.
Qed.

Lemma Open_two_element :
  fst (Open (list_byte_of_string two_element_header)) = Ok two_element_ply.
Proof. vm_compute. reflexivity. Qed.

Lemma element_reader_offset_witness :
  exists r,
    GetElementReader two_element_ply "face" = Ok r /\
    rd_offset r = 169 + 2 * 11.
Proof.
  destruct (element_reader_offset two_element_ply "face"
              [vertex_element] face_element [])
    as (r & Hr & _ & _ & _ & Hfit & _).
  - reflexivity.
  - constructor; [vm_compute; intros [=] | constructor].
  - reflexivity.
  - unfold in_int64; simpl; lia.
  - exists r. split; [exact Hr|].
    apply Hfit. vm_compute. split; [discriminate | reflexivity].
Defined.

(** C5 as the specification words it fails: Open accepts a header whose
    first element has the count MaxInt64, and the reader of the second
    element does not start at the header offset plus the bytes of the
    first, a number past the int64 range, but at that number wrapped
    around, which is negative. *)
Lemma offset_is_the_sum_counterexample :
  fst (Open (list_byte_of_string huge_count_header)) = Ok huge_count_ply /\
  (exists r,
      GetElementReader huge_count_ply "b" = Ok r /\
      rd_offset r = -9223372036854775703 /\
      hdr_offset (ply_header huge_count_ply)
      + bytes_before [mkElement "a" 9223372036854775807
                        [mkProperty "uchar" "r" 1]]
      = 9223372036854775913) /\
  ~ offset_is_the_sum huge_count_ply.
Proof.
  split; [vm_compute; reflexivity|]. split.
  - eexists. split; [vm_compute; reflexivity|].
    split; vm_compute; reflexivity.
  - intros H.
    specialize (H "b"%string
                  [mkElement "a" 9223372036854775807 [mkProperty "uchar" "r" 1]]
                  (mkElement "b" 0 []) [] _ eq_refl
                  ltac:(repeat constructor; discriminate) eq_refl
                  ltac:(vm_compute; reflexivity)).
    vm_compute in H. discriminate H.
Qed.

(** The header offset Open stores is the length of the header text it
    keeps: the position right after the terminator and the byte that
    follows it. *)
Lemma Open_offset bytes ply f :
  Open bytes = (Ok ply, f) ->
  hdr_offset (ply_header ply) = lenZ (headerStr ply) /\
  strings_Index (headerStr ply) "end_header" + lenZ "end_header" + 1
  = hdr_offset (ply_header ply).
Proof.
  unfold Open, readHeader, readHeader_fuel.
  destruct (readHeader_loop _ _ _) as [[[[hs offset]|e|msg] f2]|] eqn:E;
    try discriminate.
  destruct (String.eqb hs ""); [intros [=]|].
  unfold parseHeader.
  destruct (parse_lines _ _) as [st| |]; [|intros [=]..].
  cbn [rbind]. cbv beta iota.
  destruct (negb _); intros [= <- _]. cbn [ply_header hdr_offset headerStr].
  apply readHeader_loop_Ok in E as (_ & Hlen & _ & Hidx). now split.
Qed.

(** ** ReadNext at the end of the element and at the end of the file *)

(** C8 (as the code has it): with the cursor at count ReadNext first
    seeks the file to the record position and only then tests the
    cursor.  On an open file, with a position and a record size that are
    not negative, the call fails with io.EOF, the cursor and the target
    are as before and the file has seen that one seek and no read.  When
    the seek fails (the position is negative, or the file was closed) the
    call returns the seek's error instead, again with cursor and target
    unchanged and nothing read. *)
Theorem ReadNext_at_end w :
  rd_pos (w_reader w) = elem_Count (rd_element (w_reader w)) ->
  (closed (w_file w) = false ->
   0 <= PointByteSize (rd_element (w_reader w)) ->
   0 <= record_position (w_reader w) ->
   ReadNext w =
   (Err EOF,
    mkWorld (mkFile (content (w_file w)) (record_position (w_reader w)) false
               (trace (w_file w) ++ [EvSeek (record_position (w_reader w))]))
            (w_reader w) (w_target w))) /\
  (closed (w_file w) = false ->
   record_position (w_reader w) < 0 ->
   ReadNext w =
   (Err EINVAL,
    mkWorld (log (EvSeek (record_position (w_reader w))) (w_file w))
            (w_reader w) (w_target w))) /\
  (closed (w_file w) = true ->
   ReadNext w = (Err ErrClosed, w)).
Proof.
  intros Hpos. unfold ReadNext, file_Seek.
  fold (record_position (w_reader w)).
  split; [|split]; intros Hopen; rewrite Hopen.
  - intros Hsize Hrp.
    destruct (Z.ltb_spec (record_position (w_reader w)) 0); [lia|].
    destruct (Z.ltb_spec (PointByteSize (rd_element (w_reader w))) 0); [lia|].
    rewrite Hpos, Z.leb_refl. reflexivity.
  - intros Hrp.
    destruct (Z.ltb_spec (record_position (w_reader w)) 0); [|lia].
    reflexivity.
  - destruct w; reflexivity.
Qed.

Lemma ReadNext_at_end_witness :
  ReadNext (mkWorld (os_Open []) (mkReader 3 191 face_element) (only_X 5))
  = (Err EOF,
     mkWorld (mkFile [] 203 false [EvSeek 203])
             (mkReader 3 191 face_element) (only_X 5)).
Proof.
  exact (proj1 (ReadNext_at_end
                  (mkWorld (os_Open []) (mkReader 3 191 face_element) (only_X 5))
                  eq_refl)
               eq_refl ltac:(vm_compute; discriminate)
               ltac:(vm_compute; discriminate)).
Defined.

Lemma Open_huge_count :
  fst (Open (list_byte_of_string huge_count_header)) = Ok huge_count_ply.
Proof. vm_compute. reflexivity. Qed.

(** C8 as the specification words it fails.  A reader of [face] is moved
    to its count and the file is closed: ReadNext reports the closed file,
    not the end of the element.  And the reader of [b] in a header with a
    huge count stands at its count (zero) on the open file, yet ReadNext
    reports the error of the seek to a negative position. *)
Lemma ReadNext_at_end_counterexample :
  (exists f r r3 fc,
      Open two_element_file = (Ok two_element_ply, f) /\
      GetElementReader two_element_ply "face" = Ok r /\
      Seek r 3 = (Ok tt, r3) /\
      rd_pos r3 = elem_Count (rd_element r3) /\
      snd (snd (Close two_element_ply f)) = fc /\
      fst (ReadNext (mkWorld fc r3 (only_X 0))) = Err ErrClosed /\
      fst (ReadNext (mkWorld fc r3 (only_X 0))) <> Err EOF) /\
  (exists r f,
      Open (list_byte_of_string huge_count_header) = (Ok huge_count_ply, f) /\
      closed f = false /\
      GetElementReader huge_count_ply "b" = Ok r /\
      rd_pos r = elem_Count (rd_element r) /\
      fst (ReadNext (mkWorld f r (only_X 0))) = Err EINVAL /\
      fst (ReadNext (mkWorld f r (only_X 0))) <> Err EOF).
Proof.
  split.
  - eexists _, _, _, _. split; [vm_compute; reflexivity|].
    split; [vm_compute; reflexivity|]. split; [vm_compute; reflexivity|].
    split; [reflexivity|]. split; [vm_compute; reflexivity|].
    split; [vm_compute; reflexivity|]. vm_compute. discriminate.
  - eexists _, _. split; [vm_compute; reflexivity|].
    split; [reflexivity|]. split; [vm_compute; reflexivity|].
    split; [reflexivity|]. split; [vm_compute; reflexivity|].
    vm_compute. discriminate.
Qed.

(** C3: one record of eight bytes is declared and three bytes are left in
    the file.  Read delivers the three, ReadNext does not look at the
    count, decodes the buffer (three bytes and five zeros) and reports
    success. *)
Theorem ReadNext_short_read :
  exists r f w1,
    Open short_body_file = (Ok short_body_ply, f) /\
    GetElementReader short_body_ply "vertex" = Ok r /\
    rd_pos r < elem_Count (rd_element r) /\
    PointByteSize (rd_element r) = 8 /\
    ReadNext (mkWorld f r (only_X 0)) = (Ok 1, w1) /\
    last (trace (w_file w1)) = Some (EvRead 8 3) /\
    w_target w1 = only_X (1 + 2 * 256 + 3 * 65536).
Proof.
  eexists _, _, _. split; [vm_compute; reflexivity|].
  split; [vm_compute; reflexivity|].
  split; [reflexivity|]. split; [reflexivity|].
  split; [vm_compute; reflexivity|].
  split; reflexivity.
Qed.

(** ** The record decoder *)

Lemma decode_props_struct props offset buf fs :
  decode_props props offset buf (PtrStruct fs)
  = (do fs1 <- decode_fields props offset buf fs; Ok (PtrStruct fs1)).
Proof.
  revert offset fs. induction props as [|p props IH]; intros offset fs;
    simpl; [reflexivity|].
  destruct (set_fields p offset buf fs); simpl; auto.
Qed.

Lemma reflect_Set_Ok f v f1 :
  reflect_Set f v = Ok f1 ->
  exported f = true /\ vtype v = vtype (fval f) /\
  f1 = mkField (fname f) (ftag f) v.
Proof.
  unfold reflect_Set. destruct (exported f); simpl; [|discriminate].
  case_bool_decide; [|discriminate]. intros [= <-]. auto.
Qed.

Lemma memcpy_Ok bits t v :
  memcpy bits t = Ok v ->
  lenB bits <= sizeof t /\ v = mkValue t (of_bits t (le_value bits)).
Proof.
  unfold memcpy. destruct (Z.ltb_spec (sizeof t) (lenB bits)); [discriminate|].
  intros [= <-]. auto.
Qed.

Lemma slice_Ok buf lo hi bits :
  slice buf lo hi = Ok bits ->
  0 <= lo <= hi /\ hi <= lenB buf /\ bits = bits_at buf lo hi.
Proof.
  unfold slice. destruct (_ || _) eqn:E; [discriminate|].
  apply orb_false_iff in E as [E H3%Z.ltb_ge].
  apply orb_false_iff in E as [H1%Z.ltb_ge H2%Z.ltb_ge].
  intros [= <-]. unfold bits_at. auto with lia.
Qed.

Lemma store_Ok prop offset buf f f1 t :
  store prop offset buf f = Ok f1 ->
  case_type (prop_Type prop) = Some t ->
  exported f = true /\ vtype (fval f) = t /\
  f1 = mkField (fname f) (ftag f) (scalar_at t buf offset (prop_Size prop)).
Proof.
  unfold store. intros H Hc. rewrite Hc in H.
  destruct (slice _ _ _) as [bits| |] eqn:Es; simpl in H; try discriminate.
  destruct (memcpy _ _) as [v| |] eqn:Em; simpl in H; try discriminate.
  apply slice_Ok in Es as (_ & _ & ->).
  apply memcpy_Ok in Em as (_ & ->).
  apply reflect_Set_Ok in H as (He & Ht & ->). simpl in Ht. auto.
Qed.

Lemma store_shape prop offset buf f f1 :
  store prop offset buf f = Ok f1 -> same_shape f f1.
Proof.
  destruct (case_type (prop_Type prop)) as [t|] eqn:Ec.
  - intros H. destruct (store_Ok _ _ _ _ _ _ H Ec) as (_ & Ht & ->).
    unfold same_shape. simpl. auto.
  - unfold store. rewrite Ec. intros [= <-]. unfold same_shape. auto.
Qed.

Lemma set_fields_lookup prop offset buf fs fs1 i f :
  set_fields prop offset buf fs = Ok fs1 ->
  fs !! i = Some f ->
  exists f1, fs1 !! i = Some f1 /\
             if String.eqb (ftag f) (prop_Name prop)
             then store prop offset buf f = Ok f1
             else f1 = f.
Proof.
  revert fs1 i. induction fs as [|g fs IH]; intros fs1 i; simpl; [discriminate|].
  destruct (if String.eqb (ftag g) (prop_Name prop) then _ else _)
    as [g1| |] eqn:Eg; simpl; try discriminate.
  destruct (set_fields prop offset buf fs) as [rest| |]; simpl; try discriminate.
  intros [= <-]. destruct i as [|i]; simpl.
  - intros [= ->]. exists g1. split; [reflexivity|].
    destruct (String.eqb (ftag f) (prop_Name prop)); congruence.
  - intros Hi. apply (IH rest i eq_refl Hi).
Qed.

Lemma set_fields_shape prop offset buf fs fs1 i f :
  set_fields prop offset buf fs = Ok fs1 ->
  fs !! i = Some f ->
  exists f1, fs1 !! i = Some f1 /\ same_shape f f1.
Proof.
  intros H Hi. destruct (set_fields_lookup _ _ _ _ _ _ _ H Hi) as (f1 & H1 & Hc).
  exists f1. split; [assumption|].
  destruct (String.eqb _ _); [eapply store_shape; eassumption|].
  subst. unfold same_shape. auto.
Qed.

Lemma decode_fields_app l1 l2 offset buf fs :
  decode_fields (l1 ++ l2) offset buf fs
  = (do fs1 <- decode_fields l1 offset buf fs;
     decode_fields l2 (running_offset l1 offset) buf fs1).
Proof.
  revert offset fs. induction l1 as [|p l1 IH]; intros offset fs; simpl;
    [reflexivity|].
  destruct (set_fields p offset buf fs); simpl; auto.
Qed.

Lemma decode_fields_shape props offset buf fs fs1 i f :
  decode_fields props offset buf fs = Ok fs1 ->
  fs !! i = Some f ->
  exists f1, fs1 !! i = Some f1 /\ same_shape f f1.
Proof.
  revert offset fs f. induction props as [|p props IH]; intros offset fs f; simpl.
  - intros [= <-] Hi. exists f. unfold same_shape. auto.
  - destruct (set_fields p offset buf fs) as [fs2| |] eqn:E; simpl;
      try discriminate.
    intros H Hi.
    destruct (set_fields_shape _ _ _ _ _ _ _ E Hi) as (f2 & H2 & S2).
    destruct (IH _ _ _ H H2) as (f1 & H1 & S1).
    exists f1. split; [assumption|].
    unfold same_shape in *. intuition congruence.
Qed.

(** A field whose tag is the name of no property keeps its value. *)
Lemma decode_fields_frame props offset buf fs fs1 i f :
  decode_fields props offset buf fs = Ok fs1 ->
  fs !! i = Some f ->
  Forall (fun p => prop_Name p <> ftag f) props ->
  fs1 !! i = Some f.
Proof.
  intros H Hi HF. revert offset fs H Hi.
  induction HF as [|p props Hp _ IH]; intros offset fs; simpl.
  - now intros [= <-].
  - destruct (set_fields p offset buf fs) as [fs2| |] eqn:E; simpl;
      try discriminate.
    intros H Hi.
    destruct (set_fields_lookup _ _ _ _ _ _ _ E Hi) as (f2 & H2 & Hc).
    destruct (String.eqb_spec (ftag f) (prop_Name p)); [congruence|].
    subst f2. eapply IH; eassumption.
Qed.

(** The last property bound to a field decides the field's value: the
    scalar at that property's running offset. *)
Lemma decode_fields_last_write pre p post offset buf fs fs1 i f t :
  decode_fields (pre ++ p :: post) offset buf fs = Ok fs1 ->
  fs !! i = Some f ->
  ftag f = prop_Name p ->
  case_type (prop_Type p) = Some t ->
  Forall (fun q => prop_Name q <> ftag f) post ->
  fs1 !! i =
  Some (mkField (fname f) (ftag f)
          (scalar_at t buf (running_offset pre offset) (prop_Size p))).
Proof.
  intros H Hi Htag Hc Hpost.
  rewrite decode_fields_app in H.
  destruct (decode_fields pre offset buf fs) as [fs2| |] eqn:E1; simpl in H;
    try discriminate.
  destruct (decode_fields_shape _ _ _ _ _ _ _ E1 Hi) as (f2 & H2 & S2 & T2 & _).
  destruct (set_fields p (running_offset pre offset) buf fs2) as [fs3| |] eqn:E2;
    simpl in H; try discriminate.
  destruct (set_fields_lookup _ _ _ _ _ _ _ E2 H2) as (f3 & H3 & Hst).
  rewrite T2, Htag, String.eqb_refl in Hst.
  destruct (store_Ok _ _ _ _ _ _ Hst Hc) as (_ & _ & ->).
  rewrite S2, T2 in H3.
  eapply decode_fields_frame; [exact H|exact H3|exact Hpost].
Qed.

Lemma set_fields_length p offset buf fs fs1 :
  set_fields p offset buf fs = Ok fs1 -> length fs1 = length fs.
Proof.
  revert fs1. induction fs as [|g fs IH]; intros fs1; simpl.
  - now intros [= <-].
  - destruct (if String.eqb (ftag g) (prop_Name p) then _ else _); simpl;
      try discriminate.
    destruct (set_fields p offset buf fs) as [r| |]; simpl; try discriminate.
    intros [= <-]. simpl. now rewrite (IH r).
Qed.


Lemma set_fields_unmatched prop offset buf fs :
  Forall (fun f => ftag f <> prop_Name prop) fs ->
  set_fields prop offset buf fs = Ok fs.
Proof.
  induction 1 as [|f fs Hf _ IH]; simpl; [reflexivity|].
  destruct (String.eqb_spec (ftag f) (prop_Name prop)); [contradiction|].
  simpl. now rewrite IH.
Qed.

(** ** Stores into the fields *)

Lemma propertySize_range ty : 0 <= propertySize ty <= 8.
Proof.
  unfold propertySize, propertySizes, map_get.
  repeat (destruct (String.eqb _ ty); [lia|]). lia.
Qed.

Lemma case_type_size ty t :
  case_type ty = Some t -> propertySize ty = sizeof t.
Proof.
  unfold case_type.
  destruct (String.eqb_spec ty "char") as [->|_]; [now intros [= <-]|].
  destruct (String.eqb_spec ty "uchar") as [->|_]; [now intros [= <-]|].
  destruct (String.eqb_spec ty "short") as [->|_]; [now intros [= <-]|].
  destruct (String.eqb_spec ty "ushort") as [->|_]; [now intros [= <-]|].
  destruct (String.eqb_spec ty "int") as [->|_]; [now intros [= <-]|].
  destruct (String.eqb_spec ty "uint") as [->|_]; [now intros [= <-]|].
  destruct (String.eqb_spec ty "float") as [->|_]; [now intros [= <-]|].
  destruct (String.eqb_spec ty "double") as [->|_]; [now intros [= <-]|].
  discriminate.
Qed.

Lemma sizeof_pos t : 1 <= sizeof t.
Proof. destruct t; simpl; lia. Qed.

Lemma store_total p offset buf f t :
  wf_property p ->
  case_type (prop_Type p) = Some t ->
  exported f = true -> vtype (fval f) = t ->
  0 <= offset -> offset + prop_Size p <= lenB buf -> in_int64 (lenB buf) ->
  store p offset buf f
  = Ok (mkField (fname f) (ftag f) (scalar_at t buf offset (prop_Size p))).
Proof.
  unfold wf_property, in_int64. intros Hwf Hc He Ht Ho Hfit Hbuf.
  pose proof (case_type_size _ _ Hc) as Hs. pose proof (sizeof_pos t).
  unfold store, scalar_at. rewrite Hc.
  assert (Hw : wrap64 (offset + prop_Size p) = offset + prop_Size p)
    by (apply wrap64_id; unfold in_int64; lia).
  rewrite Hw. unfold slice.
  destruct (Z.ltb_spec offset 0); [lia|].
  destruct (Z.ltb_spec (offset + prop_Size p) offset); [lia|].
  destruct (Z.ltb_spec (lenB buf) (offset + prop_Size p)); [lia|].
  simpl. fold (bits_at buf offset (offset + prop_Size p)).
  unfold memcpy.
  assert (Hlen : lenB (bits_at buf offset (offset + prop_Size p)) = prop_Size p).
  { unfold lenB, bits_at in *. rewrite length_take, length_drop. lia. }
  destruct (Z.ltb_spec (sizeof t) (lenB (bits_at buf offset (offset + prop_Size p))));
    [lia|].
  simpl. unfold reflect_Set. rewrite He. simpl.
  rewrite bool_decide_eq_true_2 by (simpl; congruence). reflexivity.
Qed.

Lemma set_fields_total p offset buf fs :
  wf_property p ->
  0 <= offset -> offset + prop_Size p <= lenB buf -> in_int64 (lenB buf) ->
  Forall (settable [p]) fs ->
  exists fs1, set_fields p offset buf fs = Ok fs1.
Proof.
  intros Hwf Ho Hfit Hbuf. induction 1 as [|f fs Hf _ [fs1 IH]]; simpl.
  - eexists; reflexivity.
  - rewrite IH.
    destruct (String.eqb_spec (ftag f) (prop_Name p)) as [Htag|];
      [|simpl; eexists; reflexivity].
    destruct (case_type (prop_Type p)) as [t|] eqn:Hc.
    + destruct (Hf p t (or_introl eq_refl) (eq_sym Htag) Hc) as [He Ht].
      rewrite (store_total p offset buf f t) by assumption.
      simpl. eexists; reflexivity.
    + unfold store. rewrite Hc. simpl. eexists; reflexivity.
Qed.

Lemma settable_shape props f f1 :
  same_shape f f1 -> settable props f -> settable props f1.
Proof.
  unfold same_shape, settable, exported. intros (Hn & Htag & Hty) H p t Hin Hp Hc.
  rewrite Hn, Hty. rewrite Htag in Hp. eauto.
Qed.

Lemma set_fields_settable props p offset buf fs fs1 :
  set_fields p offset buf fs = Ok fs1 ->
  Forall (settable props) fs -> Forall (settable props) fs1.
Proof.
  intros H HF. apply Forall_lookup_2. intros i f1 H1.
  destruct (fs !! i) as [f|] eqn:Hi.
  - destruct (set_fields_shape _ _ _ _ _ _ _ H Hi) as (f2 & H2 & Hsh).
    assert (f2 = f1) by congruence. subst f2.
    eapply settable_shape; [exact Hsh|]. exact (Forall_lookup_1 _ _ _ _ HF Hi).
  - apply lookup_ge_None in Hi. apply lookup_lt_Some in H1.
    rewrite (set_fields_length _ _ _ _ _ H) in H1. lia.
Qed.

Lemma sum_sizes_nonneg props :
  Forall wf_property props -> 0 <= sum_sizes props.
Proof.
  induction 1 as [|p props Hp _ IH]; simpl; [lia|].
  pose proof (propertySize_range (prop_Type p)). rewrite Hp. lia.
Qed.

(** While the sizes add up within int64 the running offset is their
    sum. *)
Lemma running_offset_sum props offset :
  Forall wf_property props ->
  0 <= offset -> in_int64 (offset + sum_sizes props) ->
  running_offset props offset = offset + sum_sizes props.
Proof.
  unfold running_offset, in_int64. intros HF. revert offset.
  induction HF as [|p props Hp HF IH]; intros offset Ho Hfit; simpl in *;
    [lia|].
  pose proof (propertySize_range (prop_Type p)). rewrite <- Hp in *.
  pose proof (sum_sizes_nonneg _ HF).
  rewrite wrap64_id by (unfold in_int64; lia).
  rewrite IH by lia. lia.
Qed.

Lemma decode_fields_total props offset buf fs :
  Forall wf_property props ->
  0 <= offset -> offset + sum_sizes props <= lenB buf -> in_int64 (lenB buf) ->
  Forall (settable props) fs ->
  exists fs1, decode_fields props offset buf fs = Ok fs1.
Proof.
  intros HF. revert offset fs.
  induction HF as [|p props Hp HF IH]; intros offset fs Ho Hfit Hbuf Hset;
    simpl in *; [eexists; reflexivity|].
  pose proof (propertySize_range (prop_Type p)) as Hr. rewrite <- Hp in Hr.
  pose proof (sum_sizes_nonneg _ HF).
  destruct (set_fields_total p offset buf fs) as [fs2 E]; try assumption;
    [lia| |].
  { eapply Forall_impl; [exact Hset|]. intros f Hf q t [<-|[]] Hq Hc.
    apply (Hf p t); auto. now left. }
  rewrite E. simpl.
  rewrite wrap64_id by (unfold in_int64 in *; lia).
  apply IH; try assumption; [lia|lia|].
  eapply set_fields_settable; [exact E|].
  eapply Forall_impl; [exact Hset|]. intros f Hf q t Hin.
  apply Hf. now right.
Qed.

Lemma store_not_Err p offset buf f e : store p offset buf f <> Err e.
Proof.
  unfold store, slice, memcpy, reflect_Set.
  destruct (case_type _); [|discriminate].
  destruct (_ || _); simpl; [discriminate|].
  destruct (_ <? _); simpl; [discriminate|].
  destruct (negb _); [discriminate|]. case_bool_decide; discriminate.
Qed.

Lemma set_fields_not_Err p offset buf fs e : set_fields p offset buf fs <> Err e.
Proof.
  induction fs as [|f fs IH]; simpl; [discriminate|].
  destruct (String.eqb _ _).
  - destruct (store p offset buf f) eqn:E; simpl;
      [|now apply store_not_Err in E|discriminate].
    destruct (set_fields p offset buf fs); simpl; congruence.
  - simpl. destruct (set_fields p offset buf fs); simpl; congruence.
Qed.

Lemma decode_fields_not_Err props offset buf fs e :
  decode_fields props offset buf fs <> Err e.
Proof.
  revert offset fs. induction props as [|p props IH]; intros offset fs; simpl;
    [discriminate|].
  destruct (set_fields p offset buf fs) eqn:E; simpl;
    [apply IH|now apply set_fields_not_Err in E|discriminate].
Qed.

(** A decode that completes has found every bound field exported and of
    the property's own type. *)
Lemma decode_fields_Ok_types props offset buf fs fs1 p f t :
  decode_fields props offset buf fs = Ok fs1 ->
  In p props -> In f fs -> prop_Name p = ftag f ->
  case_type (prop_Type p) = Some t ->
  exported f = true /\ vtype (fval f) = t.
Proof.
  intros H Hp Hf Htag Hc.
  apply in_split in Hp as (pre & post & ->).
  apply list_elem_of_In, list_elem_of_lookup in Hf as [i Hi].
  rewrite decode_fields_app in H.
  destruct (decode_fields pre offset buf fs) as [fs2| |] eqn:E1; simpl in H;
    try discriminate.
  destruct (decode_fields_shape _ _ _ _ _ _ _ E1 Hi) as (f2 & H2 & S2 & T2 & Ty2).
  destruct (set_fields p (running_offset pre offset) buf fs2) as [fs3| |] eqn:E2;
    simpl in H; try discriminate.
  destruct (set_fields_lookup _ _ _ _ _ _ _ E2 H2) as (f3 & H3 & Hst).
  rewrite T2, <- Htag, String.eqb_refl in Hst.
  destruct (store_Ok _ _ _ _ _ _ Hst Hc) as (He & Ht & _).
  unfold exported in *. rewrite <- S2, <- Ty2. auto.
Qed.

(** The package's Point on the record of the example. *)
Example decode_Point :
  decode_props rgb_props 0 rgb_buf (Point 0 0 0 0 0 0) = Ok (Point 1 2 3 7 8 9).
Proof. vm_compute. reflexivity. Qed.



(** ** ReadNext, once it gets to decode *)

Lemma record_buffer_length bytes pos size :
  length (record_buffer bytes pos size) = Z.to_nat size.
Proof.
  unfold record_buffer. rewrite length_app, length_drop, repeat_length, length_take.
  lia.
Qed.

Lemma PointByteSize_running e :
  PointByteSize e = running_offset (elem_Properties e) 0.
Proof. reflexivity. Qed.

(** On an open file, with a seek position that is not negative, a cursor
    before count and at least one byte left at the position (or records
    of size zero), ReadNext decodes [record_buffer] and its outcome is
    the decoder's. *)
Lemma ReadNext_decodes w :
  let r := w_reader w in
  let size := PointByteSize (rd_element r) in
  closed (w_file w) = false ->
  0 <= record_position r -> 0 <= size ->
  rd_pos r < elem_Count (rd_element r) ->
  size = 0 \/ record_position r < lenB (content (w_file w)) ->
  exists f2,
    content f2 = content (w_file w) /\ closed f2 = false /\
    ReadNext w =
    match decode_props (elem_Properties (rd_element r)) 0
            (record_buffer (content (w_file w)) (record_position r) size)
            (w_target w) with
    | Ok tgt1 =>
        (Ok (wrap64 (rd_pos r + 1)),
         mkWorld f2 (set_pos r (wrap64 (rd_pos r + 1))) tgt1)
    | Err e =>
        (Err e,
         mkWorld f2 r
           (decode_props_left (elem_Properties (rd_element r)) 0
              (record_buffer (content (w_file w)) (record_position r) size)
              (w_target w)))
    | Panic msg =>
        (Panic msg,
         mkWorld f2 r
           (decode_props_left (elem_Properties (rd_element r)) 0
              (record_buffer (content (w_file w)) (record_position r) size)
              (w_target w)))
    end.
Proof.
  intros r size Hopen Hrp Hsize Hpos Hleft. subst r size.
  unfold record_position in *. unfold ReadNext, file_Seek.
  set (size := PointByteSize (rd_element (w_reader w))) in *.
  set (rp := wrap64 (rd_offset (w_reader w) + wrap64 (rd_pos (w_reader w) * size))) in *.
  rewrite Hopen.
  destruct (Z.ltb_spec rp 0); [lia|].
  destruct (Z.ltb_spec size 0); [lia|].
  destruct (Z.leb_spec (elem_Count (rd_element (w_reader w))) (rd_pos (w_reader w)));
    [lia|].
  unfold file_Read. cbn [closed content fpos trace].
  unfold lenB at 1. rewrite repeat_length.
  destruct (Z.eqb_spec (Z.of_nat (Z.to_nat size)) 0) as [Hz|Hnz].
  - assert (size = 0) as Hs0 by lia.
    eexists. split; [|split]; [| |cbn [is_EOF];
      replace (record_buffer _ _ size) with (repeat x00 (Z.to_nat size));
      [reflexivity|]]; [reflexivity|reflexivity|].
    unfold record_buffer. rewrite Hs0. reflexivity.
  - destruct Hleft as [?|Hleft]; [lia|].
    destruct (Z.leb_spec (lenB (content (w_file w))) rp); [lia|].
    eexists. split; [|split]; [| |cbn [is_EOF];
      fold (record_buffer (content (w_file w)) rp size);
      reflexivity]; reflexivity.
Qed.

(** C2 (as the code has it): when ReadNext gets to decode a record
    (open file, valid position, cursor before count, bytes left), then
    (1) if every field bound to a property is exported and has exactly
    the Go type that property decodes to, the call completes, and each
    bound field holds the scalar of its (last) property, unchanged;
    (2) if some bound field has another of the integer and
    floating-point types, a wider one included, the call stops with a
    panic: there is no conversion. *)
Theorem store_needs_the_propertys_type w fs :
  let r := w_reader w in
  let props := elem_Properties (rd_element r) in
  let buf := record_buffer (content (w_file w)) (record_position r)
                           (sum_sizes props) in
  w_target w = PtrStruct fs ->
  closed (w_file w) = false ->
  Forall wf_property props -> in_int64 (sum_sizes props) ->
  0 <= record_position r ->
  rd_pos r < elem_Count (rd_element r) ->
  record_position r < lenB (content (w_file w)) ->
  (Forall (settable props) fs ->
   exists w1 fs1,
     ReadNext w = (Ok (wrap64 (rd_pos r + 1)), w1) /\
     w_target w1 = PtrStruct fs1 /\
     forall pre p post i f t,
       props = pre ++ p :: post ->
       fs !! i = Some f ->
       ftag f = prop_Name p ->
       case_type (prop_Type p) = Some t ->
       Forall (fun q => prop_Name q <> ftag f) post ->
       fs1 !! i = Some (mkField (fname f) (ftag f)
                          (scalar_at t buf (sum_sizes pre) (prop_Size p)))) /\
  (forall p f t,
      In p props -> In f fs -> prop_Name p = ftag f ->
      case_type (prop_Type p) = Some t ->
      vtype (fval f) <> t ->
      exists msg, fst (ReadNext w) = Panic msg).
Proof.
  intros r props buf Htgt Hopen Hwf Hfit Hrp Hpos Hleft. subst r.
  pose proof (sum_sizes_nonneg _ Hwf) as Hnn.
  assert (Hsize : PointByteSize (rd_element (w_reader w)) = sum_sizes props).
  { rewrite PointByteSize_running. fold props.
    rewrite running_offset_sum;
      [lia|assumption|lia|now rewrite Z.add_0_l]. }
  pose proof (ReadNext_decodes w Hopen Hrp) as HR. cbv zeta in HR.
  rewrite Hsize in HR.
  destruct (HR Hnn Hpos (or_intror Hleft)) as (f2 & _ & _ & HR2).
  clear HR. rename HR2 into HR.
  fold props in HR. fold buf in HR.
  rewrite Htgt, decode_props_struct in HR.
  assert (Hlen : lenB buf = sum_sizes props).
  { unfold lenB, buf. rewrite record_buffer_length. lia. }
  split.
  - intros Hset.
    destruct (decode_fields_total props 0 buf fs) as [fs1 E]; try assumption;
      [lia|lia|now rewrite Hlen|].
    rewrite E in HR. simpl in HR.
    eexists _, fs1. split; [exact HR|]. split; [reflexivity|].
    intros pre p post i f t Hprops Hi Htag Hc Hpost.
    rewrite Hprops in E.
    rewrite (decode_fields_last_write _ _ _ _ _ _ _ _ _ _ E Hi Htag Hc Hpost).
    rewrite running_offset_sum; [reflexivity| |lia|].
    + rewrite Hprops in Hwf. now apply Forall_app in Hwf as [? _].
    + rewrite Hprops in Hwf. apply Forall_app in Hwf as [Hpre Hrest].
      pose proof (sum_sizes_nonneg _ Hpre). pose proof (sum_sizes_nonneg _ Hrest).
      assert (sum_sizes props = sum_sizes pre + sum_sizes (p :: post)).
      { rewrite Hprops. clear. induction pre; simpl in *; lia. }
      unfold in_int64 in *. lia.
  - intros p f t Hp Hf Htag Hc Hne.
    destruct (decode_fields props 0 buf fs) as [fs1|e|msg] eqn:E.
    + destruct (decode_fields_Ok_types _ _ _ _ _ _ _ _ E Hp Hf Htag Hc).
      contradiction.
    + now apply decode_fields_not_Err in E.
    + exists msg. now rewrite HR.
Qed.

Lemma Open_red :
  fst (Open red_file) = Ok red_ply /\
  GetElementReader red_ply "vertex" = Ok (mkReader 0 83 (mkElement "vertex" 1 [mkProperty "uchar" "red" 1])).
Proof. split; vm_compute; reflexivity. Qed.

Lemma store_needs_the_propertys_type_witness :
  (exists w1,
      ReadNext (mkWorld (os_Open red_file)
                  (mkReader 0 83 (mkElement "vertex" 1 [mkProperty "uchar" "red" 1]))
                  (wide_R Tuint8 0)) = (Ok 1, w1) /\
      w_target w1 = wide_R Tuint8 7) /\
  (exists msg,
      fst (ReadNext (mkWorld (os_Open red_file)
                  (mkReader 0 83 (mkElement "vertex" 1 [mkProperty "uchar" "red" 1]))
                  (wide_R Tuint32 0))) = Panic msg).
Proof.
  split.
  - destruct (store_needs_the_propertys_type
                (mkWorld (os_Open red_file)
                   (mkReader 0 83 (mkElement "vertex" 1 [mkProperty "uchar" "red" 1]))
                   (wide_R Tuint8 0))
                [mkField "R" "red" (mkValue Tuint8 0)])
      as [Hok _]; try reflexivity.
    + repeat constructor.
    + vm_compute. split; [discriminate|reflexivity].
    + vm_compute. discriminate.
    + destruct Hok as (w1 & fs1 & HR & Ht & Hv).
      * constructor; [|constructor]. intros p t [<-|[]] _ [= <-].
        split; reflexivity.
      * exists w1. split; [exact HR|]. rewrite Ht.
        specialize (Hv [] (mkProperty "uchar" "red" 1) [] 0%nat
                      (mkField "R" "red" (mkValue Tuint8 0)) Tuint8
                      eq_refl eq_refl eq_refl eq_refl ltac:(constructor)).
        destruct fs1 as [|g [|g2 fs1]]; try discriminate.
        -- injection Hv as ->. reflexivity.
        -- exfalso. revert HR Ht. vm_compute. intros [= <-]. discriminate.
  - destruct (store_needs_the_propertys_type
                (mkWorld (os_Open red_file)
                   (mkReader 0 83 (mkElement "vertex" 1 [mkProperty "uchar" "red" 1]))
                   (wide_R Tuint32 0))
                [mkField "R" "red" (mkValue Tuint32 0)])
      as [_ Hpanic]; try reflexivity.
    + repeat constructor.
    + vm_compute. split; [discriminate|reflexivity].
    + vm_compute. discriminate.
    + apply (Hpanic (mkProperty "uchar" "red" 1)
               (mkField "R" "red" (mkValue Tuint32 0)) Tuint8);
        [now left|now left|reflexivity|reflexivity|discriminate].
Defined.

(** C2 as the specification words it fails: a uchar property bound to a
    uint32 field is not widened into it; the call panics and the field
    keeps its value. *)
Lemma widening_store_counterexample :
  exists r f,
    Open red_file = (Ok red_ply, f) /\
    GetElementReader red_ply "vertex" = Ok r /\
    fst (ReadNext (mkWorld f r (wide_R Tuint32 0)))
    = Panic "reflect.Set: value is not assignable to the field's type" /\
    w_target (snd (ReadNext (mkWorld f r (wide_R Tuint32 0)))) = wide_R Tuint32 0 /\
    is_Ok (fst (ReadNext (mkWorld f r (wide_R Tuint32 0)))) = false.
Proof.
  eexists _, _. split; [vm_compute; reflexivity|].
  split; [vm_compute; reflexivity|].
  split; [vm_compute; reflexivity|].
  split; vm_compute; reflexivity.
Qed.

(** ** Decoding over a target that was decoded into before *)

Lemma same_shape_refl f : same_shape f f.
Proof. unfold same_shape. auto. Qed.

Lemma same_shape_trans f g h : same_shape f g -> same_shape g h -> same_shape f h.
Proof. unfold same_shape. intuition congruence. Qed.

Lemma agree_refl props a : agree props a a.
Proof.
  unfold agree. induction a; constructor; auto using same_shape_refl.
Qed.

Lemma agree_nil a b : agree [] a b -> a = b.
Proof.
  unfold agree. induction 1 as [|fa fb a b [_ H] _ IH]; [reflexivity|].
  rewrite (H eq_refl), IH. reflexivity.
Qed.

Lemma store_same_shape p offset buf fa fb t :
  same_shape fa fb -> case_type (prop_Type p) = Some t ->
  store p offset buf fa = store p offset buf fb.
Proof.
  unfold same_shape, store, reflect_Set, exported. intros (Hn & Ht & Hty) ->.
  destruct (slice _ _ _); simpl; try reflexivity.
  destruct (memcpy _ _); simpl; try reflexivity.
  now rewrite Hn, Ht, Hty.
Qed.

Lemma set_fields_agree p rest offset buf a b :
  agree (p :: rest) a b ->
  rel_result (agree rest) (set_fields p offset buf a) (set_fields p offset buf b).
Proof.
  unfold agree. induction 1 as [|fa fb a b [Hsh Heq] _ IH]; simpl.
  - constructor.
  - pose proof Hsh as (_ & Htag & _). rewrite Htag. simpl in Heq.
    destruct (String.eqb_spec (ftag fa) (prop_Name p)) as [Hm|Hm].
    + destruct (case_type (prop_Type p)) as [t|] eqn:Hc.
      * rewrite <- (store_same_shape p offset buf fa fb t Hsh Hc).
        destruct (store p offset buf fa) as [f1| |] eqn:Es; simpl; try reflexivity.
        destruct (set_fields p offset buf a), (set_fields p offset buf b);
          simpl in *; try assumption; try contradiction.
        constructor; [|assumption]. split; [apply same_shape_refl|reflexivity].
      * unfold store. rewrite Hc. simpl.
        destruct (set_fields p offset buf a), (set_fields p offset buf b);
          simpl in *; try assumption; try contradiction.
        constructor; [|assumption]. split; [assumption|].
        intros Hw. apply Heq. exact Hw.
    + simpl.
      destruct (set_fields p offset buf a), (set_fields p offset buf b);
        simpl in *; try assumption; try contradiction.
      constructor; [|assumption]. split; [assumption|]. exact Heq.
Qed.

Lemma decode_fields_agree props offset buf a b :
  agree props a b ->
  decode_fields props offset buf a = decode_fields props offset buf b.
Proof.
  revert offset a b. induction props as [|p props IH]; intros offset a b H; simpl.
  - now rewrite (agree_nil _ _ H).
  - pose proof (set_fields_agree p props offset buf a b H) as Hr.
    destruct (set_fields p offset buf a), (set_fields p offset buf b);
      simpl in *; try contradiction; try congruence.
    now apply IH.
Qed.

Lemma set_fields_self p offset buf fs fs2 :
  set_fields p offset buf fs = Ok fs2 ->
  Forall2 (fun f f2 =>
             same_shape f f2 /\
             (String.eqb (ftag f) (prop_Name p)
              && match case_type (prop_Type p) with
                 | Some _ => true
                 | None => false
                 end = false -> f = f2)) fs fs2.
Proof.
  revert fs2. induction fs as [|g fs IH]; intros fs2; simpl.
  - intros [= <-]. constructor.
  - destruct (String.eqb_spec (ftag g) (prop_Name p)) as [Hm|Hm].
    + destruct (store p offset buf g) as [g1| |] eqn:Es; simpl; try discriminate.
      destruct (set_fields p offset buf fs) as [r| |]; simpl; try discriminate.
      intros [= <-]. constructor; [|now apply IH].
      split; [eapply store_shape; eassumption|].
      rewrite Hm, String.eqb_refl.
      destruct (case_type (prop_Type p)) eqn:Hc; simpl; [discriminate|].
      intros _. unfold store in Es. rewrite Hc in Es. congruence.
    + simpl. destruct (set_fields p offset buf fs) as [r| |]; simpl;
        try discriminate.
      intros [= <-]. constructor; [|now apply IH].
      split; [apply same_shape_refl|reflexivity].
Qed.

Lemma Forall2_compose {A} (R1 R2 R3 : A -> A -> Prop) l1 l2 l3 :
  (forall x y z, R1 x y -> R2 y z -> R3 x z) ->
  Forall2 R1 l1 l2 -> Forall2 R2 l2 l3 -> Forall2 R3 l1 l3.
Proof.
  intros HR H12. revert l3. induction H12 as [|x y l1 l2 Hxy _ IH]; intros l3 H23.
  - inversion H23. constructor.
  - inversion H23 as [|? z ? l3' Hyz Hrest]; subst. constructor; eauto.
Qed.

(** A decode changes at most the fields its properties store into. *)
Lemma decode_fields_self props offset buf fs fs1 :
  decode_fields props offset buf fs = Ok fs1 -> agree props fs fs1.
Proof.
  revert offset fs. induction props as [|p props IH]; intros offset fs; simpl.
  - intros [= <-]. apply agree_refl.
  - destruct (set_fields p offset buf fs) as [fs2| |] eqn:E; simpl;
      try discriminate.
    intros H. apply IH in H. apply set_fields_self in E.
    unfold agree in *. eapply Forall2_compose; [|exact E|exact H].
    intros f f2 f1 [S1 E1] [S2 E2]. split; [eapply same_shape_trans; eassumption|].
    simpl. intros Hw. apply orb_false_iff in Hw as [Hw1 Hw2].
    rewrite (E1 Hw1). apply E2. destruct S1 as (_ & -> & _). exact Hw2.
Qed.

Lemma decode_props_agree props offset buf t t1 :
  agree_target props t t1 ->
  decode_props props offset buf t = decode_props props offset buf t1.
Proof.
  destruct t as [a|v|], t1 as [b|v1|]; simpl; try contradiction.
  - intros H. rewrite !decode_props_struct.
    now rewrite (decode_fields_agree props offset buf a b H).
  - now intros ->.
  - reflexivity.
Qed.

Lemma decode_props_self props offset buf t t1 :
  decode_props props offset buf t = Ok t1 -> agree_target props t t1.
Proof.
  destruct t as [a|v|].
  - rewrite decode_props_struct.
    destruct (decode_fields props offset buf a) as [fs1| |] eqn:E; simpl;
      try discriminate.
    intros [= <-]. simpl. eapply decode_fields_self; eassumption.
  - revert offset. induction props as [|p props IH]; intros offset; simpl.
    + now intros [= <-].
    + apply IH.
  - destruct props; simpl; [now intros [= <-]|discriminate].
Qed.

(** ** Sequential reading and reading by index *)

(** ReadNext looks at the file's content only, not at where earlier
    calls left it, and at the target's type only. *)
Lemma ReadNext_congr w w' :
  w_reader w' = w_reader w ->
  content (w_file w') = content (w_file w) ->
  closed (w_file w') = closed (w_file w) ->
  agree_target (elem_Properties (rd_element (w_reader w)))
               (w_target w) (w_target w') ->
  fst (ReadNext w') = fst (ReadNext w) /\
  w_reader (snd (ReadNext w')) = w_reader (snd (ReadNext w)) /\
  content (w_file (snd (ReadNext w'))) = content (w_file (snd (ReadNext w))) /\
  closed (w_file (snd (ReadNext w'))) = closed (w_file (snd (ReadNext w))) /\
  (forall n, fst (ReadNext w) = Ok n ->
             w_target (snd (ReadNext w')) = w_target (snd (ReadNext w))).
Proof.
  destruct w as [[c p cl tr] r t], w' as [[c' p' cl' tr'] r' t'].
  simpl. intros -> -> -> Hag.
  unfold ReadNext, file_Seek. simpl.
  destruct cl; simpl; [repeat split; discriminate|].
  destruct (_ <? 0); simpl; [repeat split; discriminate|].
  destruct (PointByteSize (rd_element r) <? 0); simpl;
    [repeat split; discriminate|].
  destruct (elem_Count (rd_element r) <=? rd_pos r); simpl;
    [repeat split; discriminate|].
  unfold file_Read. simpl.
  destruct (lenB (repeat x00 _) =? 0); simpl.
  - rewrite <- (decode_props_agree _ 0 _ t t' Hag).
    destruct (decode_props _ _ _ t); simpl; repeat split; discriminate.
  - destruct (lenB c <=? _); simpl; [repeat split; discriminate|].
    rewrite <- (decode_props_agree _ 0 _ t t' Hag).
    destruct (decode_props _ _ _ t); simpl; repeat split; discriminate.
Qed.

Lemma ReadNext_Ok_inv w n w1 :
  ReadNext w = (Ok n, w1) ->
  w_reader w1 = set_pos (w_reader w) (wrap64 (rd_pos (w_reader w) + 1)) /\
  content (w_file w1) = content (w_file w) /\
  closed (w_file w1) = closed (w_file w) /\
  agree_target (elem_Properties (rd_element (w_reader w)))
               (w_target w) (w_target w1).
Proof.
  destruct w as [[c p cl tr] r t].
  unfold ReadNext, file_Seek. simpl.
  destruct cl; simpl; [discriminate|].
  destruct (_ <? 0); simpl; [discriminate|].
  destruct (PointByteSize (rd_element r) <? 0); simpl; [discriminate|].
  destruct (elem_Count (rd_element r) <=? rd_pos r); simpl; [discriminate|].
  unfold file_Read. simpl.
  destruct (lenB (repeat x00 _) =? 0); simpl.
  - destruct (decode_props _ _ _ t) eqn:E; simpl; try discriminate.
    intros [= <- <-]. simpl. repeat split.
    eapply decode_props_self; eassumption.
  - destruct (lenB c <=? _); simpl; [discriminate|].
    destruct (decode_props _ _ _ t) eqn:E; simpl; try discriminate.
    intros [= <- <-]. simpl. repeat split.
    eapply decode_props_self; eassumption.
Qed.

Section Runs.
Variables (e : element) (offset : Z) (bytes : list byte) (cl : bool).
Variable fresh : target.
Hypothesis count_int64 : in_int64 (elem_Count e).

Lemma runs_agree n :
  forall i fs fa ts pa ta,
    0 <= i -> i + Z.of_nat n <= elem_Count e ->
    content fs = bytes -> closed fs = cl ->
    content fa = bytes -> closed fa = cl ->
    agree_target (elem_Properties e) fresh ts ->
    ReadNext_n n (mkWorld fs (mkReader i offset e) ts)
    = ReadAt_each n i fresh (mkWorld fa (mkReader pa offset e) ta).
Proof using count_int64.
  induction n as [|n IH]; intros i fs fa ts pa ta Hi Hn Hcs Hls Hca Hla Hag;
    [reflexivity|].
  cbn [ReadNext_n ReadAt_each]. unfold ReadAt, Seek. cbn [w_reader w_file w_target rd_element rd_pos].
  destruct (Z.ltb_spec i 0); [lia|].
  destruct (Z.ltb_spec (elem_Count e) i); [lia|].
  cbn [orb]. unfold set_pos at 1. cbn [rd_offset rd_element].
  set (w0 := mkWorld fa (mkReader i offset e) fresh).
  set (ws := mkWorld fs (mkReader i offset e) ts).
  destruct (ReadNext_congr w0 ws eq_refl) as (Hres & Hrd & Hc & Hl & Htg);
    [simpl; congruence|simpl; congruence|exact Hag|].
  destruct (ReadNext w0) as [[k|err|msg] w01] eqn:E0;
    destruct (ReadNext ws) as [res ws1] eqn:Es; simpl in Hres; subst res;
    try reflexivity.
  specialize (Htg k eq_refl).
  destruct (ReadNext_Ok_inv _ _ _ E0) as (Hr0 & Hc0 & Hl0 & Hag0).
  destruct ws1 as [fs1 rs1 ts1], w01 as [fa1 ra1 ta1].
  cbn [fst snd w_file w_reader w_target rd_pos rd_element w0] in *.
  subst rs1 ra1 ts1.
  unfold set_pos. cbn [rd_offset rd_element].
  rewrite wrap64_id by (unfold in_int64 in *; lia).
  rewrite (IH (i + 1) fs1 fa1 ta1 pa ta1);
    [reflexivity|lia|lia|congruence|congruence|congruence|congruence|exact Hag0].
Qed.
End Runs.

Lemma ReadNext_n_length n w vs : ReadNext_n n w = Ok vs -> length vs = n.
Proof.
  revert w vs. induction n as [|n IH]; intros w vs; simpl.
  - now intros [= <-].
  - destruct (ReadNext w) as [[k| |] w1]; try discriminate.
    destruct (ReadNext_n n w1) as [rest| |] eqn:E; simpl; try discriminate.
    intros [= <-]. simpl. now rewrite (IH _ _ E).
Qed.

(** C6: for an element with count n (an int64 that is not negative),
    Reset followed by n calls of ReadNext on one target gives the same
    outcome as ReadAt(i, fresh) for i = 0 .. n-1 on a fresh copy of that
    target each time: the same n values when the reads succeed, and the
    same error or panic when one of them fails. *)
Theorem sequential_equals_indexed w :
  0 <= Count (w_reader w) ->
  in_int64 (Count (w_reader w)) ->
  read_sequentially w = read_by_index w /\
  (forall vs, read_sequentially w = Ok vs ->
              length vs = Z.to_nat (Count (w_reader w))).
Proof.
  destruct w as [f [pos offset e] t]. unfold Count. simpl. intros Hc Hr.
  assert (Heq : read_sequentially (mkWorld f (mkReader pos offset e) t)
                = ReadNext_n (Z.to_nat (elem_Count e))
                    (mkWorld f (mkReader 0 offset e) t)).
  { unfold read_sequentially, Reset, Seek, Count. simpl.
    destruct (Z.ltb_spec (elem_Count e) 0); [lia|]. reflexivity. }
  split.
  - rewrite Heq. unfold read_by_index, Count. simpl.
    apply (runs_agree e offset (content f) (closed f) t Hr);
      [lia|lia|reflexivity|reflexivity|reflexivity|reflexivity|].
    destruct t; simpl; auto using agree_refl.
  - intros vs. rewrite Heq. apply ReadNext_n_length.
Qed.

Lemma sequential_equals_indexed_witness :
  read_sequentially (mkWorld (os_Open two_element_file)
                       (mkReader 1 169 vertex_element) (vertex_target 0 0 0 5))
  = Ok [vertex_target 1 (-1) 7 5; vertex_target 2 (-2) 8 5] /\
  read_by_index (mkWorld (os_Open two_element_file)
                   (mkReader 1 169 vertex_element) (vertex_target 0 0 0 5))
  = Ok [vertex_target 1 (-1) 7 5; vertex_target 2 (-2) 8 5].
Proof.
  destruct (sequential_equals_indexed
              (mkWorld (os_Open two_element_file)
                 (mkReader 1 169 vertex_element) (vertex_target 0 0 0 5)))
    as [Heq _].
  - vm_compute. discriminate.
  - vm_compute. split; [discriminate|reflexivity].
  - split; [|rewrite <- Heq]; vm_compute; reflexivity.
Defined.

(** * Further properties of the code *)

(** ** readHeader, completely *)

Lemma sob_cons b l :
  string_of_list_byte (b :: l) = String (ascii_of_byte b) (string_of_list_byte l).
Proof. reflexivity. Qed.

Lemma sob_length l : String.length (string_of_list_byte l) = length l.
Proof.
  induction l as [|b l IH]; [reflexivity|].
  rewrite sob_cons. cbn [String.length length]. now rewrite IH.
Qed.

Lemma sob_app l1 l2 :
  string_of_list_byte (l1 ++ l2)
  = (string_of_list_byte l1 ++ string_of_list_byte l2)%string.
Proof.
  induction l1 as [|b l1 IH]; [reflexivity|].
  rewrite <- app_comm_cons, !sob_cons, IH. reflexivity.
Qed.

Lemma sob_take n l :
  string_of_list_byte (take n l) = str_take n (string_of_list_byte l).
Proof.
  revert l. induction n as [|n IH]; intros [|b l]; try reflexivity.
  cbn [take]. rewrite !sob_cons. cbn [str_take]. now rewrite IH.
Qed.

Lemma str_take_all n s : (String.length s <= n)%nat -> str_take n s = s.
Proof.
  revert n. induction s as [|c s IH]; intros [|n]; simpl; intros H;
    try reflexivity; try lia.
  rewrite IH by lia. reflexivity.
Qed.

Lemma str_take_take n m s :
  (n <= m)%nat -> str_take n (str_take m s) = str_take n s.
Proof.
  revert m s. induction n as [|n IH]; intros [|m] [|c s] H; simpl;
    try reflexivity; try lia.
  rewrite IH by lia. reflexivity.
Qed.

Lemma strip_prefix_of_take p s n r :
  strip_prefix p (str_take n s) = Some r -> exists r1, strip_prefix p s = Some r1.
Proof.
  revert s n. induction p as [|a p IH]; intros s n; simpl; [eauto|].
  destruct s as [|b s], n as [|n]; simpl; try discriminate.
  destruct (Ascii.eqb a b); [apply IH | discriminate].
Qed.

(** An occurrence found in a prefix of the text is the first one of the
    text. *)
Lemma strings_Index_prefix s substr n :
  strings_Index (str_take n s) substr <> -1 ->
  strings_Index s substr = strings_Index (str_take n s) substr.
Proof.
  revert n. induction s as [|c s IH]; intros n.
  - destruct n; reflexivity.
  - destruct n as [|n].
    + cbn [str_take]. intros H0.
      assert (E : strip_prefix substr "" <> None).
      { intros E. apply H0. simpl. now rewrite E. }
      destruct substr; [reflexivity|]. now simpl in E.
    + cbn [str_take strings_Index].
      destruct (strip_prefix substr (String c (str_take n s))) as [r|] eqn:E.
      * change (String c (str_take n s)) with (str_take (S n) (String c s)) in E.
        destruct (strip_prefix_of_take _ _ _ _ E) as [r1 ->]. reflexivity.
      * destruct (Z.eqb_spec (strings_Index (str_take n s) substr) (-1)) as [|Hne];
          [congruence|].
        intros _. rewrite (IH n Hne).
        destruct (strip_prefix substr (String c s)) as [r1|] eqn:E1.
        -- exfalso.
           pose proof (strings_Index_range _ _ Hne) as [H0 Hend].
           pose proof (strip_prefix_length _ _ _ E1) as Hl.
           assert (Hlen : (String.length substr <= S n)%nat).
           { unfold lenZ in Hend.
             assert (String.length (str_take n s) <= n)%nat.
             { clear. revert s. induction n; intros [|? ?]; simpl; try lia.
               specialize (IHn s). lia. }
             lia. }
           change (String c (str_take n s)) with (str_take (S n) (String c s)) in E.
           rewrite (strip_prefix_take _ _ _ (S n) E1 Hlen) in E. discriminate.
        -- destruct (Z.eqb_spec (strings_Index (str_take n s) substr) (-1));
             [congruence|reflexivity].
Qed.

Lemma strings_Index_prefix_None s substr n :
  strings_Index s substr = -1 -> strings_Index (str_take n s) substr = -1.
Proof.
  intros H. destruct (Z.eq_dec (strings_Index (str_take n s) substr) (-1)) as [|Hne];
    [assumption|].
  rewrite (strings_Index_prefix _ _ _ Hne) in H. contradiction.
Qed.

Lemma readHeader_loop_spec bytes fuel :
  forall f hs r f1,
    content f = bytes -> closed f = false -> 0 <= fpos f ->
    fpos f mod 100 = 0 \/ lenB bytes <= fpos f ->
    hs = str_take (Z.to_nat (fpos f)) (file_text bytes) ->
    strings_Index hs "end_header" = -1 ->
    readHeader_loop fuel f hs = Some (r, f1) ->
    content f1 = bytes /\ closed f1 = false /\
    match r with
    | Ok (h, off) =>
        terminator_pos bytes <> -1 /\ off = terminator_pos bytes + 11 /\
        h = str_take (Z.to_nat off) (file_text bytes) /\
        ~ terminator_at_read_end bytes
    | Err e => e = ErrNew "failed read header" /\ terminator_pos bytes = -1
    | Panic msg =>
        msg = slice_bounds /\ terminator_pos bytes <> -1 /\
        terminator_at_read_end bytes
    end.
Proof.
  induction fuel as [|fuel IH]; intros f hs r f1 Hc Hopen Hp Hmod Hhs Hnone;
    [discriminate|].
  cbn [readHeader_loop]. unfold file_Read. rewrite Hopen.
  unfold lenB at 1. rewrite repeat_length. cbn [Z.eqb Z.of_nat Pos.of_succ_nat].
  change (Z.of_nat 100 =? 0) with false. cbv iota.
  rewrite Hc.
  assert (Hlen : String.length (file_text bytes) = length bytes)
    by apply sob_length.
  destruct (Z.leb_spec (lenB bytes) (fpos f)) as [Hend|Hmore].
  - intros [= <- <-]. unfold log. simpl. repeat split; try assumption.
    unfold terminator_pos. rewrite <- Hnone, Hhs.
    rewrite str_take_all; [reflexivity|]. unfold lenB in Hend. lia.
  - set (data := take 100 (drop (Z.to_nat (fpos f)) bytes)).
    assert (Hdata : length data = Z.to_nat (Z.min 100 (lenB bytes - fpos f))).
    { unfold data, lenB in *. rewrite length_take, length_drop. lia. }
    rewrite take_app_length' by (unfold lenB; lia).
    set (p1 := fpos f + lenB data).
    assert (Hp1 : p1 = fpos f + Z.min 100 (lenB bytes - fpos f))
      by (unfold p1, lenB in *; lia).
    assert (Hhs1 : (hs ++ string_of_list_byte data)%string
                   = str_take (Z.to_nat p1) (file_text bytes)).
    { rewrite Hhs. unfold file_text, data. rewrite <- !sob_take, <- sob_app.
      rewrite take_take_drop. f_equal. unfold lenB in *.
      destruct (Z.min_spec 100 (Z.of_nat (length bytes) - fpos f)) as [[_ E]|[_ E]].
      - f_equal. lia.
      - rewrite !take_ge by lia. reflexivity. }
    rewrite Hhs1.
    assert (Hl1 : lenZ (str_take (Z.to_nat p1) (file_text bytes)) = p1).
    { unfold lenZ. rewrite str_take_length; unfold lenB in *; lia. }
    destruct (Z.eqb_spec (strings_Index (str_take (Z.to_nat p1) (file_text bytes))
                            "end_header") (-1)) as [Hnf|Hfound]; cbn [negb].
    + apply IH; simpl; try assumption; try reflexivity; try lia.
      fold p1. unfold lenB in *. destruct Hmod as [Hm|]; [|lia].
      destruct (Z.min_spec 100 (Z.of_nat (length bytes) - fpos f)) as [[_ E]|[_ E]].
      * left. rewrite Hp1. unfold lenB. rewrite E.
        rewrite Z.add_mod by lia. rewrite Hm. reflexivity.
      * right. lia.
    + pose proof (strings_Index_prefix _ _ _ Hfound) as Hpos.
      fold (terminator_pos bytes) in Hpos.
      pose proof (strings_Index_range _ _ Hfound) as [H0 Hrange].
      rewrite Hl1 in Hrange. rewrite <- Hpos in *. rewrite Hl1.
      change (lenZ "end_header") with 10 in *.
      assert (Hbefore : fpos f < terminator_pos bytes + 10).
      { destruct (Z.lt_ge_cases (fpos f) (terminator_pos bytes + 10)) as [|Hge];
          [assumption|exfalso].
        rewrite Hhs in Hnone. unfold terminator_pos in *.
        rewrite strings_Index_take in Hnone; [lia|lia|].
        change (lenZ "end_header") with 10. lia. }
      destruct (_ || _) eqn:Eb.
      * intros [= <- <-]. simpl. repeat split; try assumption; try lia.
        apply orb_true_iff in Eb as [Eb%Z.ltb_lt|Eb%Z.ltb_lt]; [lia|].
        unfold terminator_at_read_end.
        destruct (Z.min_spec 100 (lenB bytes - fpos f)) as [[_ E]|[_ E]].
        -- right. destruct Hmod as [Hm|]; [|lia].
           replace (terminator_pos bytes + 10) with (fpos f + 100) by lia.
           rewrite Z.add_mod by lia. rewrite Hm. reflexivity.
        -- left. lia.
      * apply orb_false_iff in Eb as [_ Eb%Z.ltb_ge].
        intros [= <- <-]. simpl. repeat split; try assumption; try lia.
        -- rewrite str_take_take by lia. reflexivity.
        -- unfold terminator_at_read_end. intros [Hx|Hx]; [unfold lenB in *; lia|].
           destruct Hmod as [Hm|]; [|lia].
           pose proof (Z_div_mod_eq_full (fpos f) 100).
           pose proof (Z_div_mod_eq_full (terminator_pos bytes + 10) 100).
           lia.
Qed.

Lemma readHeader_spec bytes :
  exists r f1,
    readHeader (os_Open bytes) = (r, f1) /\
    content f1 = bytes /\ closed f1 = false /\
    match r with
    | Ok (h, off) =>
        terminator_pos bytes <> -1 /\ off = terminator_pos bytes + 11 /\
        h = str_take (Z.to_nat off) (file_text bytes) /\
        ~ terminator_at_read_end bytes
    | Err e => e = ErrNew "failed read header" /\ terminator_pos bytes = -1
    | Panic msg =>
        msg = slice_bounds /\ terminator_pos bytes <> -1 /\
        terminator_at_read_end bytes
    end.
Proof.
  unfold readHeader, readHeader_fuel.
  pose proof (readHeader_loop_fuel (S (length bytes)) (os_Open bytes) "") as Hf.
  destruct (readHeader_loop _ _ _) as [[r f1]|] eqn:E;
    [|exfalso; apply Hf; simpl; unfold lenB; [lia|lia|reflexivity]].
  pose proof (readHeader_loop_spec bytes _ (os_Open bytes) "" r f1
                eq_refl eq_refl
                ltac:(simpl; lia) (or_introl eq_refl) eq_refl eq_refl E)
    as (Hc & Ho & Hr).
  destruct r as [[h off]|e|msg].
  - apply readHeader_loop_Ok in E as (_ & Hl & Hlt & _).
    destruct (String.eqb_spec h "") as [->|_].
    + exfalso. subst off. unfold lenZ in Hlt. simpl in Hlt. lia.
    + exists (Ok (h, off)), f1. auto.
  - exists (Err e), f1. auto.
  - exists (Panic msg), f1. auto.
Qed.

(** X1: when Open succeeds the file holds "end_header"; the header offset
    is the position of its first occurrence plus 11 (the terminator and
    the byte after it) and lies within the file; and the header text kept
    is exactly the first [offset] bytes of the file, so the body starts at
    [offset]. *)
Theorem Open_header_is_file_prefix bytes ply f :
  Open bytes = (Ok ply, f) ->
  terminator_pos bytes <> -1 /\
  hdr_offset (ply_header ply) = terminator_pos bytes + 11 /\
  hdr_offset (ply_header ply) <= lenB bytes /\
  headerStr ply
  = string_of_list_byte (take (Z.to_nat (hdr_offset (ply_header ply))) bytes).
Proof.
  unfold Open.
  destruct (readHeader_spec bytes) as (r & f1 & -> & _ & _ & Hr).
  destruct r as [[h off]|e|msg]; try discriminate.
  destruct Hr as (Hpos & Hoff & Hh & Hnot).
  unfold parseHeader.
  destruct (parse_lines _ _) as [st| |]; cbn [rbind]; try discriminate.
  cbv beta iota. destruct (negb _); [discriminate|].
  intros [= <- _]. cbn [ply_header hdr_offset headerStr].
  repeat split; try assumption.
  - assert (Hr := strings_Index_range _ _ Hpos).
    fold (terminator_pos bytes) in Hr. unfold lenZ, file_text in Hr.
    rewrite sob_length in Hr. simpl in Hr.
    unfold terminator_at_read_end, lenB in *. lia.
  - rewrite sob_take. exact Hh.
Qed.

Lemma Open_header_is_file_prefix_witness :
  hdr_offset (ply_header two_element_ply) = terminator_pos two_element_file + 11 /\
  headerStr two_element_ply
  = string_of_list_byte (take 169 two_element_file).
Proof.
  destruct (Open_header_is_file_prefix two_element_file two_element_ply
              (snd (Open two_element_file)))
    as (_ & H1 & _ & H2).
  - vm_compute. reflexivity.
  - split; [exact H1 | exact H2].
Defined.

(** X2: a file in which "end_header" does not occur makes Open fail with
    "failed read header", and Open closes the file. *)
Theorem Open_without_terminator bytes :
  terminator_pos bytes = -1 ->
  fst (Open bytes) = Err (ErrNew "failed read header") /\
  closed (snd (Open bytes)) = true.
Proof.
  intros Hnone. unfold Open.
  destruct (readHeader_spec bytes) as (r & f1 & -> & _ & Hopen & Hr).
  destruct r as [[h off]|e|msg].
  - destruct Hr as (Hpos & _). contradiction.
  - destruct Hr as (-> & _). unfold file_Close. rewrite Hopen. auto.
  - destruct Hr as (_ & Hpos & _). contradiction.
Qed.

Lemma Open_without_terminator_witness :
  fst (Open (list_byte_of_string "ply, but no terminator"))
  = Err (ErrNew "failed read header").
Proof.
  apply (Open_without_terminator (list_byte_of_string "ply, but no terminator")).
  vm_compute. reflexivity.
Defined.

(** X3: readHeader stops with a slice-bounds panic exactly when the file
    holds "end_header" and its first occurrence ends where the file ends
    or at a multiple of 100 bytes: the read that brings the terminator
    in does not bring the byte after it, and headerStr[:offset] is one
    byte longer than the text read. *)
Theorem readHeader_panics_at_read_end bytes :
  fst (readHeader (os_Open bytes)) = Panic slice_bounds <->
  terminator_pos bytes <> -1 /\ terminator_at_read_end bytes.
Proof.
  destruct (readHeader_spec bytes) as (r & f1 & -> & _ & _ & Hr). simpl.
  destruct r as [[h off]|e|msg].
  - destruct Hr as (_ & _ & _ & Hnot). split; [discriminate|tauto].
  - destruct Hr as (_ & Hnone). split; [discriminate|]. intros []. contradiction.
  - destruct Hr as (-> & Hpos & Hend). tauto.
Qed.

Example readHeader_panics_without_newline :
  fst (Open no_newline_file) = Panic slice_bounds.
Proof. vm_compute. reflexivity. Qed.

Example readHeader_panics_at_byte_100 :
  terminator_pos hundred_byte_header_file + 10 = 100 /\
  fst (Open hundred_byte_header_file) = Panic slice_bounds.
Proof. split; vm_compute; reflexivity. Qed.

Lemma parse_line_Panic line st msg :
  parse_line line st = Panic msg -> msg = nil_deref.
Proof.
  unfold parse_line, parse_property_and_end.
  repeat (destruct (FindAllStringSubmatch _ line); try discriminate);
    destruct (ps_curr st); try (intros [= <-]; reflexivity);
    try (destruct (ps_store st !! _)); try (intros [= <-]; reflexivity);
    simpl; destruct (String.eqb line headerEnd); discriminate.
Qed.

Lemma parse_lines_Panic lines st msg :
  parse_lines lines st = Panic msg -> msg = nil_deref.
Proof.
  revert st. induction lines as [|line lines IH]; intros st; simpl;
    [discriminate|].
  destruct (parse_line line st) eqn:E; simpl; [apply IH|discriminate|].
  intros [= <-]. eapply parse_line_Panic; eassumption.
Qed.

(** X4: the outcomes of Open.  A handle is only returned for the format
    binary_little_endian, with the file left open; an error is one of
    the two messages of the source and the file has been closed; a panic
    is the slice bound of readHeader or the nil dereference of
    parseHeader. *)
Theorem Open_outcomes bytes :
  match Open bytes with
  | (Ok ply, f) =>
      hdr_Format (ply_header ply) = "binary_little_endian" /\
      closed f = false /\ content f = bytes
  | (Err e, f) =>
      (e = ErrNew "failed read header" \/
       e = ErrNew "binary_little_endian support only") /\
      closed f = true
  | (Panic msg, f) => msg = slice_bounds \/ msg = nil_deref
  end.
Proof.
  unfold Open.
  destruct (readHeader_spec bytes) as (r & f1 & -> & Hc & Hopen & Hr).
  destruct r as [[h off]|e|msg].
  - unfold parseHeader.
    destruct (parse_lines _ _) as [st| |] eqn:E; cbn [rbind]; cbv beta iota.
    + cbn [ply_header hdr_Format].
      destruct (String.eqb_spec (ps_Format st) "binary_little_endian");
        cbn [negb]; [auto|].
      unfold file_Close. rewrite Hopen. cbn [snd closed]. auto.
    + now apply parse_lines_not_Err in E.
    + right. eapply parse_lines_Panic; eassumption.
  - destruct Hr as (-> & _). unfold file_Close. rewrite Hopen. cbn. auto.
  - destruct Hr as (-> & _). auto.
Qed.

Example Open_ascii :
  fst (Open ascii_file) = Err (ErrNew "binary_little_endian support only") /\
  closed (snd (Open ascii_file)) = true.
Proof. split; vm_compute; reflexivity. Qed.

(** ** The header patterns *)

Lemma strip_prefix_app p s r : strip_prefix p s = Some r -> s = (p ++ r)%string.
Proof.
  revert s. induction p as [|a p IH]; intros s; simpl.
  - now intros [= <-].
  - destruct s as [|b s]; [discriminate|].
    destruct (Ascii.eqb_spec a b) as [->|]; [|discriminate].
    intros H. now rewrite (IH _ H).
Qed.

Lemma strip_prefix_same p r : strip_prefix p (p ++ r)%string = Some r.
Proof.
  induction p as [|a p IH]; simpl; [reflexivity|].
  now rewrite Ascii.eqb_refl.
Qed.

Lemma star_splits_sound cls s u rest :
  In (u, rest) (star_splits cls s) ->
  s = (u ++ rest)%string /\ all_chars cls u = true.
Proof.
  revert u rest. induction s as [|c s IH]; intros u rest; simpl.
  - intros [[= <- <-]|[]]. auto.
  - destruct (cls c) eqn:Ec.
    + rewrite in_app_iff, in_map_iff.
      intros [((u1 & r1) & [= <- <-] & Hin)|[[= <- <-]|[]]]; [|auto].
      destruct (IH _ _ Hin) as [-> Hu]. simpl. rewrite Ec. auto.
    + intros [[= <- <-]|[]]. auto.
Qed.

Lemma star_splits_all cls s :
  all_chars cls s = true ->
  exists tl, star_splits cls s = (s, EmptyString) :: tl.
Proof.
  induction s as [|c s IH]; simpl; [eauto|].
  intros [Hc Hs]%andb_true_iff. rewrite Hc.
  destruct (IH Hs) as [tl ->]. simpl. eauto.
Qed.

(** Every match the matcher lists is a match of the pattern, with the
    groups holding matches of their sub-patterns. *)
Lemma rmatch_sound r :
  forall s u rest caps,
    In (u, rest, caps) (rmatch r s) ->
    s = (u ++ rest)%string /\ lang r u /\ Forall2 lang (groups r) caps.
Proof.
  induction r as [p|ps|cls|r1 IH1 r2 IH2|r1 IH1]; intros s u rest caps; simpl.
  - unfold match_lit. destruct (strip_prefix p s) as [r|] eqn:E; [|intros []].
    intros [[= <- <- <-]|[]]. apply strip_prefix_app in E. auto.
  - rewrite in_flat_map. intros (p & Hp & Hin). unfold match_lit in Hin.
    destruct (strip_prefix p s) as [r|] eqn:E; [|destruct Hin].
    destruct Hin as [[= <- <- <-]|[]]. apply strip_prefix_app in E. auto.
  - rewrite in_map_iff. intros ((u1 & r1) & [= <- <- <-] & Hin).
    apply star_splits_sound in Hin as [-> Hu]. auto.
  - rewrite in_flat_map. intros (((u1 & rest1) & caps1) & H1 & Hin).
    rewrite in_map_iff in Hin.
    destruct Hin as (((u2 & rest2) & caps2) & [= <- <- <-] & H2).
    destruct (IH1 _ _ _ _ H1) as (-> & L1 & G1).
    destruct (IH2 _ _ _ _ H2) as (-> & L2 & G2).
    split; [|split].
    + clear. induction u1; simpl; congruence.
    + eauto.
    + now apply Forall2_app.
  - rewrite in_map_iff. intros (((u1 & rest1) & caps1) & [= <- <- <-] & H1).
    destruct (IH1 _ _ _ _ H1) as (-> & L1 & G1). auto.
Qed.

Lemma FindAllStringSubmatch_sound re line res :
  FindAllStringSubmatch re line = res -> res <> [] ->
  exists u rest caps,
    res = [u :: caps] /\ line = (u ++ rest)%string /\ lang re u /\
    Forall2 lang (groups re) caps.
Proof.
  unfold FindAllStringSubmatch.
  destruct (rmatch re line) as [|[[u rest] caps] tl] eqn:E; intros <- Hne;
    [congruence|].
  destruct (rmatch_sound re line u rest caps) as (H1 & H2 & H3);
    [rewrite E; now left|].
  exists u, rest, caps. auto.
Qed.

Lemma rProperty_groups line res :
  FindAllStringSubmatch rProperty line = res -> res <> [] ->
  In (sub res 0 1) type_tokens /\ all_chars cls_word (sub res 0 2) = true.
Proof.
  intros H Hne.
  destruct (FindAllStringSubmatch_sound _ _ _ H Hne) as (u & rest & caps & -> & _ & _ & G).
  simpl in G. inversion G as [|? c1 ? caps1 L1 G1]; subst.
  inversion G1 as [|? c2 ? caps2 L2 G2]; subst. simpl in *. auto.
Qed.

Lemma rElement_groups line res :
  FindAllStringSubmatch rElement line = res -> res <> [] ->
  all_chars cls_word (sub res 0 1) = true /\
  all_chars cls_digit (sub res 0 2) = true.
Proof.
  intros H Hne.
  destruct (FindAllStringSubmatch_sound _ _ _ H Hne) as (u & rest & caps & -> & _ & _ & G).
  simpl in G. inversion G as [|? c1 ? caps1 L1 G1]; subst.
  inversion G1 as [|? c2 ? caps2 L2 G2]; subst. simpl in *. auto.
Qed.

Lemma digits_val_nonneg s acc :
  all_chars cls_digit s = true -> 0 <= acc -> 0 <= digits_val acc s.
Proof.
  revert acc. induction s as [|c s IH]; intros acc; simpl; [auto|].
  intros [Hc Hs]%andb_true_iff Hacc. apply IH; [assumption|].
  unfold cls_digit, between, digit_val in *.
  apply andb_true_iff in Hc as [H1%Nat.leb_le _].
  change (nat_of_ascii "0") with 48%nat in H1. lia.
Qed.

Lemma Atoi_range s :
  all_chars cls_digit s = true -> 0 <= Atoi s <= maxInt64.
Proof.
  intros H. unfold Atoi. pose proof (digits_val_nonneg s 0 H ltac:(lia)).
  cbv zeta. destruct (Z.ltb_spec maxInt64 (digits_val 0 s)); unfold maxInt64 in *; lia.
Qed.

Lemma type_token_case ty :
  In ty type_tokens -> exists t, case_type ty = Some t /\ propertySize ty = sizeof t.
Proof.
  unfold type_tokens. simpl.
  intros [<-|[<-|[<-|[<-|[<-|[<-|[<-|[<-|[]]]]]]]]]; eexists; split; reflexivity.
Qed.

(** ** What parseHeader guarantees *)

Lemma parse_line_store_ok line st st1 :
  parse_line line st = Ok st1 ->
  Forall element_ok (ps_store st) -> Forall element_ok (ps_store st1).
Proof.
  unfold parse_line, parse_property_and_end. intros H Hok.
  destruct (FindAllStringSubmatch rFormat line) eqn:Ef;
    [|injection H as <-; exact Hok].
  destruct (FindAllStringSubmatch rComment line) eqn:Ec;
    [|injection H as <-; exact Hok].
  destruct (FindAllStringSubmatch rElement line) as [|row tl] eqn:Ee.
  - destruct (FindAllStringSubmatch rProperty line) as [|row tl] eqn:Ep.
    + simpl in H. destruct (String.eqb line headerEnd); injection H as <-; exact Hok.
    + destruct (ps_curr st) as [p|]; [|discriminate].
      destruct (ps_store st !! p) as [e|] eqn:El; [|discriminate].
      assert (Hst : Forall element_ok
                      (<[p := add_property e
                                (mkProperty (sub (row :: tl) 0 1) (sub (row :: tl) 0 2)
                                   (propertySize (sub (row :: tl) 0 1)))]>
                         (ps_store st))).
      { apply Forall_insert; [exact Hok|].
        destruct (Forall_lookup_1 _ _ _ _ Hok El) as (Hc & Hn & Hp).
        split; [exact Hc|]. split; [exact Hn|]. simpl.
        apply Forall_app. split; [exact Hp|]. constructor; [|constructor].
        destruct (rProperty_groups _ _ Ep ltac:(discriminate)) as [Hty Hname].
        destruct (type_token_case _ Hty) as (t & Hct & Hsz).
        unfold property_ok. simpl. eauto 6. }
      simpl in H. destruct (String.eqb line headerEnd); injection H as <-; exact Hst.
  - injection H as <-. simpl. apply Forall_app. split; [exact Hok|].
    constructor; [|constructor].
    destruct (rElement_groups _ _ Ee ltac:(discriminate)) as [Hname Hdig].
    split; [apply Atoi_range; exact Hdig|]. split; [exact Hname|]. constructor.
Qed.

Lemma parse_lines_store_ok lines st st1 :
  parse_lines lines st = Ok st1 ->
  Forall element_ok (ps_store st) -> Forall element_ok (ps_store st1).
Proof.
  revert st. induction lines as [|line lines IH]; intros st; simpl.
  - now intros [= <-].
  - destruct (parse_line line st) as [st2| |] eqn:E; simpl; try discriminate.
    intros H Hok. apply (IH _ H). eapply parse_line_store_ok; eassumption.
Qed.

(** X5: every element of a parsed header has a count between 0 and
    MaxInt64 and a name of word characters, and every one of its
    properties has one of the eight type names, the size of that type
    (1, 2, 4 or 8: the size of the variable the decoder copies it into)
    and a name of word characters. *)
Theorem parsed_elements_ok hs offset ply e :
  parseHeader hs offset = Ok ply ->
  In (Some e) (hdr_Elements (ply_header ply)) ->
  element_ok e.
Proof.
  unfold parseHeader.
  destruct (parse_lines _ _) as [st| |] eqn:E; simpl; try discriminate.
  intros [= <-]. simpl. unfold resolve. rewrite in_map_iff.
  intros ([p|] & Hp & _); [|discriminate].
  pose proof (parse_lines_store_ok _ _ _ E ltac:(constructor)) as Hok.
  exact (Forall_lookup_1 _ _ _ _ Hok Hp).
Qed.

Lemma parsed_elements_ok_witness : element_ok vertex_element.
Proof.
  apply (parsed_elements_ok two_element_header 169 two_element_ply).
  - vm_compute. reflexivity.
  - simpl. now left.
Defined.

Lemma split_lines_no_newline s :
  Forall (fun l => all_chars cls_dot l = true) (split_lines s).
Proof.
  induction s as [|c s IH]; simpl; [repeat constructor|].
  destruct (Ascii.eqb c newline) eqn:Ec; [constructor; [reflexivity|exact IH]|].
  destruct (split_lines s) as [|l ls]; [repeat constructor; simpl|].
  - unfold cls_dot. now rewrite Ec.
  - inversion IH as [|? ? Hl Hls]; subst. constructor; [|exact Hls].
    simpl. unfold cls_dot at 1. now rewrite Ec.
Qed.

Lemma rComment_line text :
  all_chars cls_dot text = true ->
  FindAllStringSubmatch rFormat ("comment " ++ text) = [] /\
  FindAllStringSubmatch rComment ("comment " ++ text)
  = [[("comment " ++ text)%string; text]].
Proof.
  intros Hdot. split; [reflexivity|].
  unfold FindAllStringSubmatch, rComment, regExpComment.
  cbn [rmatch]. unfold match_lit. rewrite strip_prefix_same.
  cbn [flat_map]. destruct (star_splits_all _ _ Hdot) as [tl ->].
  cbn [map fst snd app]. reflexivity.
Qed.

Lemma rComment_no_prefix line :
  strip_prefix "comment " line = None ->
  FindAllStringSubmatch rComment line = [].
Proof.
  intros H. unfold FindAllStringSubmatch, rComment, regExpComment.
  cbn [rmatch]. unfold match_lit. now rewrite H.
Qed.

Lemma parse_line_keeps_comment line st st1 :
  FindAllStringSubmatch rComment line = [] ->
  parse_line line st = Ok st1 -> ps_Comment st1 = ps_Comment st.
Proof.
  unfold parse_line, parse_property_and_end. intros ->.
  repeat (destruct (FindAllStringSubmatch _ line); try (intros [= <-]; reflexivity));
    destruct (ps_curr st); try discriminate;
    try (destruct (ps_store st !! _)); try discriminate;
    simpl; destruct (String.eqb line headerEnd); intros [= <-]; reflexivity.
Qed.

Lemma parse_lines_keep_comment lines st st1 :
  Forall (fun l => FindAllStringSubmatch rComment l = []) lines ->
  parse_lines lines st = Ok st1 -> ps_Comment st1 = ps_Comment st.
Proof.
  intros HF. revert st. induction HF as [|l lines Hl _ IH]; intros st; simpl.
  - now intros [= <-].
  - destruct (parse_line l st) as [st2| |] eqn:E; simpl; try discriminate.
    intros H. rewrite (IH _ H). eapply parse_line_keeps_comment; eassumption.
Qed.

(** X6: the comment of a parsed header is the text after "comment " of
    the last line that starts with "comment "; earlier comment lines are
    overwritten, none is accumulated. *)
Theorem last_comment_line_wins hs offset ply pre text post :
  parseHeader hs offset = Ok ply ->
  split_lines hs = pre ++ ("comment " ++ text)%string :: post ->
  Forall (fun l => strip_prefix "comment " l = None) post ->
  hdr_Comment (ply_header ply) = text.
Proof.
  unfold parseHeader. intros Hp Hs Hpost.
  assert (Hdot : all_chars cls_dot ("comment " ++ text) = true).
  { pose proof (split_lines_no_newline hs) as HF. rewrite Hs in HF.
    apply Forall_app in HF as [_ HF]. now inversion HF. }
  destruct (rComment_line text Hdot) as [Hf Hc].
  rewrite Hs, parse_lines_app in Hp.
  destruct (parse_lines pre _) as [st1| |]; cbn [rbind] in Hp; try discriminate.
  cbn [parse_lines] in Hp. unfold parse_line in Hp at 1.
  rewrite Hf, Hc in Hp. cbn [rbind sub nth] in Hp.
  destruct (parse_lines post _) as [st2| |] eqn:E; cbn [rbind] in Hp;
    try discriminate.
  injection Hp as <-. cbn [ply_header hdr_Comment].
  rewrite (parse_lines_keep_comment _ _ _ ltac:(eapply Forall_impl;
             [exact Hpost|apply rComment_no_prefix]) E).
  reflexivity.
Qed.

Lemma last_comment_line_wins_witness :
  exists ply,
    parseHeader two_comments_header 0 = Ok ply /\
    hdr_Comment (ply_header ply) = "the second one".
Proof.
  eexists. split; [vm_compute; reflexivity|].
  apply (last_comment_line_wins two_comments_header 0 _
           ["ply"; "comment first"; "format binary_little_endian 1.0"]
           "the second one" ["element vertex 0"; "end_header"; ""]).
  - vm_compute; reflexivity.
  - vm_compute; reflexivity.
  - repeat constructor.
Defined.

(** ** Nil entries and lookups *)

Lemma parse_line_entries line st st1 :
  parse_line line st = Ok st1 ->
  curr_valid st -> entries_valid st ->
  curr_valid st1 /\ entries_valid st1.
Proof.
  unfold parse_line, parse_property_and_end, curr_valid, entries_valid.
  intros H (p & Hp & Hlt) Hent.
  destruct (FindAllStringSubmatch rFormat line);
    [|injection H as <-; simpl; eauto].
  destruct (FindAllStringSubmatch rComment line);
    [|injection H as <-; simpl; eauto].
  destruct (FindAllStringSubmatch rElement line).
  - rewrite Hp in H. destruct (lookup_lt_is_Some_2 _ _ Hlt) as [e He].
    rewrite He in H.
    destruct (FindAllStringSubmatch rProperty line); simpl in H;
      destruct (String.eqb line headerEnd); injection H as <-; simpl;
      try rewrite length_insert; (split; [eauto|]); try assumption;
      apply Forall_app; (split; [assumption|]); repeat constructor; eauto.
  - injection H as <-. simpl. rewrite Hp, length_app. simpl. split.
    + eexists. split; [reflexivity|lia].
    + apply Forall_app. split.
      * eapply Forall_impl; [exact Hent|]. intros x (q & -> & Hq).
        exists q. split; [reflexivity|lia].
      * repeat constructor. exists p. split; [reflexivity|lia].
Qed.

Lemma parse_lines_entries lines st st1 :
  parse_lines lines st = Ok st1 ->
  curr_valid st -> entries_valid st ->
  entries_valid st1.
Proof.
  revert st. induction lines as [|line lines IH]; intros st; simpl.
  - now intros [= <-].
  - destruct (parse_line line st) as [st2| |] eqn:E; simpl; try discriminate.
    intros H Hc He. destruct (parse_line_entries _ _ _ E Hc He). eauto.
Qed.

Lemma parse_line_before_element line st st1 :
  parse_line line st = Ok st1 ->
  ps_curr st = None -> ps_Elements st = [] -> line <> headerEnd ->
  (ps_curr st1 = None /\ ps_Elements st1 = []) \/
  (curr_valid st1 /\ entries_valid st1).
Proof.
  unfold parse_line, parse_property_and_end, curr_valid, entries_valid.
  intros H Hnil Hel Hne.
  destruct (FindAllStringSubmatch rFormat line);
    [|injection H as <-; simpl; auto].
  destruct (FindAllStringSubmatch rComment line);
    [|injection H as <-; simpl; auto].
  destruct (FindAllStringSubmatch rElement line).
  - rewrite Hnil in H.
    destruct (FindAllStringSubmatch rProperty line); [|discriminate].
    simpl in H. destruct (String.eqb_spec line headerEnd); [contradiction|].
    injection H as <-. auto.
  - injection H as <-. simpl. right. rewrite Hnil, Hel, length_app. simpl.
    split; [eexists; split; [reflexivity|lia]|constructor].
Qed.

Lemma Has_loop_total es name :
  Forall (fun x => x <> None) es -> exists b, Has_loop es name = Ok b.
Proof.
  induction 1 as [|[e|] es Hx _ IH]; simpl; [eauto| |congruence].
  destruct (String.eqb (elem_Name e) name); eauto.
Qed.

Lemma getElementOffset_loop_total es name offset :
  Forall (fun x => x <> None) es ->
  exists o, getElementOffset_loop es name offset = Ok o.
Proof.
  intros H. revert offset.
  induction H as [|[e|] es Hx _ IH]; intros offset; simpl; [eauto| |congruence].
  destruct (String.eqb (elem_Name e) name); simpl; eauto.
Qed.

Lemma getElement_loop_total es name :
  Forall (fun x => x <> None) es -> exists o, getElement_loop es name = Ok o.
Proof.
  induction 1 as [|[e|] es Hx _ IH]; simpl; [eauto| |congruence].
  destruct (String.eqb (elem_Name e) name); eauto.
Qed.

Lemma parse_lines_before_element pre st st1 :
  parse_lines pre st = Ok st1 ->
  Forall (fun l => l <> headerEnd) pre ->
  (ps_curr st = None /\ ps_Elements st = []) \/
  (curr_valid st /\ entries_valid st) ->
  (ps_curr st1 = None /\ ps_Elements st1 = []) \/
  (curr_valid st1 /\ entries_valid st1).
Proof.
  intros H HF. revert st H.
  induction HF as [|line pre Hl _ IH]; intros st; simpl.
  - now intros [= <-].
  - destruct (parse_line line st) as [st2| |] eqn:E; simpl; try discriminate.
    intros H K. apply (IH _ H).
    destruct K as [[Hn He]|[Hc He]].
    + eapply parse_line_before_element; eassumption.
    + right. eapply parse_line_entries; eassumption.
Qed.

(** X7: when no terminator line comes before the first element line of
    the header, no entry of the parsed element list is nil, and then Has
    answers for every name and GetElementReader never panics. *)
Theorem elements_non_nil hs offset ply pre el post :
  parseHeader hs offset = Ok ply ->
  split_lines hs = pre ++ el :: post ->
  Forall (fun l => l <> headerEnd) pre ->
  FindAllStringSubmatch rFormat el = [] ->
  FindAllStringSubmatch rComment el = [] ->
  FindAllStringSubmatch rElement el <> [] ->
  Forall (fun x => x <> None) (hdr_Elements (ply_header ply)) /\
  forall name,
    (exists b, Has ply name = Ok b) /\
    (forall msg, GetElementReader ply name <> Panic msg).
Proof.
  unfold parseHeader. intros Hp Hs Hpre Hf Hc He.
  rewrite Hs, parse_lines_app in Hp.
  destruct (parse_lines pre _) as [st1| |] eqn:E1; simpl in Hp; try discriminate.
  pose proof (parse_lines_before_element _ _ _ E1 Hpre
                (or_introl (conj eq_refl eq_refl))) as K1.
  destruct (parse_line el st1) as [st2| |] eqn:E2; simpl in Hp; try discriminate.
  assert (J2 : curr_valid st2 /\ entries_valid st2).
  { unfold parse_line in E2. rewrite Hf, Hc in E2.
    destruct (FindAllStringSubmatch rElement el); [congruence|].
    injection E2 as <-. unfold curr_valid, entries_valid. simpl.
    rewrite length_app. simpl. split; [eexists; split; [reflexivity|lia]|].
    destruct K1 as [[Hn Hel]|[(p & Hp1 & Hlt) Hent]].
    - rewrite Hn, Hel. constructor.
    - rewrite Hp1. apply Forall_app. split.
      + eapply Forall_impl; [exact Hent|]. intros x (q & -> & Hq).
        exists q. split; [reflexivity|lia].
      + repeat constructor. exists p. split; [reflexivity|lia]. }
  destruct (parse_lines post st2) as [st3| |] eqn:E3; simpl in Hp;
    try discriminate.
  injection Hp as <-. cbn [ply_header hdr_Elements].
  pose proof (parse_lines_entries _ _ _ E3 (proj1 J2) (proj2 J2)) as Hent.
  assert (Hnn : Forall (fun x => x <> None) (resolve st3)).
  { unfold resolve. apply Forall_map. eapply Forall_impl; [exact Hent|].
    intros x (p & -> & Hlt). simpl.
    destruct (lookup_lt_is_Some_2 _ _ Hlt) as [e ->]. discriminate. }
  split; [exact Hnn|]. intros name.
  unfold GetElementReader, getElementOffset, Has. cbn [ply_header hdr_Elements].
  split; [now apply Has_loop_total|]. intros msg.
  destruct (Has_loop (resolve st3) name) as [[|]| |] eqn:EH;
    try (destruct (Has_loop_total _ name Hnn) as [b Hb]; congruence);
    [|simpl; discriminate].
  simpl. destruct (getElementOffset_loop_total _ name 0 Hnn) as [o ->]. simpl.
  pose proof (getElement_after_Has
                (mkPlyFile hs (mkHeader (ps_Format st3) (ps_Comment st3) offset
                                 (resolve st3))) name EH) as [e He'].
  rewrite He'. simpl. discriminate.
Qed.

Lemma elements_non_nil_witness :
  exists b, Has two_element_ply "edge" = Ok b.
Proof.
  destruct (elements_non_nil two_element_header 169 two_element_ply
              ["ply"; "format binary_little_endian 1.0"; "comment two elements"]
              "element vertex 2"
              ["property double x"; "property short y"; "property uchar red";
               "element face 3"; "property int a"; "end_header"; ""])
    as [_ H].
  - vm_compute. reflexivity.
  - vm_compute. reflexivity.
  - repeat (constructor; [vm_compute; intros [=]|]). constructor.
  - reflexivity.
  - reflexivity.
  - vm_compute. discriminate.
  - exact (proj1 (H "edge")).
Defined.

Lemma Has_loop_true es name :
  Has_loop es name = Ok true ->
  exists e, getElement_loop es name = Ok (Some e) /\
            In (Some e) es /\ elem_Name e = name /\
            forall offset, exists o, getElementOffset_loop es name offset = Ok o.
Proof.
  induction es as [|[e|] es IH]; simpl; try discriminate.
  destruct (String.eqb_spec (elem_Name e) name) as [Hn|Hn]; simpl.
  - intros _. exists e. eauto 6.
  - intros H. destruct (IH H) as (e1 & H1 & H2 & H3 & H4).
    exists e1. eauto 6.
Qed.

Lemma Has_loop_false es name :
  Has_loop es name = Ok false ->
  Forall (fun x => exists e, x = Some e /\ elem_Name e <> name) es.
Proof.
  induction es as [|[e|] es IH]; simpl; try discriminate; [constructor|].
  destruct (String.eqb_spec (elem_Name e) name) as [Hn|Hn]; [discriminate|].
  intros H. constructor; eauto.
Qed.

Lemma Has_loop_Panic es name msg :
  Has_loop es name = Panic msg -> msg = nil_deref /\ In None es.
Proof.
  induction es as [|[e|] es IH]; simpl; try discriminate.
  - destruct (String.eqb (elem_Name e) name); [discriminate|].
    intros H. destruct (IH H). auto.
  - intros [= <-]. auto.
Qed.

Lemma Has_loop_not_Err es name e : Has_loop es name <> Err e.
Proof.
  induction es as [|[e1|] es IH]; simpl; try discriminate.
  destruct (String.eqb (elem_Name e1) name); [discriminate|exact IH].
Qed.

(** X8: what GetElementReader returns.  A reader is for an element of
    the schema that has the requested name, with the cursor at 0.  The
    only error is "unknown element '<name>'", returned exactly when the
    list was searched to its end without finding the name (and then
    getElementOffset is -1).  The only panic is the dereference of a nil
    entry met before the name. *)
Theorem GetElementReader_result ply name :
  match GetElementReader ply name with
  | Ok r =>
      In (Some (rd_element r)) (hdr_Elements (ply_header ply)) /\
      elem_Name (rd_element r) = name /\ rd_pos r = 0 /\
      Has ply name = Ok true
  | Err e =>
      e = ErrNew ("unknown element '" ++ name ++ "'") /\
      Has ply name = Ok false /\
      getElementOffset ply name = Ok (-1) /\
      Forall (fun x => exists e1, x = Some e1 /\ elem_Name e1 <> name)
             (hdr_Elements (ply_header ply))
  | Panic msg => msg = nil_deref /\ In None (hdr_Elements (ply_header ply))
  end.
Proof.
  unfold GetElementReader, getElementOffset, getElement, Has.
  destruct (Has_loop (hdr_Elements (ply_header ply)) name) as [[|]|e|msg] eqn:EH;
    simpl.
  - destruct (Has_loop_true _ _ EH) as (e & H1 & H2 & H3 & H4).
    destruct (H4 0) as [o ->]. simpl. rewrite H1. simpl. auto.
  - split; [reflexivity|]. split; [reflexivity|]. split; [reflexivity|].
    now apply Has_loop_false.
  - now apply Has_loop_not_Err in EH.
  - now apply Has_loop_Panic in EH.
Qed.

(** ** The cursor *)

Lemma decode_props_not_Err props offset buf t e :
  decode_props props offset buf t <> Err e.
Proof.
  destruct t as [fs|v|].
  - rewrite decode_props_struct.
    destruct (decode_fields props offset buf fs) eqn:E; simpl;
      [discriminate|now apply decode_fields_not_Err in E|discriminate].
  - revert offset. induction props as [|p props IH]; intros offset; simpl;
      [discriminate|apply IH].
  - destruct props; simpl; discriminate.
Qed.

(** When the loops complete, the struct they leave is the decoded one. *)
Lemma decode_props_left_Ok props offset buf t t1 :
  decode_props props offset buf t = Ok t1 ->
  decode_props_left props offset buf t = t1.
Proof.
  revert offset t. induction props as [|p props IH]; intros offset t; simpl.
  - now intros [= <-].
  - destruct (decode_prop p offset buf t) as [t2| |]; simpl; try discriminate.
    apply IH.
Qed.

Lemma set_fields_left_self p offset buf fs :
  agree [p] fs (set_fields_left p offset buf fs).
Proof.
  unfold agree. induction fs as [|g fs IH]; simpl; [constructor|].
  destruct (String.eqb_spec (ftag g) (prop_Name p)) as [Hm|Hm].
  - destruct (store p offset buf g) as [g1| |] eqn:Es;
      try (apply (agree_refl [p] (g :: fs))).
    constructor; [|exact IH].
    split; [eapply store_shape; eassumption|].
    simpl. rewrite Hm, String.eqb_refl.
    destruct (case_type (prop_Type p)) eqn:Hc; simpl; [discriminate|].
    intros _. unfold store in Es. rewrite Hc in Es. congruence.
  - constructor; [|exact IH]. split; [apply same_shape_refl|reflexivity].
Qed.

Lemma agree_cons_l p props a b : agree [p] a b -> agree (p :: props) a b.
Proof.
  unfold agree. intros H. eapply Forall2_impl; [exact H|].
  intros fa fb [Hs He]. split; [exact Hs|]. simpl. intros Hw.
  apply He. simpl. apply orb_false_iff in Hw as [-> _]. reflexivity.
Qed.

Lemma agree_step p props a b c :
  agree [p] a b -> agree props b c -> agree (p :: props) a c.
Proof.
  unfold agree. intros H1 H2. eapply Forall2_compose; [|exact H1|exact H2].
  intros f f2 f1 [S1 E1] [S2 E2]. split; [eapply same_shape_trans; eassumption|].
  simpl. intros Hw. apply orb_false_iff in Hw as [Hw1 Hw2].
  rewrite (E1 ltac:(simpl; now rewrite Hw1)). apply E2.
  destruct S1 as (_ & -> & _). exact Hw2.
Qed.

(** A panic in the middle of the loops leaves a struct of the same type
    in which only fields that some property stores into can have
    changed. *)
Lemma decode_props_left_agree buf props :
  forall offset t,
    agree_target props t (decode_props_left props offset buf t).
Proof.
  induction props as [|p props IH]; intros offset t.
  - destruct t; simpl; auto using agree_refl.
  - cbn [decode_props_left]. destruct t as [fs|v|].
    + cbn [decode_prop decode_prop_left].
      destruct (set_fields p offset buf fs) as [fs1| |] eqn:E; cbn [rbind].
      * specialize (IH (wrap64 (offset + prop_Size p)) (PtrStruct fs1)).
        destruct (decode_props_left props _ buf (PtrStruct fs1)) as [fs2|v|];
          simpl in IH; try contradiction.
        simpl. eapply agree_step; [|exact IH].
        apply set_fields_self in E. unfold agree.
        eapply Forall2_impl; [exact E|]. intros f f2 [Hs He].
        split; [exact Hs|]. simpl. rewrite orb_false_r. exact He.
      * simpl. apply agree_cons_l, set_fields_left_self.
      * simpl. apply agree_cons_l, set_fields_left_self.
    + cbn [decode_prop]. apply (IH _ (PtrOther v)).
    + simpl. exact I.
Qed.

Lemma ReadNext_reader w :
  rd_offset (w_reader (snd (ReadNext w))) = rd_offset (w_reader w) /\
  rd_element (w_reader (snd (ReadNext w))) = rd_element (w_reader w) /\
  content (w_file (snd (ReadNext w))) = content (w_file w) /\
  match fst (ReadNext w) with
  | Ok n =>
      rd_pos (w_reader w) < elem_Count (rd_element (w_reader w)) /\
      n = wrap64 (rd_pos (w_reader w) + 1) /\
      rd_pos (w_reader (snd (ReadNext w))) = n
  | Err _ =>
      rd_pos (w_reader (snd (ReadNext w))) = rd_pos (w_reader w) /\
      w_target (snd (ReadNext w)) = w_target w
  | Panic _ =>
      rd_pos (w_reader (snd (ReadNext w))) = rd_pos (w_reader w) /\
      agree_target (elem_Properties (rd_element (w_reader w)))
                   (w_target w) (w_target (snd (ReadNext w)))
  end.
Proof.
  assert (Hrefl : forall ps t, agree_target ps t t)
    by (intros ps [a|v|]; simpl; auto using agree_refl).
  destruct w as [[c p cl tr] r t].
  unfold ReadNext, file_Seek. simpl.
  destruct cl; simpl; [repeat split; reflexivity|].
  destruct (_ <? 0); simpl; [repeat split; reflexivity|].
  destruct (PointByteSize (rd_element r) <? 0); simpl;
    [repeat split; try reflexivity; apply Hrefl|].
  destruct (Z.leb_spec (elem_Count (rd_element r)) (rd_pos r)); simpl;
    [repeat split; reflexivity|].
  unfold file_Read. simpl.
  destruct (lenB (repeat x00 _) =? 0); simpl.
  - destruct (decode_props _ _ _ t) eqn:E; simpl;
      [repeat split; try reflexivity; lia
      |now apply decode_props_not_Err in E|].
    repeat split; try reflexivity. apply decode_props_left_agree.
  - destruct (lenB c <=? _); simpl; [repeat split; reflexivity|].
    destruct (decode_props _ _ _ t) eqn:E; simpl;
      [repeat split; try reflexivity; lia
      |now apply decode_props_not_Err in E|].
    repeat split; try reflexivity. apply decode_props_left_agree.
Qed.


(** The stores that stay after a panic: the first vertex of
    [two_element_file] read into a struct whose field for red is a
    uint32.  The store of red panics; x and y are stored already, and
    the cursor stays at the index. *)
Example ReadAt_panic_keeps_earlier_stores :
  let w := mkWorld (os_Open two_element_file) (mkReader 1 169 vertex_element)
             (PtrStruct [mkField "Y" "y" (mkValue Tint16 0);
                         mkField "X" "x" (mkValue Tfloat64 0);
                         mkField "Extra" "" (mkValue Tint 5);
                         mkField "R" "red" (mkValue Tuint32 0)]) in
  fst (ReadAt 0 w)
  = Panic "reflect.Set: value is not assignable to the field's type" /\
  rd_pos (w_reader (snd (ReadAt 0 w))) = 0 /\
  w_target (snd (ReadAt 0 w))
  = PtrStruct [mkField "Y" "y" (mkValue Tint16 (-1));
               mkField "X" "x" (mkValue Tfloat64 1);
               mkField "Extra" "" (mkValue Tint 5);
               mkField "R" "red" (mkValue Tuint32 0)].
Proof. cbv zeta. repeat split; vm_compute; reflexivity. Qed.


Lemma apply_op_invariant o w :
  in_int64 (Count (w_reader w)) ->
  0 <= rd_pos (w_reader w) <= Count (w_reader w) ->
  rd_offset (w_reader (apply_op o w)) = rd_offset (w_reader w) /\
  rd_element (w_reader (apply_op o w)) = rd_element (w_reader w) /\
  content (w_file (apply_op o w)) = content (w_file w) /\
  0 <= rd_pos (w_reader (apply_op o w)) <= Count (w_reader w).
Proof.
  unfold Count, in_int64. intros Hr Hp.
  assert (HS : forall pos,
             rd_offset (snd (Seek (w_reader w) pos)) = rd_offset (w_reader w) /\
             rd_element (snd (Seek (w_reader w) pos)) = rd_element (w_reader w) /\
             0 <= rd_pos (snd (Seek (w_reader w) pos))
             <= elem_Count (rd_element (w_reader w))).
  { intros pos. unfold Seek.
    destruct (Z.ltb_spec pos 0); simpl; [auto|].
    destruct (Z.ltb_spec (elem_Count (rd_element (w_reader w))) pos); simpl;
      repeat split; try reflexivity; lia. }
  assert (HN : forall w0,
             rd_element (w_reader w0) = rd_element (w_reader w) ->
             0 <= rd_pos (w_reader w0) <= elem_Count (rd_element (w_reader w)) ->
             rd_offset (w_reader (snd (ReadNext w0))) = rd_offset (w_reader w0) /\
             rd_element (w_reader (snd (ReadNext w0))) = rd_element (w_reader w) /\
             content (w_file (snd (ReadNext w0))) = content (w_file w0) /\
             0 <= rd_pos (w_reader (snd (ReadNext w0)))
             <= elem_Count (rd_element (w_reader w))).
  { intros w0 He Hp0. pose proof (ReadNext_reader w0) as (H1 & H2 & H3 & H4).
    rewrite He in *. repeat split; try assumption.
    - destruct (fst (ReadNext w0)).
      + destruct H4 as (Hlt & -> & ->).
        rewrite wrap64_id by (unfold in_int64; lia). lia.
      + destruct H4 as [-> _]. lia.
      + destruct H4 as [-> _]. lia.
    - destruct (fst (ReadNext w0)).
      + destruct H4 as (Hlt & -> & ->).
        rewrite wrap64_id by (unfold in_int64; lia). lia.
      + destruct H4 as [-> _]. lia.
      + destruct H4 as [-> _]. lia. }
  assert (HA : forall pos,
             rd_offset (w_reader (snd (ReadAt pos w))) = rd_offset (w_reader w) /\
             rd_element (w_reader (snd (ReadAt pos w))) = rd_element (w_reader w) /\
             content (w_file (snd (ReadAt pos w))) = content (w_file w) /\
             0 <= rd_pos (w_reader (snd (ReadAt pos w)))
             <= elem_Count (rd_element (w_reader w))).
  { intros pos. unfold ReadAt. specialize (HS pos).
    destruct (Seek (w_reader w) pos) as [[[]|e|msg] r1]; simpl in HS;
      destruct HS as (S1 & S2 & S3); simpl;
      try (repeat split; (assumption || reflexivity || lia)).
    specialize (HN (mkWorld (w_file w) r1 (w_target w)) S2 S3).
    destruct (ReadNext _) as [[n|e|msg] w1]; simpl in *;
      destruct HN as (N1 & N2 & N3 & N4); repeat split;
      try congruence; try lia. }
  destruct o as [pos| | |pos|]; simpl.
  - destruct (HS pos) as (S1 & S2 & S3). auto.
  - destruct (HS 0) as (S1 & S2 & S3). auto.
  - apply HN; auto.
  - apply HA.
  - apply HA.
Qed.

(** X10: whatever calls are made on a reader, in whatever order and with
    whatever outcome, its cursor stays within 0..Count, its base offset
    and element stay the same, and the file's content is not changed. *)
Theorem reader_invariant ops w :
  in_int64 (Count (w_reader w)) ->
  0 <= rd_pos (w_reader w) <= Count (w_reader w) ->
  rd_offset (w_reader (run_ops ops w)) = rd_offset (w_reader w) /\
  rd_element (w_reader (run_ops ops w)) = rd_element (w_reader w) /\
  content (w_file (run_ops ops w)) = content (w_file w) /\
  0 <= rd_pos (w_reader (run_ops ops w)) <= Count (w_reader w).
Proof.
  unfold run_ops. revert w. induction ops as [|o ops IH]; intros w Hr Hp; simpl.
  - auto.
  - destruct (apply_op_invariant o w Hr Hp) as (A1 & A2 & A3 & A4).
    assert (HC : Count (w_reader (apply_op o w)) = Count (w_reader w))
      by (unfold Count; now rewrite A2).
    destruct (IH (apply_op o w)) as (B1 & B2 & B3 & B4);
      rewrite ?HC; try assumption.
    repeat split; try congruence; lia.
Qed.

Lemma reader_invariant_witness :
  rd_pos (w_reader
            (run_ops [OpReadNext; OpReadAt 2; OpSeek 7; OpReadNext; OpReadFirst;
                      OpSeek 2; OpReadNext; OpReset]
               (mkWorld (os_Open two_element_file)
                  (mkReader 0 169 vertex_element) (vertex_target 0 0 0 0)))) <= 2.
Proof.
  exact (proj2 (proj2 (proj2 (proj2
           (reader_invariant
              [OpReadNext; OpReadAt 2; OpSeek 7; OpReadNext; OpReadFirst;
               OpSeek 2; OpReadNext; OpReset]
              (mkWorld (os_Open two_element_file)
                 (mkReader 0 169 vertex_element) (vertex_target 0 0 0 0))
              ltac:(vm_compute; split; [discriminate|reflexivity])
              ltac:(vm_compute; split; discriminate)))))).
Defined.

(** ** The scalar copy *)

Lemma byteZ_range b : 0 <= byteZ b < 256.
Proof.
  unfold byteZ. pose proof (Byte.to_N_bounded b). lia.
Qed.

Lemma byteZ_inj b1 b2 : byteZ b1 = byteZ b2 -> b1 = b2.
Proof.
  unfold byteZ. intros H. apply N2Z.inj in H.
  pose proof (Byte.of_to_N b1) as H1. pose proof (Byte.of_to_N b2) as H2.
  rewrite H in H1. congruence.
Qed.

Lemma le_value_range bs : 0 <= le_value bs < 256 ^ Z.of_nat (length bs).
Proof.
  induction bs as [|b bs IH]; [simpl; lia|].
  cbn [le_value length]. pose proof (byteZ_range b).
  rewrite Nat2Z.inj_succ, Z.pow_succ_r by lia. lia.
Qed.

Lemma le_value_inj bs1 bs2 :
  length bs1 = length bs2 -> le_value bs1 = le_value bs2 -> bs1 = bs2.
Proof.
  revert bs2. induction bs1 as [|b1 bs1 IH]; intros [|b2 bs2]; simpl;
    try discriminate; [reflexivity|].
  intros [= Hl] Hv. pose proof (byteZ_range b1). pose proof (byteZ_range b2).
  assert (byteZ b1 = byteZ b2 /\ le_value bs1 = le_value bs2) as [Hb Hr] by lia.
  rewrite (byteZ_inj _ _ Hb), (IH _ Hl Hr). reflexivity.
Qed.

Lemma pow256 n : 256 ^ n = 2 ^ (8 * n).
Proof.
  destruct (Z.le_gt_cases 0 n).
  - rewrite Z.pow_mul_r by lia. reflexivity.
  - rewrite !Z.pow_neg_r by lia. reflexivity.
Qed.

(** X11: the copy of at most sizeof(T) bytes into a zero variable of
    type T always gives a value T can hold, and it loses nothing: two
    byte strings of one length that give the same value are the same
    bytes. *)
Theorem memcpy_in_range_injective t :
  (forall bits v, memcpy bits t = Ok v -> vtype v = t /\ in_range t (vbits v)) /\
  (forall bits1 bits2 v,
      length bits1 = length bits2 ->
      memcpy bits1 t = Ok v -> memcpy bits2 t = Ok v -> bits1 = bits2).
Proof.
  assert (Hb : forall bits, lenB bits <= sizeof t ->
                            0 <= le_value bits < 2 ^ (8 * sizeof t)).
  { intros bits Hl. pose proof (le_value_range bits) as Hr.
    rewrite pow256 in Hr. unfold lenB in Hl.
    assert (2 ^ (8 * Z.of_nat (length bits)) <= 2 ^ (8 * sizeof t))
      by (apply Z.pow_le_mono_r; lia).
    lia. }
  assert (Hhalf : 2 ^ (8 * sizeof t) = 2 * 2 ^ (8 * sizeof t - 1)).
  { pose proof (sizeof_pos t). rewrite <- Z.pow_succ_r by lia. f_equal. lia. }
  split.
  - intros bits v H. apply memcpy_Ok in H as [Hl ->]. split; [reflexivity|].
    specialize (Hb bits Hl). unfold in_range, of_bits. cbn [vbits].
    destruct (is_signed t); cbn [andb]; [|lia].
    destruct (Z.leb_spec (2 ^ (8 * sizeof t - 1)) (le_value bits)); lia.
  - intros bits1 bits2 v Hlen H1 H2.
    apply memcpy_Ok in H1 as [Hl1 ->]. apply memcpy_Ok in H2 as [Hl2 [= Hv]].
    apply le_value_inj; [assumption|].
    pose proof (Hb bits1 Hl1). pose proof (Hb bits2 Hl2).
    unfold of_bits in Hv. destruct (is_signed t); cbn [andb] in Hv; [|lia].
    destruct (Z.leb_spec (2 ^ (8 * sizeof t - 1)) (le_value bits1));
      destruct (Z.leb_spec (2 ^ (8 * sizeof t - 1)) (le_value bits2)); lia.
Qed.

Lemma memcpy_in_range_injective_witness :
  in_range Tint16 (-2) /\ memcpy [xfe; xff] Tint16 = Ok (mkValue Tint16 (-2)).
Proof.
  assert (H : memcpy [xfe; xff] Tint16 = Ok (mkValue Tint16 (-2)))
    by reflexivity.
  split; [|exact H].
  exact (proj2 (proj1 (memcpy_in_range_injective Tint16) _ _ H)).
Defined.

(** ** Fields are decoded one by one *)

Lemma set_fields_single p offset buf f :
  set_fields p offset buf [f]
  = (do f1 <- (if String.eqb (ftag f) (prop_Name p)
               then store p offset buf f else Ok f);
     Ok [f1]).
Proof. simpl. destruct (if String.eqb _ _ then _ else _); reflexivity. Qed.

Lemma set_fields_pointwise p offset buf fs fs1 :
  set_fields p offset buf fs = Ok fs1 <->
  Forall2 (fun f f1 => set_fields p offset buf [f] = Ok [f1]) fs fs1.
Proof.
  revert fs1. induction fs as [|g fs IH]; intros fs1.
  - simpl. split; [intros [= <-]; constructor | intros H; now inversion H].
  - split.
    + intros H. change (set_fields p offset buf (g :: fs))
        with (do f1 <- (if String.eqb (ftag g) (prop_Name p)
                        then store p offset buf g else Ok g);
              do rest1 <- set_fields p offset buf fs;
              Ok (f1 :: rest1)) in H.
      destruct (if String.eqb (ftag g) (prop_Name p) then _ else _) as [g1| |] eqn:Eg;
        cbn [rbind] in H; try discriminate.
      destruct (set_fields p offset buf fs) as [r| |] eqn:Er; cbn [rbind] in H;
        try discriminate.
      injection H as <-. constructor; [|now apply IH].
      rewrite set_fields_single, Eg. reflexivity.
    + intros H. inversion H as [|? g1 ? r Hg Hr]; subst.
      rewrite set_fields_single in Hg.
      change (set_fields p offset buf (g :: fs))
        with (do f1 <- (if String.eqb (ftag g) (prop_Name p)
                        then store p offset buf g else Ok g);
              do rest1 <- set_fields p offset buf fs;
              Ok (f1 :: rest1)).
      destruct (if String.eqb (ftag g) (prop_Name p) then _ else _) as [g2| |];
        cbn [rbind] in Hg; try discriminate.
      injection Hg as ->. apply IH in Hr. rewrite Hr. reflexivity.
Qed.

Lemma Forall2_split {A} (R1 R2 : A -> A -> Prop) l1 l3 :
  Forall2 (fun a c => exists b, R1 a b /\ R2 b c) l1 l3 ->
  exists l2, Forall2 R1 l1 l2 /\ Forall2 R2 l2 l3.
Proof.
  induction 1 as [|a c l1 l3 (b & H1 & H2) _ (l2 & IH1 & IH2)].
  - exists []. split; constructor.
  - exists (b :: l2). split; constructor; assumption.
Qed.

Lemma decode_fields_cons p props offset buf fs :
  decode_fields (p :: props) offset buf fs
  = (do fs1 <- set_fields p offset buf fs;
     decode_fields props (wrap64 (offset + prop_Size p)) buf fs1).
Proof. reflexivity. Qed.

Lemma decode_fields_pointwise props offset buf fs fs1 :
  decode_fields props offset buf fs = Ok fs1 <->
  Forall2 (fun f f1 => decode_fields props offset buf [f] = Ok [f1]) fs fs1.
Proof.
  revert offset fs fs1. induction props as [|p props IH]; intros offset fs fs1.
  - simpl. split.
    + intros [= <-]. induction fs; constructor; auto.
    + induction 1 as [|f f1 fs fs1 [= <-] _ IHF]; [reflexivity|].
      injection IHF as <-. reflexivity.
  - split.
    + intros H. rewrite decode_fields_cons in H.
      destruct (set_fields p offset buf fs) as [fs2| |] eqn:E; cbn [rbind] in H;
        try discriminate.
      apply set_fields_pointwise in E. apply IH in H.
      eapply Forall2_compose; [|exact E|exact H].
      intros f f2 f1 H1 H2. cbv beta in *.
      rewrite decode_fields_cons, H1. exact H2.
    + intros H.
      destruct (Forall2_split
                  (fun f f2 => set_fields p offset buf [f] = Ok [f2])
                  (fun f2 f1 => decode_fields props (wrap64 (offset + prop_Size p))
                                  buf [f2] = Ok [f1]) fs fs1)
        as (fs2 & H1 & H2).
      { eapply Forall2_impl; [exact H|]. intros f f1 Hf. cbv beta in Hf.
        rewrite decode_fields_cons in Hf.
        destruct (set_fields p offset buf [f]) as [x| |] eqn:E; cbn [rbind] in Hf;
          try discriminate.
        pose proof (set_fields_length _ _ _ _ _ E) as Hl.
        destruct x as [|f2 [|]]; try discriminate. eauto. }
      apply set_fields_pointwise in H1. apply IH in H2.
      rewrite decode_fields_cons, H1. exact H2.
Qed.

Lemma Forall2_Permutation_l {A} (R : A -> A -> Prop) l l' m :
  Permutation l l' -> Forall2 R l m ->
  exists m', Permutation m m' /\ Forall2 R l' m'.
Proof.
  intros HP. revert m. induction HP as [|x l l' _ IH|x y l|l l' l'' _ IH1 _ IH2];
    intros m HF.
  - inversion HF. exists []. split; constructor.
  - inversion HF as [|? b ? m1 Hb Hm]; subst.
    destruct (IH _ Hm) as (m' & P & F). exists (b :: m'). split; constructor; auto.
  - inversion HF as [|? b ? m1 Hb Hm]; subst.
    inversion Hm as [|? c ? m2 Hc Hm2]; subst.
    exists (c :: b :: m2). split; [apply perm_swap|repeat constructor; auto].
  - destruct (IH1 _ HF) as (m' & P1 & F1). destruct (IH2 _ F1) as (m'' & P2 & F2).
    exists m''. split; [etransitivity; eassumption|assumption].
Qed.

(** X12: the decoder treats every field on its own.  A struct decodes
    exactly when each of its fields, taken alone, decodes, and to the
    same values; so the order of the fields in the target does not
    matter: a target with the fields in another order decodes the record
    too, to a reordering of the same decoded fields. *)
Theorem fields_decode_independently props buf fs :
  (forall fs1,
      decode_props props 0 buf (PtrStruct fs) = Ok (PtrStruct fs1) <->
      Forall2 (fun f f1 => decode_props props 0 buf (PtrStruct [f])
                           = Ok (PtrStruct [f1])) fs fs1) /\
  (forall fs1 fs',
      decode_props props 0 buf (PtrStruct fs) = Ok (PtrStruct fs1) ->
      Permutation fs fs' ->
      exists fs1',
        decode_props props 0 buf (PtrStruct fs') = Ok (PtrStruct fs1') /\
        Permutation fs1 fs1').
Proof.
  assert (Hone : forall a b,
             decode_props props 0 buf (PtrStruct a) = Ok (PtrStruct b) <->
             decode_fields props 0 buf a = Ok b).
  { intros a b. rewrite decode_props_struct.
    destruct (decode_fields props 0 buf a); simpl; split; congruence. }
  assert (Hall : forall fs0 fs1,
      decode_props props 0 buf (PtrStruct fs0) = Ok (PtrStruct fs1) <->
      Forall2 (fun f f1 => decode_props props 0 buf (PtrStruct [f])
                           = Ok (PtrStruct [f1])) fs0 fs1).
  { intros fs0 fs1. rewrite Hone, decode_fields_pointwise. split; intros H;
      (eapply Forall2_impl; [exact H|]); intros f f1; apply Hone. }
  split; [apply Hall|].
  intros fs1 fs' H HP. apply Hall in H.
  destruct (Forall2_Permutation_l _ _ _ _ HP H) as (m' & P & F).
  exists m'. split; [now apply Hall | exact P].
Qed.

Lemma fields_decode_independently_witness :
  exists fs1',
    decode_props (elem_Properties vertex_element) 0
      [x01; x00; x00; x00; x00; x00; x00; x00; xff; xff; x07]
      (vertex_target_reordered 0 0 0 5) = Ok (PtrStruct fs1') /\
    Permutation [mkField "Y" "y" (mkValue Tint16 (-1));
                 mkField "X" "x" (mkValue Tfloat64 1);
                 mkField "Extra" "" (mkValue Tint 5);
                 mkField "R" "red" (mkValue Tuint8 7)] fs1'.
Proof.
  apply (proj2 (fields_decode_independently (elem_Properties vertex_element)
                  [x01; x00; x00; x00; x00; x00; x00; x00; xff; xff; x07]
                  [mkField "Y" "y" (mkValue Tint16 0);
                   mkField "X" "x" (mkValue Tfloat64 0);
                   mkField "Extra" "" (mkValue Tint 5);
                   mkField "R" "red" (mkValue Tuint8 0)])).
  - vm_compute. reflexivity.
  - exact (Permutation_rev [mkField "Y" "y" (mkValue Tint16 0);
                            mkField "X" "x" (mkValue Tfloat64 0);
                            mkField "Extra" "" (mkValue Tint 5);
                            mkField "R" "red" (mkValue Tuint8 0)]).
Defined.

(** ** Reading an element whose records are all in the file *)

Lemma record_buffer_full bytes pos size :
  0 <= pos -> 0 <= size -> pos + size <= lenB bytes ->
  record_buffer bytes pos size = bits_at bytes pos (pos + size).
Proof.
  unfold record_buffer, bits_at, lenB. intros Hp Hs Hfit.
  replace (pos + size - pos) with size by lia.
  rewrite (drop_ge (repeat x00 _)); [now rewrite app_nil_r|].
  rewrite length_take, length_drop, repeat_length. lia.
Qed.

Lemma bits_at_length bytes lo hi :
  0 <= lo -> lo <= hi -> hi <= lenB bytes ->
  lenB (bits_at bytes lo hi) = hi - lo.
Proof.
  unfold bits_at, lenB. intros H1 H2 H3.
  rewrite length_take, length_drop. lia.
Qed.

Section Complete_body.
Variables (e : element) (offset : Z) (bytes : list byte) (fs0 : list field).
Let props := elem_Properties e.
Let size := sum_sizes props.
Hypothesis props_wf : Forall wf_property props.
Hypothesis fields_settable : Forall (settable props) fs0.
Hypothesis count_int64 : in_int64 (elem_Count e).
Hypothesis offset_nonneg : 0 <= offset.
Hypothesis bytes_int64 : in_int64 (lenB bytes).
Hypothesis body_complete : offset + elem_Count e * size <= lenB bytes.

Lemma ReadNext_n_complete n :
  forall i f ts,
    0 <= i -> i + Z.of_nat n <= elem_Count e ->
    content f = bytes -> closed f = false ->
    agree_target props (PtrStruct fs0) ts ->
    exists vs,
      ReadNext_n n (mkWorld f (mkReader i offset e) ts) = Ok vs /\
      forall k, (k < n)%nat ->
        exists v,
          vs !! k = Some v /\
          decode_props props 0
            (bits_at bytes (offset + (i + Z.of_nat k) * size)
                           (offset + (i + Z.of_nat k) * size + size))
            (PtrStruct fs0) = Ok v.
Proof using props_wf fields_settable count_int64 offset_nonneg bytes_int64
  body_complete.
  pose proof (sum_sizes_nonneg _ props_wf) as Hnn. fold size in Hnn.
  induction n as [|n IH]; intros i f ts Hi Hn Hc Hcl Hag.
  - exists []. split; [reflexivity|]. intros k Hk. lia.
  - assert (Hrec : 0 <= i * size /\ offset + i * size + size
                                    <= offset + elem_Count e * size).
    { split; [apply Z.mul_nonneg_nonneg; lia|].
      assert ((i + 1) * size <= elem_Count e * size)
        by (apply Z.mul_le_mono_nonneg_r; lia).
      lia. }
    destruct Hrec as [Hlo Hhi].
    assert (Hsize : PointByteSize e = size).
    { rewrite PointByteSize_running. fold props.
      rewrite running_offset_sum; fold size;
        [lia|assumption|lia|unfold in_int64 in *; lia]. }
    assert (Hrp : record_position (mkReader i offset e) = offset + i * size).
    { unfold record_position. cbn [rd_offset rd_pos rd_element].
      rewrite Hsize. rewrite !wrap64_id; unfold in_int64 in *; try lia.
      rewrite wrap64_id; unfold in_int64; lia. }
    set (ws := mkWorld f (mkReader i offset e) ts).
    destruct (ReadNext_decodes ws) as (f2 & Hc2 & Hcl2 & HR);
      cbn [ws w_reader w_file w_target rd_element rd_pos].
    + exact Hcl.
    + rewrite Hrp. lia.
    + rewrite Hsize. exact Hnn.
    + lia.
    + rewrite Hrp, Hsize, Hc.
      destruct (Z.eq_dec size 0); [now left|right; lia].
    + cbn [ws w_reader w_file w_target rd_element rd_pos] in HR.
      rewrite Hrp, Hsize, Hc in HR. fold props in HR.
      rewrite record_buffer_full in HR by lia.
      rewrite <- (decode_props_agree props 0 _ _ _ Hag) in HR.
      set (buf := bits_at bytes (offset + i * size) (offset + i * size + size))
        in *.
      assert (Hlen : lenB buf = size)
        by (unfold buf; rewrite bits_at_length; lia).
      destruct (decode_fields_total props 0 buf fs0) as [fs1 Hd];
        try assumption; [lia|rewrite Hlen; fold size; lia|
                         rewrite Hlen; unfold in_int64 in *; lia|].
      assert (Hv : decode_props props 0 buf (PtrStruct fs0) = Ok (PtrStruct fs1))
        by (rewrite decode_props_struct, Hd; reflexivity).
      rewrite Hv in HR.
      cbn [ReadNext_n]. fold ws. rewrite HR.
      unfold set_pos. cbn [rd_offset rd_element].
      rewrite wrap64_id by (unfold in_int64 in *; lia).
      destruct (IH (i + 1) f2 (PtrStruct fs1)) as (rest & Hrest & Hks);
        [lia|lia|rewrite Hc2; exact Hc|exact Hcl2|
         exact (decode_props_self _ _ _ _ _ Hv)|].
      rewrite Hrest. cbn [rbind w_target].
      exists (PtrStruct fs1 :: rest). split; [reflexivity|].
      intros [|k] Hk.
      * exists (PtrStruct fs1). split; [reflexivity|].
        replace (i + Z.of_nat 0) with i by lia. exact Hv.
      * destruct (Hks k ltac:(lia)) as (v & Hl & Hdv).
        exists v. split; [exact Hl|].
        replace (i + Z.of_nat (S k)) with (i + 1 + Z.of_nat k) by lia.
        exact Hdv.
Qed.
End Complete_body.

(** X13: an element whose records are all in the file is read
    completely.  On an open file that holds count records of the
    element from the reader's offset on, with properties as parseHeader
    builds them and a struct whose bound fields have the properties'
    types, Reset and count calls of ReadNext all succeed, and the i-th
    value is the decoding of the bytes from offset + i * size to
    offset + (i + 1) * size of the file, whatever the earlier calls left
    in the target. *)
Theorem complete_body_is_read w fs :
  let r := w_reader w in
  let props := elem_Properties (rd_element r) in
  let size := sum_sizes props in
  let bytes := content (w_file w) in
  w_target w = PtrStruct fs ->
  closed (w_file w) = false ->
  Forall wf_property props ->
  Forall (settable props) fs ->
  0 <= Count r -> in_int64 (Count r) ->
  0 <= rd_offset r -> in_int64 (lenB bytes) ->
  rd_offset r + Count r * size <= lenB bytes ->
  exists vs,
    read_sequentially w = Ok vs /\
    length vs = Z.to_nat (Count r) /\
    forall i, 0 <= i < Count r ->
      exists v,
        vs !! Z.to_nat i = Some v /\
        decode_props props 0
          (bits_at bytes (rd_offset r + i * size) (rd_offset r + (i + 1) * size))
          (w_target w) = Ok v.
Proof.
  destruct w as [f [pos offset e] t]. unfold Count.
  cbn [w_reader w_file w_target rd_element rd_offset rd_pos].
  intros -> Hcl Hwf Hset Hc0 Hc Ho Hb Hfit.
  destruct (ReadNext_n_complete e offset (content f) fs Hwf Hset Hc Ho Hb Hfit
              (Z.to_nat (elem_Count e)) 0 f (PtrStruct fs))
    as (vs & Hvs & Hks);
    [lia|lia|reflexivity|exact Hcl|apply agree_refl|].
  assert (Heq : read_sequentially (mkWorld f (mkReader pos offset e) (PtrStruct fs))
                = ReadNext_n (Z.to_nat (elem_Count e))
                    (mkWorld f (mkReader 0 offset e) (PtrStruct fs))).
  { unfold read_sequentially, Reset, Seek, Count. simpl.
    destruct (Z.ltb_spec (elem_Count e) 0); [lia|]. reflexivity. }
  exists vs. rewrite Heq. split; [exact Hvs|].
  split; [exact (ReadNext_n_length _ _ _ Hvs)|].
  intros i Hi. destruct (Hks (Z.to_nat i) ltac:(lia)) as (v & Hl & Hd).
  exists v. split; [exact Hl|].
  rewrite Z2Nat.id, Z.add_0_l in Hd by lia.
  replace (offset + (i + 1) * sum_sizes (elem_Properties e))
    with (offset + i * sum_sizes (elem_Properties e)
          + sum_sizes (elem_Properties e)) by lia.
  exact Hd.
Qed.

Lemma complete_body_is_read_witness :
  exists vs,
    read_sequentially (mkWorld (os_Open two_element_file)
                         (mkReader 1 169 vertex_element) (vertex_target 0 0 0 5))
    = Ok vs /\
    length vs = 2%nat /\
    forall i, 0 <= i < 2 ->
      exists v,
        vs !! Z.to_nat i = Some v /\
        decode_props (elem_Properties vertex_element) 0
          (bits_at two_element_file (169 + i * 11) (169 + (i + 1) * 11))
          (vertex_target 0 0 0 5) = Ok v.
Proof.
  apply (complete_body_is_read
           (mkWorld (os_Open two_element_file)
              (mkReader 1 169 vertex_element) (vertex_target 0 0 0 5))
           [mkField "Y" "y" (mkValue Tint16 0);
            mkField "X" "x" (mkValue Tfloat64 0);
            mkField "Extra" "" (mkValue Tint 5);
            mkField "R" "red" (mkValue Tuint8 0)]).
  - reflexivity.
  - reflexivity.
  - repeat constructor.
  - repeat (constructor;
            [intros p t [<-|[<-|[<-|[]]]]; try discriminate;
             intros _ [= <-]; split; reflexivity|]).
    constructor.
  - vm_compute. discriminate.
  - vm_compute. split; [discriminate|reflexivity].
  - vm_compute. discriminate.
  - vm_compute. split; [discriminate|reflexivity].
  - vm_compute. discriminate.
Defined.

(** ** After Close *)

Lemma file_Close_closed f : closed (snd (file_Close f)) = true.
Proof. unfold file_Close. destruct (closed f) eqn:E; [exact E|reflexivity]. Qed.

Lemma ReadNext_closed w :
  closed (w_file w) = true -> ReadNext w = (Err ErrClosed, w).
Proof.
  destruct w as [f r t]. simpl. intros H.
  unfold ReadNext, file_Seek. simpl. rewrite H. reflexivity.
Qed.

Lemma apply_op_closed o w :
  closed (w_file w) = true ->
  w_file (apply_op o w) = w_file w /\ w_target (apply_op o w) = w_target w.
Proof.
  intros H. destruct o as [pos| | |pos|]; simpl.
  - split; reflexivity.
  - split; reflexivity.
  - rewrite ReadNext_closed by exact H. split; reflexivity.
  - unfold ReadAt, Seek.
    destruct ((pos <? 0) || _); [split; reflexivity|].
    rewrite ReadNext_closed by exact H. split; reflexivity.
  - unfold ReadFirst, ReadAt, Seek.
    destruct ((0 <? 0) || _); [split; reflexivity|].
    rewrite ReadNext_closed by exact H. split; reflexivity.
Qed.

(** X14: after Close nothing is read.  Close leaves the file closed; a
    second Close reports the file as closed already; on the closed file
    ReadNext fails before it reads or decodes anything, and no sequence
    of Seek, Reset, ReadNext, ReadAt and ReadFirst touches the file or
    the target. *)
Theorem nothing_is_read_after_Close ply file ops w :
  w_file w = snd (snd (Close ply file)) ->
  closed (w_file w) = true /\
  fst (Close (fst (snd (Close ply file))) (w_file w)) = Some ErrClosed /\
  ReadNext w = (Err ErrClosed, w) /\
  w_file (run_ops ops w) = w_file w /\
  w_target (run_ops ops w) = w_target w.
Proof.
  intros Hf.
  assert (Hcl : closed (w_file w) = true)
    by (rewrite Hf; unfold Close; cbn [snd]; apply file_Close_closed).
  split; [exact Hcl|].
  split; [unfold Close at 1; cbn [fst]; unfold file_Close; now rewrite Hcl|].
  split; [apply ReadNext_closed; exact Hcl|].
  clear Hf. revert w Hcl. unfold run_ops.
  induction ops as [|o ops IH]; intros w Hcl; [split; reflexivity|].
  cbn [fold_left].
  destruct (apply_op_closed o w Hcl) as [Hfile Htgt].
  destruct (IH (apply_op o w)) as [H1 H2]; [now rewrite Hfile|].
  split; congruence.
Qed.

Lemma nothing_is_read_after_Close_witness :
  closed (snd (snd (Close two_element_ply (os_Open two_element_file)))) = true /\
  w_target (run_ops [OpReadFirst; OpSeek 1; OpReadNext; OpReadAt 0]
              (mkWorld (snd (snd (Close two_element_ply
                                    (os_Open two_element_file))))
                 (mkReader 0 169 vertex_element) (vertex_target 0 0 0 5)))
  = vertex_target 0 0 0 5.
Proof.
  destruct (nothing_is_read_after_Close two_element_ply
              (os_Open two_element_file)
              [OpReadFirst; OpSeek 1; OpReadNext; OpReadAt 0]
              (mkWorld (snd (snd (Close two_element_ply
                                    (os_Open two_element_file))))
                 (mkReader 0 169 vertex_element) (vertex_target 0 0 0 5))
              eq_refl) as (H1 & _ & _ & _ & H2).
  split; [exact H1|exact H2].
Defined.

(** ** ReadPly: the layout it reads from the header *)

Lemma addProperty_size props name ptype :
  plyreader.addProperty props name ptype
  = props ++ [plyreader.mkPlyProperty name (propertySize ptype)].
Proof.
  unfold plyreader.addProperty, propertySize, propertySizes, map_get.
  repeat rewrite (String.eqb_sym _ ptype).
  repeat (destruct (String.eqb ptype _); [reflexivity|]). reflexivity.
Qed.

Lemma header_property_spec props line :
  plyreader.header_property props line = props \/
  exists p, plyreader.header_property props line = props ++ [p] /\ pp_ok p.
Proof.
  unfold plyreader.header_property.
  destruct (FindAllStringSubmatch rProperty line) as [|row tl] eqn:E;
    [left; reflexivity|].
  destruct ((0 <? _)%nat && _); [|left; reflexivity].
  right. rewrite addProperty_size. eexists. split; [reflexivity|].
  destruct (rProperty_groups _ _ E) as [Hty Hname]; [discriminate|].
  split; [|exact Hname]. cbn [plyreader.pp_Size].
  revert Hty. generalize (sub (row :: tl) 0 1). intros ty. unfold type_tokens.
  simpl. intros [<-|[<-|[<-|[<-|[<-|[<-|[<-|[<-|[]]]]]]]]]; vm_compute; tauto.
Qed.

Lemma header_properties_acc lines acc :
  Forall pp_ok acc ->
  Forall pp_ok (fold_left plyreader.header_property lines acc) /\
  (length (fold_left plyreader.header_property lines acc)
   <= length acc + length lines)%nat.
Proof.
  revert acc. induction lines as [|l lines IH]; intros acc Hacc; simpl;
    [split; [exact Hacc|lia]|].
  destruct (header_property_spec acc l) as [->|(p & -> & Hp)].
  - destruct (IH acc Hacc) as [H1 H2]. split; [exact H1|lia].
  - destruct (IH (acc ++ [p])) as [H1 H2].
    + apply Forall_app. split; [exact Hacc|]. constructor; [exact Hp|constructor].
    + split; [exact H1|]. rewrite length_app in H2. simpl in H2. lia.
Qed.

Lemma split_lines_length s :
  (length (split_lines s) <= S (String.length s))%nat.
Proof.
  induction s as [|c s IH]; simpl; [lia|].
  destruct (Ascii.eqb c newline); simpl; [lia|].
  destruct (split_lines s); simpl in *; lia.
Qed.

Lemma sum_pp_range props :
  Forall pp_ok props ->
  Z.of_nat (length props) <= sum_pp props <= 8 * Z.of_nat (length props).
Proof.
  induction 1 as [|p props [Hp _] _ IH]; simpl; [lia|].
  simpl in Hp. lia.
Qed.

Lemma pointByteSize_sum_from props acc :
  Forall pp_ok props -> 0 <= acc -> in_int64 (acc + sum_pp props) ->
  fold_left (fun size prop => wrap64 (size + plyreader.pp_Size prop)) props acc
  = acc + sum_pp props.
Proof.
  intros HF. revert acc. induction HF as [|p props Hp HF IH]; intros acc Ha Hfit;
    simpl in *; [lia|].
  pose proof (sum_pp_range _ HF). destruct Hp as [Hp _]. simpl in Hp.
  rewrite wrap64_id by (unfold in_int64 in *; lia).
  rewrite IH; [lia|lia|unfold in_int64 in *; lia].
Qed.

Lemma declared_properties_ok bytes :
  Forall pp_ok (declared_properties bytes) /\
  (length (declared_properties bytes) <= S (length bytes))%nat.
Proof.
  unfold declared_properties, plyreader.header_properties.
  destruct (header_properties_acc (split_lines (header_text bytes)) [])
    as [H1 H2]; [constructor|].
  split; [exact H1|]. simpl in H2.
  pose proof (split_lines_length (header_text bytes)) as H3.
  assert (String.length (header_text bytes) <= length bytes)%nat; [|lia].
  unfold header_text, file_text.
  rewrite <- sob_take, sob_length, length_take. lia.
Qed.

(** ** ReadPly: decoding one point *)

Lemma slice_in_bounds buf lo hi :
  0 <= lo -> lo <= hi -> hi <= lenB buf ->
  slice buf lo hi = Ok (bits_at buf lo hi).
Proof.
  intros H1 H2 H3. unfold slice, bits_at.
  destruct (Z.ltb_spec lo 0); [lia|].
  destruct (Z.ltb_spec hi lo); [lia|].
  destruct (Z.ltb_spec (lenB buf) hi); [lia|]. reflexivity.
Qed.

Lemma copy_named_other name off p offset buf mem :
  plyreader.pp_Name p <> name ->
  plyreader.copy_named name off p offset buf mem = Ok mem.
Proof.
  unfold plyreader.copy_named. intros H.
  destruct (String.eqb_spec (plyreader.pp_Name p) name); [contradiction|].
  reflexivity.
Qed.

Section Copy_named.
Variables (name : string) (off : nat) (p : plyreader.PlyProperty).
Variables (offset : Z) (buf mem : list byte).
Hypothesis name_hit : plyreader.pp_Name p = name.
Hypothesis size_ok : 0 <= plyreader.pp_Size p.
Hypothesis offset_ok : 0 <= offset.
Hypothesis in_buf : offset + plyreader.pp_Size p <= lenB buf.
Hypothesis buf_int64 : in_int64 (lenB buf).
Hypothesis mem_length : length mem = plyreader.point_bytes.

Lemma copy_named_hit :
  (off + Z.to_nat (plyreader.pp_Size p) <= plyreader.point_bytes)%nat ->
  plyreader.copy_named name off p offset buf mem
  = Ok (take off mem
        ++ bits_at buf offset (offset + plyreader.pp_Size p)
        ++ drop (off + Z.to_nat (plyreader.pp_Size p)) mem).
Proof using name_hit size_ok offset_ok in_buf buf_int64 mem_length.
  intros Hfit. unfold plyreader.copy_named.
  rewrite <- name_hit, String.eqb_refl.
  rewrite wrap64_id by (unfold in_int64 in *; lia).
  rewrite slice_in_bounds by lia. cbn [rbind].
  unfold plyreader.memcpy.
  assert (Hl : length (bits_at buf offset (offset + plyreader.pp_Size p))
               = Z.to_nat (plyreader.pp_Size p)).
  { pose proof (bits_at_length buf offset (offset + plyreader.pp_Size p)) as H.
    unfold lenB in H at 2. lia. }
  rewrite Hl, mem_length.
  destruct (Nat.ltb_spec plyreader.point_bytes
              (off + Z.to_nat (plyreader.pp_Size p))); [lia|reflexivity].
Qed.

Lemma copy_named_past :
  (plyreader.point_bytes < off + Z.to_nat (plyreader.pp_Size p))%nat ->
  plyreader.copy_named name off p offset buf mem
  = Panic "memcpy: write past the destination".
Proof using name_hit size_ok offset_ok in_buf buf_int64 mem_length.
  intros Hfit. unfold plyreader.copy_named.
  rewrite <- name_hit, String.eqb_refl.
  rewrite wrap64_id by (unfold in_int64 in *; lia).
  rewrite slice_in_bounds by lia. cbn [rbind].
  unfold plyreader.memcpy.
  assert (Hl : length (bits_at buf offset (offset + plyreader.pp_Size p))
               = Z.to_nat (plyreader.pp_Size p)).
  { pose proof (bits_at_length buf offset (offset + plyreader.pp_Size p)) as H.
    unfold lenB in H at 2. lia. }
  rewrite Hl, mem_length.
  destruct (Nat.ltb_spec plyreader.point_bytes
              (off + Z.to_nat (plyreader.pp_Size p))); [reflexivity|lia].
Qed.
End Copy_named.

Lemma overwrite_length (mem bits : list byte) off :
  (off + length bits <= length mem)%nat ->
  length (take off mem ++ bits ++ drop (off + length bits) mem) = length mem.
Proof. intros H. rewrite !length_app, length_take, length_drop. lia. Qed.

Ltac skip_other_names :=
  repeat (rewrite copy_named_other
            by (simpl; first [assumption | discriminate]);
          cbn [rbind]).

Lemma copy_fields_outcome p offset buf mem :
  pp_ok p -> 0 <= offset -> offset + plyreader.pp_Size p <= lenB buf ->
  in_int64 (lenB buf) -> length mem = plyreader.point_bytes ->
  if writes_past p
  then plyreader.copy_fields p offset buf mem
       = Panic "memcpy: write past the destination"
  else exists mem1, plyreader.copy_fields p offset buf mem = Ok mem1 /\
                    length mem1 = plyreader.point_bytes.
Proof.
  destruct p as [name size]. unfold pp_ok, writes_past. cbn [plyreader.pp_Size plyreader.pp_Name].
  intros [Hsz _] Ho Hfit Hbuf Hmem.
  assert (Hlen : forall n, 0 <= n -> offset + n <= lenB buf ->
                 length (bits_at buf offset (offset + n)) = Z.to_nat n).
  { intros n Hn Hb. pose proof (bits_at_length buf offset (offset + n)) as H.
    unfold lenB in H at 2. lia. }
  assert (Hres : forall off n, 0 <= n -> offset + n <= lenB buf ->
                 (off + Z.to_nat n <= plyreader.point_bytes)%nat ->
                 length (take off mem ++ bits_at buf offset (offset + n)
                         ++ drop (off + Z.to_nat n) mem)
                 = plyreader.point_bytes).
  { intros off n Hn Hb Hoff. rewrite <- Hmem. rewrite <- (Hlen n Hn Hb).
    apply overwrite_length. rewrite Hlen by assumption. lia. }
  unfold plyreader.copy_fields.
  destruct (String.eqb_spec name "x") as [->|Hx];
    [|destruct (String.eqb_spec name "y") as [->|Hy];
      [|destruct (String.eqb_spec name "z") as [->|Hz];
        [|destruct (String.eqb_spec name "red") as [->|Hr];
          [|destruct (String.eqb_spec name "green") as [->|Hg];
            [|destruct (String.eqb_spec name "blue") as [->|Hb]]]]]];
    cbn [String.eqb Ascii.eqb Bool.eqb orb andb];
    rewrite ?andb_false_r.
  - skip_other_names.
    rewrite (copy_named_hit "x");
      [|reflexivity|simpl in *; lia|assumption|assumption|assumption|assumption
       |simpl in *; unfold plyreader.point_bytes, plyreader.off_X; lia].
    cbn [rbind]. skip_other_names. eexists. split; [reflexivity|].
    apply Hres; simpl in *; unfold plyreader.point_bytes, plyreader.off_X; lia.
  - skip_other_names.
    rewrite (copy_named_hit "y");
      [|reflexivity|simpl in *; lia|assumption|assumption|assumption|assumption
       |simpl in *; unfold plyreader.point_bytes, plyreader.off_Y; lia].
    cbn [rbind]. skip_other_names. eexists. split; [reflexivity|].
    apply Hres; simpl in *; unfold plyreader.point_bytes, plyreader.off_Y; lia.
  - skip_other_names.
    rewrite (copy_named_hit "z");
      [|reflexivity|simpl in *; lia|assumption|assumption|assumption|assumption
       |simpl in *; unfold plyreader.point_bytes, plyreader.off_Z; lia].
    cbn [rbind]. skip_other_names. eexists. split; [reflexivity|].
    apply Hres; simpl in *; unfold plyreader.point_bytes, plyreader.off_Z; lia.
  - skip_other_names.
    rewrite (copy_named_hit "red");
      [|reflexivity|simpl in *; lia|assumption|assumption|assumption|assumption
       |simpl in *; unfold plyreader.point_bytes, plyreader.off_R; lia].
    cbn [rbind]. skip_other_names. eexists. split; [reflexivity|].
    apply Hres; simpl in *; unfold plyreader.point_bytes, plyreader.off_R; lia.
  - rewrite ?orb_true_r, ?andb_true_r.
    skip_other_names.
    destruct (Z.eqb_spec size 8) as [->|H8].
    + rewrite (copy_named_past "green");
        [reflexivity|reflexivity|simpl; lia|assumption|assumption|assumption
         |assumption|simpl; unfold plyreader.point_bytes, plyreader.off_G; lia].
    + rewrite (copy_named_hit "green");
        [|reflexivity|simpl in *; lia|assumption|assumption|assumption|assumption
         |simpl in *; unfold plyreader.point_bytes, plyreader.off_G; lia].
      cbn [rbind]. skip_other_names. eexists. split; [reflexivity|].
      apply Hres; simpl in *; unfold plyreader.point_bytes, plyreader.off_G; lia.
  - rewrite ?orb_true_r, ?andb_true_r.
    skip_other_names.
    destruct (Z.eqb_spec size 8) as [->|H8].
    + rewrite (copy_named_past "blue");
        [reflexivity|reflexivity|simpl; lia|assumption|assumption|assumption
         |assumption|simpl; unfold plyreader.point_bytes, plyreader.off_B; lia].
    + rewrite (copy_named_hit "blue");
        [|reflexivity|simpl in *; lia|assumption|assumption|assumption|assumption
         |simpl in *; unfold plyreader.point_bytes, plyreader.off_B; lia].
      eexists. split; [reflexivity|].
      apply Hres; simpl in *; unfold plyreader.point_bytes, plyreader.off_B; lia.
  - skip_other_names. eexists. split; [reflexivity|assumption].
Qed.

Lemma decode_point_outcome buf props :
  Forall pp_ok props ->
  forall offset mem,
    0 <= offset -> offset + sum_pp props <= lenB buf ->
    in_int64 (lenB buf) -> length mem = plyreader.point_bytes ->
    if existsb writes_past props
    then plyreader.decode_point props offset buf mem
         = Panic "memcpy: write past the destination"
    else exists mem1, plyreader.decode_point props offset buf mem = Ok mem1 /\
                      length mem1 = plyreader.point_bytes.
Proof.
  induction 1 as [|p props Hp HF IH]; intros offset mem Ho Hfit Hbuf Hmem.
  - simpl. eexists. split; [reflexivity|assumption].
  - pose proof (sum_pp_range _ HF) as Hsum.
    assert (Hsz : 1 <= plyreader.pp_Size p <= 8)
      by (destruct Hp as [Hp _]; simpl in Hp; lia).
    assert (Hfit1 : offset + plyreader.pp_Size p <= lenB buf)
      by (change (sum_pp (p :: props))
            with (plyreader.pp_Size p + sum_pp props) in Hfit; lia).
    assert (Hfit2 : offset + plyreader.pp_Size p + sum_pp props <= lenB buf)
      by (change (sum_pp (p :: props))
            with (plyreader.pp_Size p + sum_pp props) in Hfit; lia).
    cbn [existsb plyreader.decode_point].
    pose proof (copy_fields_outcome p offset buf mem Hp Ho Hfit1 Hbuf Hmem)
      as Hc.
    destruct (writes_past p).
    + rewrite Hc. reflexivity.
    + destruct Hc as (mem1 & -> & Hl1). cbn [rbind orb].
      rewrite wrap64_id by (unfold in_int64 in *; lia).
      apply IH; [lia|lia|assumption|assumption].
Qed.

(** ** ReadPly: the loop over the body *)

Section Read_points.
Variables (bytes : list byte) (props : list plyreader.PlyProperty).
Let size := sum_pp props.
Hypothesis props_ok : Forall pp_ok props.
Hypothesis size_pos : 1 <= size.
Hypothesis bytes_int64 : in_int64 (lenB bytes).
Hypothesis size_int64 : in_int64 size.
Hypothesis no_overflow : existsb writes_past props = false.

Lemma read_points_spec fuel :
  forall f buf points,
    content f = bytes -> closed f = false ->
    0 <= fpos f <= lenB bytes ->
    lenB buf = size ->
    (Z.to_nat (lenB bytes - fpos f) < fuel)%nat ->
    exists new f1,
      plyreader.read_points fuel props f buf points
      = Some (Ok (points ++ new), f1) /\
      content f1 = bytes /\ closed f1 = false /\
      Z.of_nat (length new) = (lenB bytes - fpos f + size - 1) / size /\
      (forall i, 0 <= i -> fpos f + (i + 1) * size <= lenB bytes ->
         exists mem,
           plyreader.decode_point props 0
             (bits_at bytes (fpos f + i * size) (fpos f + (i + 1) * size))
             plyreader.zero_point = Ok mem /\
           new !! Z.to_nat i = Some (plyreader.load mem)) /\
      (forall q m, 0 <= q -> 0 < m < size ->
         lenB bytes - fpos f = q * size + m ->
         exists mem,
           plyreader.decode_point props 0
             (bits_at bytes (fpos f + q * size) (lenB bytes)
              ++ drop (Z.to_nat m)
                   (if q =? 0 then buf
                    else bits_at bytes (fpos f + (q - 1) * size)
                                       (fpos f + q * size)))
             plyreader.zero_point = Ok mem /\
           new !! Z.to_nat q = Some (plyreader.load mem)).
Proof using props_ok size_pos bytes_int64 size_int64 no_overflow.
  induction fuel as [|fuel IH]; intros f buf points Hc Hopen Hp Hbuf Hfuel;
    [lia|].
  cbn [plyreader.read_points]. unfold file_Read. rewrite Hopen, Hbuf, Hc.
  destruct (Z.eqb_spec size 0); [lia|].
  destruct (Z.leb_spec (lenB bytes) (fpos f)) as [Hend|Hmore].
  - (* end of the file *)
    cbn [is_EOF]. exists [], (log (EvRead size 0) f).
    rewrite app_nil_r. split; [reflexivity|].
    split; [exact Hc|]. split; [exact Hopen|].
    assert (Hpe : fpos f = lenB bytes) by lia.
    split; [|split].
    + rewrite Hpe. replace (lenB bytes - lenB bytes + size - 1) with (size - 1)
        by lia.
      rewrite Z.div_small by lia. reflexivity.
    + intros i Hi Hfit. exfalso.
      assert (0 < (i + 1) * size) by (apply Z.mul_pos_pos; lia). lia.
    + intros q m Hq Hm Heq. exfalso.
      assert (0 <= q * size) by (apply Z.mul_nonneg_nonneg; lia). lia.
  - (* a read that delivers bytes *)
    cbn [is_EOF].
    set (data := take (length buf) (drop (Z.to_nat (fpos f)) bytes)).
    set (buf1 := data ++ drop (length data) buf).
    assert (Hlb : length buf = Z.to_nat size) by (unfold lenB in Hbuf; lia).
    assert (Hdata : lenB data = Z.min size (lenB bytes - fpos f)).
    { unfold data, lenB in *. rewrite length_take, length_drop. lia. }
    assert (Hbuf1 : lenB buf1 = size).
    { unfold buf1, lenB in *. rewrite length_app, length_drop. lia. }
    pose proof (decode_point_outcome buf1 props props_ok 0 plyreader.zero_point
                  ltac:(lia) ltac:(fold size; lia)
                  ltac:(rewrite Hbuf1; exact size_int64) eq_refl) as Hd.
    rewrite no_overflow in Hd. destruct Hd as (mem & Hd & _).
    rewrite Hd.
    match goal with
    | |- context [plyreader.read_points fuel props ?g _ _] => set (f1 := g)
    end.
    destruct (IH f1 buf1 (points ++ [plyreader.load mem]))
      as (new & f2 & HR & Hc2 & Ho2 & Hn & Hfull & Hpart);
      [reflexivity|reflexivity|simpl; lia|exact Hbuf1|simpl; lia|].
    exists (plyreader.load mem :: new), f2.
    split; [rewrite HR, <- app_assoc; reflexivity|].
    split; [exact Hc2|]. split; [exact Ho2|].
    cbn [fpos f1] in Hn, Hfull, Hpart.
    destruct (Z.le_gt_cases size (lenB bytes - fpos f)) as [Hwhole|Hshort].
    + (* a whole record *)
      assert (Hld : lenB data = size) by lia.
      assert (Hb1 : buf1 = bits_at bytes (fpos f) (fpos f + size)).
      { unfold buf1. rewrite drop_ge, app_nil_r by (unfold lenB in *; lia).
        unfold data, bits_at. rewrite Hlb. f_equal. lia. }
      rewrite Hld in Hn, Hfull, Hpart.
      split; [|split].
      * cbn [length]. rewrite Nat2Z.inj_succ, Hn.
        replace (lenB bytes - fpos f + size - 1)
          with (lenB bytes - (fpos f + size) + size - 1 + 1 * size) by lia.
        rewrite Z.div_add by lia. lia.
      * intros i Hi Hfit.
        destruct (Z.eq_dec i 0) as [->|Hnz].
        -- exists mem. split; [|reflexivity].
           replace (fpos f + 0 * size) with (fpos f) by lia.
           replace (fpos f + (0 + 1) * size) with (fpos f + size) by lia.
           rewrite <- Hb1. exact Hd.
        -- destruct (Hfull (i - 1)) as (mem' & Hd' & Hl'); [lia|lia|].
           exists mem'. split.
           ++ replace (fpos f + i * size)
                with (fpos f + size + (i - 1) * size) by lia.
              replace (fpos f + (i + 1) * size)
                with (fpos f + size + (i - 1 + 1) * size) by lia.
              exact Hd'.
           ++ replace (Z.to_nat i) with (S (Z.to_nat (i - 1))) by lia.
              exact Hl'.
      * intros q m Hq Hm Heq.
        assert (Hq1 : 1 <= q).
        { destruct (Z.eq_dec q 0) as [->|]; [lia|lia]. }
        destruct (Hpart (q - 1) m) as (mem' & Hd' & Hl'); [lia|lia|lia|].
        exists mem'. split.
        -- destruct (Z.eqb_spec q 0); [lia|].
           replace (fpos f + q * size)
             with (fpos f + size + (q - 1) * size) by lia.
           destruct (Z.eqb_spec (q - 1) 0) as [Hq0|Hqn].
           ++ rewrite Hb1 in Hd'.
              replace (fpos f + (q - 1) * size) with (fpos f) by lia.
              replace (fpos f + size + (q - 1) * size) with (fpos f + size)
                in * by lia.
              exact Hd'.
           ++ replace (fpos f + (q - 1) * size)
                with (fpos f + size + (q - 1 - 1) * size) by lia.
              exact Hd'.
        -- replace (Z.to_nat q) with (S (Z.to_nat (q - 1))) by lia.
           exact Hl'.
    + (* the rest of the file, shorter than a record *)
      assert (Hld : lenB data = lenB bytes - fpos f) by lia.
      assert (Hdat : data = bits_at bytes (fpos f) (lenB bytes)).
      { unfold data, bits_at. rewrite !take_ge; [reflexivity| |];
          rewrite length_drop; unfold lenB in *; lia. }
      rewrite Hld in Hn.
      replace (lenB bytes - (fpos f + (lenB bytes - fpos f)) + size - 1)
        with (size - 1) in Hn by lia.
      rewrite Z.div_small in Hn by lia.
      destruct new; [|simpl in Hn; lia].
      split; [|split].
      * cbn [length].
        replace (lenB bytes - fpos f + size - 1)
          with (lenB bytes - fpos f - 1 + 1 * size) by lia.
        rewrite Z.div_add by lia. rewrite Z.div_small by lia. reflexivity.
      * intros i Hi Hfit. exfalso.
        assert (size <= (i + 1) * size) by nia. lia.
      * intros q m Hq Hm Heq.
        assert (q = 0) by nia. subst q.
        assert (m = lenB bytes - fpos f) by lia. subst m.
        exists mem. split; [|reflexivity].
        cbn [Z.eqb]. replace (fpos f + 0 * size) with (fpos f) by lia.
        rewrite <- Hdat. unfold buf1 in Hd.
        replace (Z.to_nat (lenB bytes - fpos f)) with (length data)
          by (unfold lenB in *; lia).
        exact Hd.
Qed.
End Read_points.

Lemma read_points_at_end fuel props f buf points :
  closed f = false -> lenB buf <> 0 -> lenB (content f) <= fpos f ->
  plyreader.read_points (S fuel) props f buf points
  = Some (Ok points, log (EvRead (lenB buf) 0) f).
Proof.
  intros Hopen Hbuf Hend. cbn [plyreader.read_points]. unfold file_Read.
  rewrite Hopen. destruct (Z.eqb_spec (lenB buf) 0); [contradiction|].
  destruct (Z.leb_spec (lenB (content f)) (fpos f)); [reflexivity|lia].
Qed.

Lemma read_points_past fuel props f buf points :
  Forall pp_ok props -> existsb writes_past props = true ->
  closed f = false -> lenB buf = sum_pp props -> in_int64 (sum_pp props) ->
  0 <= fpos f < lenB (content f) ->
  exists f1,
    plyreader.read_points (S fuel) props f buf points
    = Some (Panic "memcpy: write past the destination", f1) /\
    content f1 = content f /\ closed f1 = false.
Proof.
  intros Hok Hover Hopen Hbuf Hint Hp.
  pose proof (sum_pp_range _ Hok) as Hsum.
  assert (Hne : 1 <= sum_pp props).
  { destruct props; [discriminate|]. simpl length in Hsum. lia. }
  cbn [plyreader.read_points]. unfold file_Read. rewrite Hopen.
  destruct (Z.eqb_spec (lenB buf) 0); [lia|].
  destruct (Z.leb_spec (lenB (content f)) (fpos f)); [lia|].
  cbn [is_EOF].
  set (data := take (length buf) (drop (Z.to_nat (fpos f)) (content f))).
  set (buf1 := data ++ drop (length data) buf).
  assert (Hbuf1 : lenB buf1 = sum_pp props).
  { unfold buf1, data, lenB in *.
    rewrite length_app, length_drop, length_take, length_drop. lia. }
  pose proof (decode_point_outcome buf1 props Hok 0 plyreader.zero_point
                ltac:(lia) ltac:(lia)
                ltac:(rewrite Hbuf1; exact Hint) eq_refl) as Hd.
  rewrite Hover in Hd. rewrite Hd.
  eexists. split; [reflexivity|]. split; reflexivity.
Qed.

(** What ReadPly returns, for every file (shorter than 2^59 bytes, so
    that no size can leave the int range). *)
Lemma ReadPly_spec bytes :
  lenB bytes < 2 ^ 59 ->
  let props := declared_properties bytes in
  let off := terminator_pos bytes + 11 in
  let size := sum_pp props in
  exists r f,
    plyreader.ReadPly bytes = (r, f) /\ closed f = true /\ content f = bytes /\
    match r with
    | Ok points =>
        terminator_pos bytes <> -1 /\ ~ terminator_at_read_end bytes /\
        props <> [] /\ off <= lenB bytes /\ 1 <= size /\
        (existsb writes_past props = true -> off = lenB bytes) /\
        Z.of_nat (length points) = (lenB bytes - off + size - 1) / size /\
        (forall i, 0 <= i -> off + (i + 1) * size <= lenB bytes ->
           exists mem,
             plyreader.decode_point props 0
               (bits_at bytes (off + i * size) (off + (i + 1) * size))
               plyreader.zero_point = Ok mem /\
             points !! Z.to_nat i = Some (plyreader.load mem)) /\
        (forall q m, 0 <= q -> 0 < m < size ->
           lenB bytes - off = q * size + m ->
           exists mem,
             plyreader.decode_point props 0
               (bits_at bytes (off + q * size) (lenB bytes)
                ++ drop (Z.to_nat m)
                     (if q =? 0 then repeat x00 (Z.to_nat size)
                      else bits_at bytes (off + (q - 1) * size)
                                         (off + q * size)))
               plyreader.zero_point = Ok mem /\
             points !! Z.to_nat q = Some (plyreader.load mem))
    | Err e =>
        (e = ErrNew "failed read header" /\ terminator_pos bytes = -1) \/
        (e = ErrNew "failed read header properties" /\
         terminator_pos bytes <> -1 /\ ~ terminator_at_read_end bytes /\
         props = [])
    | Panic msg =>
        (msg = slice_bounds /\ terminator_pos bytes <> -1 /\
         terminator_at_read_end bytes) \/
        (msg = "memcpy: write past the destination" /\
         terminator_pos bytes <> -1 /\ ~ terminator_at_read_end bytes /\
         existsb writes_past props = true /\ off < lenB bytes)
    end.
Proof.
  intros Hsmall. cbv zeta.
  remember (declared_properties bytes) as props eqn:Eprops.
  set (off := terminator_pos bytes + 11). set (size := sum_pp props).
  assert (Hlen0 : 0 <= lenB bytes) by (unfold lenB; lia).
  unfold plyreader.ReadPly, plyreader.ReadPly_fuel.
  pose proof (readHeader_loop_fuel (S (length bytes)) (os_Open bytes) "") as Hf.
  destruct (readHeader_loop _ _ _) as [[r f1]|] eqn:E;
    [|exfalso; apply Hf; simpl; unfold lenB; [lia|lia|reflexivity]].
  clear Hf.
  pose proof (readHeader_loop_spec bytes _ (os_Open bytes) "" r f1
                eq_refl eq_refl
                ltac:(simpl; lia) (or_introl eq_refl) eq_refl eq_refl E)
    as (Hc & Ho & Hr).
  assert (Hclose : forall g, closed g = false -> content g = bytes ->
            closed (snd (file_Close g)) = true /\
            content (snd (file_Close g)) = bytes).
  { intros g Hg Hcg. unfold file_Close. rewrite Hg. simpl. auto. }
  destruct r as [[h hoff]|e|msg].
  - destruct Hr as (Hpos & Hoff & Hh & Hnot).
    fold off in Hoff. subst hoff.
    assert (Hprops : plyreader.header_properties (split_lines h) = props)
      by (rewrite Hh, Eprops; reflexivity).
    rewrite Hprops.
    destruct (declared_properties_ok bytes) as [Hok Hcount].
    rewrite <- Eprops in Hok, Hcount.
    pose proof (sum_pp_range _ Hok) as Hsum. fold size in Hsum.
    assert (Hfit : 0 <= size < 2 ^ 63) by (unfold lenB in *; lia).
    assert (Hoff : 11 <= off <= lenB bytes).
    { pose proof (strings_Index_range _ _ Hpos) as [H1 H2].
      fold (terminator_pos bytes) in H1, H2.
      unfold file_text, lenZ in H2. rewrite sob_length in H2.
      change (Z.of_nat (String.length "end_header")) with 10 in H2.
      unfold terminator_at_read_end in Hnot. unfold off, lenB in *. lia. }
    assert (Hsize : plyreader.pointByteSize props = size).
    { unfold plyreader.pointByteSize.
      rewrite pointByteSize_sum_from; fold size;
        [lia|exact Hok|lia|unfold in_int64; lia]. }
    clear Eprops Hprops.
    destruct props as [|p0 props0].
    + destruct (Hclose f1 Ho Hc) as [H1 H2].
      eexists _, _. split; [reflexivity|]. split; [exact H1|].
      split; [exact H2|]. right. auto.
    + assert (Hs1 : 1 <= size) by (simpl length in Hsum; lia).
      set (ps := p0 :: props0) in *.
      cbv iota. rewrite Hsize.
      destruct (Z.ltb_spec size 0); [lia|].
      unfold file_Seek. rewrite Ho.
      destruct (Z.ltb_spec off 0); [lia|].
      set (f2 := mkFile (content f1) off false (trace f1 ++ [EvSeek off])).
      assert (Hbuf : lenB (repeat x00 (Z.to_nat size)) = size)
        by (unfold lenB; rewrite repeat_length; lia).
      assert (Hne : ps <> []) by discriminate.
      destruct (existsb writes_past ps) eqn:Eover.
      * destruct (Z.eq_dec off (lenB bytes)) as [Hend|Hmore].
        -- rewrite read_points_at_end;
             [|reflexivity|lia|simpl; rewrite Hc; lia].
           destruct (Hclose (log (EvRead (lenB (repeat x00 (Z.to_nat size))) 0) f2))
             as [H1 H2]; [reflexivity|exact Hc|].
           eexists _, _. split; [reflexivity|]. split; [exact H1|].
           split; [exact H2|].
           split; [exact Hpos|]. split; [exact Hnot|]. split; [exact Hne|].
           split; [lia|]. split; [exact Hs1|]. split; [intros _; exact Hend|].
           split; [|split].
           ++ rewrite Hend.
              replace (lenB bytes - lenB bytes + size - 1) with (size - 1) by lia.
              rewrite Z.div_small by lia. reflexivity.
           ++ intros i Hi Hrec. exfalso.
              assert (0 < (i + 1) * size) by (apply Z.mul_pos_pos; lia). lia.
           ++ intros q m Hq Hm Heq. exfalso.
              assert (0 <= q * size) by (apply Z.mul_nonneg_nonneg; lia). lia.
        -- destruct (read_points_past (length bytes) ps f2
                       (repeat x00 (Z.to_nat size)) [])
             as (f3 & -> & Hc3 & Ho3);
             [exact Hok|exact Eover|reflexivity|exact Hbuf
             |unfold in_int64; fold size; lia|simpl; rewrite Hc; lia|].
           destruct (Hclose f3 Ho3) as [H1 H2]; [rewrite Hc3; exact Hc|].
           eexists _, _. split; [reflexivity|]. split; [exact H1|].
           split; [exact H2|]. right.
           split; [reflexivity|]. split; [exact Hpos|]. split; [exact Hnot|].
           split; [reflexivity|lia].
      * destruct (read_points_spec bytes ps Hok Hs1
                    ltac:(unfold in_int64; lia)
                    ltac:(unfold in_int64; fold size; lia) Eover
                    (S (length bytes)) f2 (repeat x00 (Z.to_nat size)) [])
          as (new & f3 & HR & Hc3 & Ho3 & Hn & Hfull & Hpart);
          [exact Hc|reflexivity|simpl; lia|exact Hbuf
          |simpl; unfold lenB; lia|].
        rewrite HR. cbn [app].
        destruct (Hclose f3 Ho3 Hc3) as [H1 H2].
        eexists _, _. split; [reflexivity|]. split; [exact H1|].
        split; [exact H2|].
        cbn [fpos f2] in Hn, Hfull, Hpart. fold size in Hn, Hfull, Hpart.
        split; [exact Hpos|]. split; [exact Hnot|]. split; [exact Hne|].
        split; [lia|]. split; [exact Hs1|]. split; [discriminate|].
        split; [exact Hn|]. split; [exact Hfull|exact Hpart].
  - destruct Hr as [-> Hnone].
    destruct (Hclose f1 Ho Hc) as [H1 H2].
    eexists _, _. split; [reflexivity|]. split; [exact H1|].
    split; [exact H2|]. left. auto.
  - destruct Hr as (-> & Hpos & Hend).
    destruct (Hclose f1 Ho Hc) as [H1 H2].
    eexists _, _. split; [reflexivity|]. split; [exact H1|].
    split; [exact H2|]. left. auto.
Qed.

(** X15: the outcomes of ReadPly.  The file is closed on every way out.
    The five outcomes exclude each other and leave no case out: ReadPly
    fails with "failed read header" when the file has no "end_header";
    it panics with a slice-bounds error when the terminator ends where a
    read ends (as readHeader does); otherwise it fails with "failed read
    header properties" when the header has no property line; otherwise
    it writes past the point it fills, which the model stops on, when
    the body is not empty and some property named green or blue is eight
    bytes wide; and otherwise it returns its points.  "failed read body"
    never occurs. *)
Theorem ReadPly_outcomes bytes :
  lenB bytes < 2 ^ 59 ->
  let props := declared_properties bytes in
  closed (snd (plyreader.ReadPly bytes)) = true /\
  match fst (plyreader.ReadPly bytes) with
  | Ok points =>
      terminator_pos bytes <> -1 /\ ~ terminator_at_read_end bytes /\
      props <> [] /\
      (existsb writes_past props = true ->
       terminator_pos bytes + 11 = lenB bytes)
  | Err e =>
      (e = ErrNew "failed read header" /\ terminator_pos bytes = -1) \/
      (e = ErrNew "failed read header properties" /\
       terminator_pos bytes <> -1 /\ ~ terminator_at_read_end bytes /\
       props = [])
  | Panic msg =>
      (msg = slice_bounds /\ terminator_pos bytes <> -1 /\
       terminator_at_read_end bytes) \/
      (msg = "memcpy: write past the destination" /\
       terminator_pos bytes <> -1 /\ ~ terminator_at_read_end bytes /\
       existsb writes_past props = true /\
       terminator_pos bytes + 11 < lenB bytes)
  end.
Proof.
  intros Hsmall props.
  destruct (ReadPly_spec bytes Hsmall) as (r & f & -> & Hcl & _ & Hr).
  cbv zeta in Hr. fold props in Hr. cbn [fst snd].
  split; [exact Hcl|].
  destruct r as [points|e|msg]; [|exact Hr|exact Hr].
  destruct Hr as (H1 & H2 & H3 & _ & _ & H6 & _). auto.
Qed.

Lemma ReadPly_outcomes_witness :
  closed (snd (plyreader.ReadPly wide_green_file)) = true /\
  fst (plyreader.ReadPly wide_green_file)
  = Panic "memcpy: write past the destination".
Proof.
  destruct (ReadPly_outcomes wide_green_file) as [Hcl Hr].
  - vm_compute. reflexivity.
  - split; [exact Hcl|]. vm_compute. reflexivity.
Defined.

(** X16: the points of ReadPly.  The record layout is made of all the
    property lines of the header, whatever element they are under, and
    the element counts play no role: the body, from the byte after the
    terminator to the end of the file, is cut into records of that size.
    There is one point for every whole record, decoded from its bytes,
    and one more for a rest that is shorter than a record: that one is
    decoded from the rest followed by what the previous record left in
    the buffer (zero bytes when there is none). *)
Theorem ReadPly_points bytes points :
  lenB bytes < 2 ^ 59 ->
  fst (plyreader.ReadPly bytes) = Ok points ->
  let props := declared_properties bytes in
  let off := terminator_pos bytes + 11 in
  let size := sum_pp props in
  1 <= size /\ off <= lenB bytes /\
  Z.of_nat (length points) = (lenB bytes - off + size - 1) / size /\
  (forall i, 0 <= i -> off + (i + 1) * size <= lenB bytes ->
     exists mem,
       plyreader.decode_point props 0
         (bits_at bytes (off + i * size) (off + (i + 1) * size))
         plyreader.zero_point = Ok mem /\
       points !! Z.to_nat i = Some (plyreader.load mem)) /\
  (forall q m, 0 <= q -> 0 < m < size ->
     lenB bytes - off = q * size + m ->
     exists mem,
       plyreader.decode_point props 0
         (bits_at bytes (off + q * size) (lenB bytes)
          ++ drop (Z.to_nat m)
               (if q =? 0 then repeat x00 (Z.to_nat size)
                else bits_at bytes (off + (q - 1) * size) (off + q * size)))
         plyreader.zero_point = Ok mem /\
       points !! Z.to_nat q = Some (plyreader.load mem)).
Proof.
  intros Hsmall HR props off size.
  destruct (ReadPly_spec bytes Hsmall) as (r & f & E & _ & _ & Hr).
  rewrite E in HR. cbn [fst] in HR. subst r.
  cbv zeta in Hr. fold props off size in Hr.
  destruct Hr as (_ & _ & _ & H4 & H5 & _ & H7 & H8 & H9). auto.
Qed.

Lemma ReadPly_points_witness :
  length two_element_points = 3%nat /\
  exists mem,
    plyreader.decode_point (declared_properties two_element_file) 0
      (bits_at two_element_file 199 203
       ++ drop 4 (bits_at two_element_file 184 199))
      plyreader.zero_point = Ok mem /\
    two_element_points !! 2%nat = Some (plyreader.load mem).
Proof.
  destruct (ReadPly_points two_element_file two_element_points)
    as (_ & _ & Hn & _ & Hpart).
  - vm_compute. reflexivity.
  - vm_compute. reflexivity.
  - split; [reflexivity|].
    destruct (Hpart 2 4) as (mem & Hd & Hl);
      [lia|vm_compute; split; reflexivity|vm_compute; reflexivity|].
    exists mem. split; [|exact Hl].
    rewrite <- Hd. vm_compute. reflexivity.
Defined.

(** ** The line of the terminator *)

Lemma str_app_assoc (a b c : string) :
  ((a ++ b) ++ c = a ++ (b ++ c))%string.
Proof. induction a as [|x a IH]; simpl; [reflexivity|now rewrite IH]. Qed.

Lemma str_app_length (a b : string) :
  String.length (a ++ b) = (String.length a + String.length b)%nat.
Proof. induction a as [|x a IH]; simpl; [reflexivity|now rewrite IH]. Qed.

Lemma all_chars_app cls (a b : string) :
  all_chars cls (a ++ b) = all_chars cls a && all_chars cls b.
Proof.
  induction a as [|x a IH]; simpl; [reflexivity|].
  now rewrite IH, andb_assoc.
Qed.

Lemma split_lines_nonempty s : split_lines s <> [].
Proof.
  destruct s as [|c s]; simpl; [discriminate|].
  destruct (Ascii.eqb c newline); [discriminate|].
  destruct (split_lines s); discriminate.
Qed.

Lemma split_lines_app p s :
  all_chars cls_dot p = true ->
  split_lines (p ++ s)
  = match split_lines s with
    | l :: ls => (p ++ l)%string :: ls
    | [] => [p]
    end.
Proof.
  induction p as [|c p IH]; simpl.
  - intros _. pose proof (split_lines_nonempty s).
    destruct (split_lines s); [contradiction|reflexivity].
  - intros [Hc Hp]%andb_true_iff. unfold cls_dot in Hc.
    apply negb_true_iff in Hc. rewrite Hc, (IH Hp).
    destruct (split_lines s); reflexivity.
Qed.

Lemma split_lines_single p :
  all_chars cls_dot p = true -> split_lines p = [p].
Proof.
  induction p as [|c p IH]; simpl; [reflexivity|].
  intros [Hc Hp]%andb_true_iff. unfold cls_dot in Hc.
  apply negb_true_iff in Hc. rewrite Hc, (IH Hp). reflexivity.
Qed.

Lemma strings_Index_step c s substr :
  strip_prefix substr (String c s) = None ->
  strings_Index (String c s) substr <> -1 ->
  strings_Index s substr <> -1 /\
  strings_Index (String c s) substr = strings_Index s substr + 1.
Proof.
  intros E. cbn [strings_Index]. rewrite E.
  destruct (Z.eqb_spec (strings_Index s substr) (-1)); [congruence|auto].
Qed.

Lemma strip_prefix_same_index p r : strings_Index (p ++ r) p = 0.
Proof.
  destruct p as [|a p]; [destruct r; reflexivity|].
  cbn [append strings_Index].
  change (String a (p ++ r)) with (String a p ++ r)%string.
  now rewrite strip_prefix_same.
Qed.

Lemma lines_without_terminator s :
  forall p,
    all_chars cls_dot p = true ->
    strings_Index s headerEnd <> -1 ->
    strings_Index (p ++ s) headerEnd = lenZ p + strings_Index s headerEnd ->
    (exists c, String.get (Z.to_nat (strings_Index s headerEnd + 10)) s = Some c /\
               c <> newline) ->
    Forall (fun l => l <> headerEnd)
      (split_lines (p ++ str_take (Z.to_nat (strings_Index s headerEnd + 11)) s)).
Proof.
  induction s as [|c0 s IH]; intros p Hp Hfound Hfirst (c & Hget & Hc);
    [simpl in Hfound; congruence|].
  destruct (strip_prefix headerEnd (String c0 s)) as [rest|] eqn:E.
  - (* the terminator is here *)
    assert (Hz : strings_Index (String c0 s) headerEnd = 0)
      by (cbn [strings_Index]; now rewrite E).
    rewrite Hz in *. apply strip_prefix_app in E. rewrite E in *.
    change (Z.to_nat (0 + 10)) with 10%nat in Hget.
    change (Z.to_nat (0 + 11)) with 11%nat.
    cbn in Hget. destruct rest as [|c1 rest]; [discriminate|].
    cbn in Hget. injection Hget as ->.
    change (str_take 11 (headerEnd ++ String c rest))
      with (headerEnd ++ String c "")%string.
    rewrite split_lines_single.
    + constructor; [|constructor]. intros Heq.
      apply (f_equal String.length) in Heq.
      rewrite !str_app_length in Heq. simpl in Heq. lia.
    + rewrite !all_chars_app, Hp. simpl. unfold cls_dot at 1.
      destruct (Ascii.eqb_spec c newline); [contradiction|reflexivity].
  - destruct (strings_Index_step _ _ _ E Hfound) as [Hfound' Hstep].
    pose proof (strings_Index_range _ _ Hfound') as [Hpos' _].
    rewrite Hstep in *.
    replace (Z.to_nat (strings_Index s headerEnd + 1 + 11))
      with (S (Z.to_nat (strings_Index s headerEnd + 11))) by lia.
    replace (Z.to_nat (strings_Index s headerEnd + 1 + 10))
      with (S (Z.to_nat (strings_Index s headerEnd + 10))) in Hget by lia.
    cbn [str_take]. cbn [String.get] in Hget.
    set (t := str_take (Z.to_nat (strings_Index s headerEnd + 11)) s).
    destruct (Ascii.eqb_spec c0 newline) as [->|Hc0].
    + (* a line ends here *)
      rewrite split_lines_app by exact Hp.
      cbn [split_lines]. rewrite Ascii.eqb_refl.
      replace (p ++ "")%string with p
        by (clear; induction p; simpl; congruence).
      constructor.
      * intros ->. rewrite strip_prefix_same_index in Hfirst.
        unfold lenZ in Hfirst. simpl in Hfirst. lia.
      * apply (IH ""%string); [reflexivity|exact Hfound'|unfold lenZ; simpl; lia|].
        exists c. auto.
    + replace (p ++ String c0 t)%string with ((p ++ String c0 "") ++ t)%string
        by (rewrite str_app_assoc; reflexivity).
      apply IH; [|exact Hfound'| |exists c; auto].
      * rewrite all_chars_app, Hp. simpl. unfold cls_dot.
        destruct (Ascii.eqb_spec c0 newline); [contradiction|reflexivity].
      * rewrite str_app_assoc. cbn [append]. rewrite Hfirst.
        unfold lenZ. rewrite str_app_length. simpl. lia.
Qed.

Lemma get_file_text n bytes :
  String.get n (file_text bytes) = option_map ascii_of_byte (bytes !! n).
Proof.
  unfold file_text. revert n. induction bytes as [|b bytes IH]; intros n.
  - destruct n; reflexivity.
  - rewrite sob_cons. destruct n as [|n]; [reflexivity|].
    cbn [String.get]. rewrite IH. reflexivity.
Qed.

Lemma parse_line_count line st st1 k :
  parse_line line st = Ok st1 -> line <> headerEnd ->
  length (ps_Elements st) = pred k -> (ps_curr st = None <-> k = 0%nat) ->
  let k1 := (k + if is_element_line line then 1 else 0)%nat in
  length (ps_Elements st1) = pred k1 /\ (ps_curr st1 = None <-> k1 = 0%nat).
Proof.
  unfold parse_line, parse_property_and_end, is_element_line.
  intros H Hne Hlen Hcurr.
  destruct (FindAllStringSubmatch rFormat line);
    [|injection H as <-; simpl; rewrite Nat.add_0_r; auto].
  destruct (FindAllStringSubmatch rComment line);
    [|injection H as <-; simpl; rewrite Nat.add_0_r; auto].
  destruct (FindAllStringSubmatch rElement line) as [|row tl].
  - assert (Hend : String.eqb line headerEnd = false)
      by (now apply String.eqb_neq).
    rewrite Hend in H. cbv zeta. rewrite Nat.add_0_r.
    destruct (FindAllStringSubmatch rProperty line).
    + injection H as <-. auto.
    + destruct (ps_curr st) as [p|] eqn:Ep; [|discriminate].
      destruct (ps_store st !! p); [|discriminate].
      injection H as <-. cbn [ps_Elements ps_curr]. split; [exact Hlen|].
      exact Hcurr.
  - injection H as <-. cbv zeta. cbn [ps_Elements ps_curr].
    destruct (ps_curr st) as [p|] eqn:Ep.
    + assert (k <> 0)%nat by (intros Hk; apply Hcurr in Hk; discriminate).
      rewrite length_app. simpl. split; [lia|]. split; [discriminate|lia].
    + assert (k = 0)%nat by (now apply Hcurr). subst k.
      simpl in *. split; [exact Hlen|]. split; [discriminate|lia].
Qed.

Lemma parse_lines_count lines :
  forall st st1 k,
    parse_lines lines st = Ok st1 ->
    Forall (fun l => l <> headerEnd) lines ->
    length (ps_Elements st) = pred k -> (ps_curr st = None <-> k = 0%nat) ->
    length (ps_Elements st1) = pred (k + element_lines lines).
Proof.
  unfold element_lines.
  induction lines as [|line lines IH]; intros st st1 k H HF Hlen Hcurr.
  - injection H as <-. simpl. now rewrite Nat.add_0_r.
  - inversion HF as [|? ? Hl HF']; subst.
    cbn [parse_lines] in H.
    destruct (parse_line line st) as [st2| |] eqn:E; try discriminate.
    cbn [rbind] in H.
    destruct (parse_line_count _ _ _ _ E Hl Hlen Hcurr) as [Hlen2 Hcurr2].
    rewrite (IH _ _ _ H HF' Hlen2 Hcurr2).
    cbn [List.filter]. destruct (is_element_line line); simpl; f_equal; lia.
Qed.

(** X17: the terminator needs a newline right after it.  When the byte
    after "end_header" is anything else (a carriage return, for a file
    with the line ends of Windows), Open still succeeds, but no line of
    the header is exactly "end_header", so the element that is being
    read at the end of the header is never put in the list: the list has
    one entry less than the header has element lines, and with a single
    element it is empty, so that GetElementReader knows no element at
    all. *)
Theorem terminator_needs_newline bytes ply f :
  Open bytes = (Ok ply, f) ->
  bytes !! Z.to_nat (terminator_pos bytes + 10) <> Some x0a ->
  let n := element_lines (split_lines (headerStr ply)) in
  length (hdr_Elements (ply_header ply)) = pred n /\
  (n = 1%nat ->
   forall name, GetElementReader ply name = Err (ErrNew (Sprintf_unknown name))).
Proof.
  unfold Open. intros HO Hbyte.
  destruct (readHeader_spec bytes) as (r & f1 & E & _ & _ & Hr).
  rewrite E in HO.
  destruct r as [[h off]|e|msg]; try discriminate.
  destruct Hr as (Hpos & Hoff & Hh & Hnot).
  destruct (parseHeader h off) as [ply1| |] eqn:EP; try discriminate.
  destruct (negb _); [discriminate|]. injection HO as -> _.
  unfold parseHeader in EP.
  destruct (parse_lines (split_lines h) _) as [st| |] eqn:EL; try discriminate.
  cbn [rbind] in EP. injection EP as <-. cbn [headerStr ply_header hdr_Elements].
  assert (Hlines : Forall (fun l => l <> headerEnd) (split_lines h)).
  { rewrite Hh, Hoff. unfold terminator_pos in *.
    apply (lines_without_terminator (file_text bytes) ""%string);
      [reflexivity|exact Hpos|unfold lenZ; simpl; lia|].
    pose proof (strings_Index_range _ _ Hpos) as [H1 H2].
    unfold file_text, lenZ in H2. rewrite sob_length in H2.
    change (Z.of_nat (String.length "end_header")) with 10 in H2.
    fold (file_text bytes) in H2.
    unfold terminator_at_read_end, terminator_pos, lenB in Hnot.
    rewrite get_file_text.
    destruct (bytes !! Z.to_nat (strings_Index (file_text bytes) headerEnd + 10))
      as [b|] eqn:Eb.
    - exists (ascii_of_byte b). split; [reflexivity|].
      intros Heq. apply Hbyte.
      assert (Hb : byte_of_ascii (ascii_of_byte b) = byte_of_ascii newline)
        by (now rewrite Heq).
      rewrite byte_of_ascii_of_byte in Hb.
      change (bytes !! Z.to_nat (strings_Index (file_text bytes) headerEnd + 10)
              = Some x0a).
      rewrite Eb, Hb. reflexivity.
    - apply lookup_ge_None in Eb. exfalso. apply Hnot. left.
      unfold headerEnd in *. lia. }
  assert (Hn : length (resolve st)
               = pred (element_lines (split_lines h))).
  { unfold resolve. rewrite length_map.
    apply (parse_lines_count _ _ _ 0%nat EL Hlines); simpl; tauto. }
  split; [exact Hn|].
  intros H1 name. rewrite H1 in Hn. simpl in Hn.
  unfold GetElementReader, Has. cbn [ply_header hdr_Elements].
  destruct (resolve st); [reflexivity|discriminate].
Qed.

Lemma terminator_needs_newline_witness :
  exists ply f,
    Open crlf_file = (Ok ply, f) /\
    hdr_Elements (ply_header ply) = [] /\
    GetElementReader ply "vertex"
    = Err (ErrNew (Sprintf_unknown "vertex")).
Proof.
  destruct (Open crlf_file) as [[ply| |] f] eqn:E;
    try (exfalso; revert E; vm_compute; discriminate).
  destruct (terminator_needs_newline crlf_file ply f E) as [Hn Hg].
  - vm_compute. discriminate.
  - exists ply, f. split; [reflexivity|].
    assert (Hone : element_lines (split_lines (headerStr ply)) = 1%nat).
    { revert E. vm_compute. intros [= <- _]. reflexivity. }
    split; [|exact (Hg Hone "vertex")].
    rewrite Hone in Hn. destruct (hdr_Elements (ply_header ply));
      [reflexivity|discriminate].
Defined.

(** ** The two decoders *)

Ltac explode l H :=
  repeat (destruct l as [|? l]; [try discriminate H|simpl in H];
          try discriminate H).

Lemma point_fields_step ty name size offset buf x y z r g b mem :
  wf_property (mkProperty ty name size) ->
  point_typed (mkProperty ty name size) ->
  0 <= offset -> offset + size <= lenB buf -> in_int64 (lenB buf) ->
  length mem = plyreader.point_bytes ->
  plyreader.load mem = plyreader.mkPlyPoint x y z r g b ->
  exists x1 y1 z1 r1 g1 b1 mem1,
    decode_prop (mkProperty ty name size) offset buf (Point x y z r g b)
    = Ok (Point x1 y1 z1 r1 g1 b1) /\
    plyreader.copy_fields (to_pp (mkProperty ty name size)) offset buf mem
    = Ok mem1 /\
    length mem1 = plyreader.point_bytes /\
    plyreader.load mem1 = plyreader.mkPlyPoint x1 y1 z1 r1 g1 b1.
Proof.
  unfold point_typed, to_pp. cbn [prop_Name prop_Type prop_Size].
  intros Hwf [Hxyz Hrgb] Ho Hfit Hbuf Hmem Hload.
  assert (Hw : forall n, 0 <= n <= 8 -> offset + n <= lenB buf ->
               wrap64 (offset + n) = offset + n)
    by (intros n Hn Hb; apply wrap64_id; unfold in_int64 in *; lia).
  assert (Hbits : forall n, 0 <= n -> offset + n <= lenB buf ->
                  length (bits_at buf offset (offset + n)) = Z.to_nat n).
  { intros n Hn Hb. pose proof (bits_at_length buf offset (offset + n)) as H.
    unfold lenB in H at 2. lia. }
  unfold plyreader.copy_fields, Point, decode_prop.
  destruct (String.eqb_spec name "x") as [->|Hx];
    [|destruct (String.eqb_spec name "y") as [->|Hy];
      [|destruct (String.eqb_spec name "z") as [->|Hz];
        [|destruct (String.eqb_spec name "red") as [->|Hr];
          [|destruct (String.eqb_spec name "green") as [->|Hg];
            [|destruct (String.eqb_spec name "blue") as [->|Hb]]]]]].
  1-3: assert (ty = "double") by (apply Hxyz; simpl; tauto); subst ty;
       assert (size = 8) by (apply Hwf); subst size;
       cbn -[store plyreader.copy_named]; skip_other_names.
  4-6: assert (Hsz : size = 1)
         by (destruct Hrgb as [->| ->];
             [simpl; tauto|apply Hwf|apply Hwf]);
       subst size;
       cbn -[store plyreader.copy_named]; skip_other_names.
  7: { rewrite set_fields_unmatched
         by (repeat constructor; simpl; congruence).
       skip_other_names. cbn [rbind].
       exists x, y, z, r, g, b, mem. auto. }
  1-3: rewrite (store_total _ offset buf _ Tfloat64);
       [|reflexivity|reflexivity|reflexivity|reflexivity|assumption
        |assumption|assumption].
  4-6: rewrite (store_total _ offset buf _ Tuint8);
       [|exact Hwf
        |destruct Hrgb as [->| ->]; [simpl; tauto|reflexivity|reflexivity]
        |reflexivity|reflexivity|assumption|assumption|assumption].
  all: cbn [rbind fname ftag prop_Size]; unfold scalar_at;
       rewrite Hw by (try assumption; lia).
  all: rewrite (copy_named_hit _ _ _ offset buf mem);
       [|reflexivity|simpl; lia|assumption|assumption|assumption|assumption
        |simpl; unfold plyreader.point_bytes, plyreader.off_X, plyreader.off_Y,
           plyreader.off_Z, plyreader.off_R, plyreader.off_G, plyreader.off_B;
         lia].
  all: cbn [rbind plyreader.pp_Size]; skip_other_names.
  all: match goal with
       | |- context [bits_at ?bf ?o (?o + ?n)] =>
           pose proof (Hbits n ltac:(lia) Hfit) as Hlen;
           set (bits := bits_at bf o (o + n)) in *
       end.
  all: clearbody bits; simpl in Hlen.
  all: unfold plyreader.point_bytes in Hmem; explode mem Hmem;
       explode bits Hlen.
  all: injection Hload as <- <- <- <- <- <-.
  all: do 7 eexists; split; [reflexivity|]; split; [reflexivity|];
       split; reflexivity.
Qed.

Lemma decoders_agree_from ps :
  Forall wf_property ps -> Forall point_typed ps ->
  forall offset buf x y z r g b mem,
    0 <= offset -> offset + sum_sizes ps <= lenB buf -> in_int64 (lenB buf) ->
    length mem = plyreader.point_bytes ->
    plyreader.load mem = plyreader.mkPlyPoint x y z r g b ->
    exists x1 y1 z1 r1 g1 b1 mem1,
      decode_props ps offset buf (Point x y z r g b)
      = Ok (Point x1 y1 z1 r1 g1 b1) /\
      plyreader.decode_point (map to_pp ps) offset buf mem = Ok mem1 /\
      plyreader.load mem1 = plyreader.mkPlyPoint x1 y1 z1 r1 g1 b1.
Proof.
  intros Hwf Hty. induction Hwf as [|p ps Hp Hwf IH];
    intros offset buf x y z r g b mem Ho Hfit Hbuf Hmem Hload.
  - exists x, y, z, r, g, b, mem. auto.
  - inversion Hty as [|? ? Htp Hty']; subst.
    pose proof (sum_sizes_nonneg _ Hwf) as Hnn.
    pose proof (propertySize_range (prop_Type p)) as Hr.
    rewrite <- Hp in Hr.
    change (sum_sizes (p :: ps)) with (prop_Size p + sum_sizes ps) in Hfit.
    destruct p as [ty name size]. cbn [prop_Size] in *.
    destruct (point_fields_step ty name size offset buf x y z r g b mem
                Hp Htp Ho ltac:(lia) Hbuf Hmem Hload)
      as (x1 & y1 & z1 & r1 & g1 & b1 & mem1 & H1 & H2 & Hl1 & Hload1).
    cbn [decode_props map plyreader.decode_point].
    rewrite H1, H2. cbn [rbind to_pp prop_Size plyreader.pp_Size].
    rewrite wrap64_id by (unfold in_int64 in *; lia).
    apply (IH Hty'); [lia|lia|assumption|assumption|assumption].
Qed.

(** X18: the two packages decode a record alike.  For properties sized
    as parseHeader sizes them, with x, y and z declared double and red,
    green and blue declared char or uchar (whatever else is declared,
    in any order), the loop of ReadNext on a Point and the loop of
    ReadPly on a PlyPoint both complete on a buffer that holds the
    record, and they leave the same six values. *)
Theorem decoders_agree ps buf :
  Forall wf_property ps -> Forall point_typed ps ->
  sum_sizes ps <= lenB buf -> in_int64 (lenB buf) ->
  exists x y z r g b mem,
    decode_props ps 0 buf (Point 0 0 0 0 0 0) = Ok (Point x y z r g b) /\
    plyreader.decode_point (map to_pp ps) 0 buf plyreader.zero_point = Ok mem /\
    plyreader.load mem = plyreader.mkPlyPoint x y z r g b.
Proof.
  intros Hwf Hty Hfit Hbuf.
  apply (decoders_agree_from ps Hwf Hty 0 buf 0 0 0 0 0 0 plyreader.zero_point);
    [lia|lia|assumption|reflexivity|reflexivity].
Qed.

Lemma decoders_agree_witness :
  exists x y z r g b mem,
    decode_props rgb_props 0 rgb_buf (Point 0 0 0 0 0 0)
    = Ok (Point x y z r g b) /\
    plyreader.decode_point (map to_pp rgb_props) 0 rgb_buf plyreader.zero_point
    = Ok mem /\
    plyreader.load mem = plyreader.mkPlyPoint x y z r g b.
Proof.
  apply (decoders_agree rgb_props rgb_buf).
  - repeat constructor.
  - repeat (constructor;
            [split; simpl; intros H;
             repeat (destruct H as [H|H]; try discriminate H);
             try contradiction; auto|]).
    constructor.
  - vm_compute. discriminate.
  - vm_compute. split; [discriminate|reflexivity].
Defined.

(** ** The schema parseHeader builds *)

Lemma parse_line_holds line st st1 done open :
  parse_line line st = Ok st1 -> line <> headerEnd ->
  holds st done open ->
  holds st1
    (if is_element_line line then done ++ open_list open else done)
    (if is_element_line line then Some (line_element line)
     else if is_property_line line
          then option_map (fun e => add_property e (line_property line)) open
          else open).
Proof.
  unfold parse_line, parse_property_and_end, is_element_line, is_property_line,
    line_element, line_property, holds.
  intros H Hne (Hst & Hel & Hcu).
  destruct (FindAllStringSubmatch rFormat line);
    [|injection H as <-; simpl; auto].
  destruct (FindAllStringSubmatch rComment line);
    [|injection H as <-; simpl; auto].
  destruct (FindAllStringSubmatch rElement line) as [|row tl].
  - assert (Hend : String.eqb line headerEnd = false)
      by (now apply String.eqb_neq).
    rewrite Hend in H.
    destruct (FindAllStringSubmatch rProperty line) as [|prow ptl].
    + injection H as <-. auto.
    + destruct (ps_curr st) as [p|] eqn:Ep; [|discriminate].
      destruct (ps_store st !! p) as [e|] eqn:Ee; [|discriminate].
      injection H as <-. cbn [ps_store ps_Elements ps_curr].
      destruct open as [e0|]; [|discriminate].
      injection Hcu as ->.
      rewrite Hst in Ee |- *. cbn [open_list option_map] in *.
      rewrite lookup_app_r, Nat.sub_diag in Ee by lia. injection Ee as <-.
      split; [|split; [exact Hel|reflexivity]].
      rewrite insert_app_r_alt, Nat.sub_diag by lia. reflexivity.
  - injection H as <-. cbn [ps_store ps_Elements ps_curr].
    rewrite Hst. destruct open as [e0|]; cbn [open_list] in *.
    + rewrite Hcu. split; [|split].
      * reflexivity.
      * rewrite Hel, !length_app. simpl.
        rewrite Nat.add_1_r, seq_S, map_app. reflexivity.
      * rewrite !length_app. reflexivity.
    + rewrite Hcu, ?app_nil_r. split; [reflexivity|]. split; [exact Hel|].
      reflexivity.
Qed.

Lemma parse_lines_holds lines :
  forall st st1 done open,
    parse_lines lines st = Ok st1 ->
    Forall (fun l => l <> headerEnd) lines ->
    holds st done open ->
    exists done1 open1,
      holds st1 done1 open1 /\
      done1 ++ open_list open1 = done ++ declared lines open /\
      (open <> None \/ existsb is_element_line lines = true -> open1 <> None).
Proof.
  induction lines as [|line lines IH]; intros st st1 done open H HF Hh.
  - injection H as <-. exists done, open. simpl. intuition discriminate.
  - inversion HF as [|? ? Hl HF']; subst.
    cbn [parse_lines] in H.
    destruct (parse_line line st) as [st2| |] eqn:E; try discriminate.
    cbn [rbind] in H.
    pose proof (parse_line_holds _ _ _ _ _ E Hl Hh) as Hh2.
    destruct (IH _ _ _ _ H HF' Hh2) as (done1 & open1 & Hh1 & Hd & Hopen).
    exists done1, open1. split; [exact Hh1|]. split.
    + rewrite Hd. cbn [declared].
      destruct (is_element_line line); [now rewrite app_assoc|].
      destruct (is_property_line line); reflexivity.
    + intros Hor. apply Hopen. cbn [existsb] in Hor.
      destruct (is_element_line line); [left; discriminate|].
      destruct Hor as [Ho|Ho]; [|right; exact Ho].
      left. destruct (is_property_line line); [|exact Ho].
      destruct open; [discriminate|contradiction].
Qed.

Lemma parse_line_inert line st st1 :
  parse_line line st = Ok st1 ->
  is_element_line line = false -> is_property_line line = false ->
  line <> headerEnd ->
  ps_store st1 = ps_store st /\ ps_Elements st1 = ps_Elements st /\
  ps_curr st1 = ps_curr st.
Proof.
  unfold parse_line, parse_property_and_end, is_element_line, is_property_line.
  intros H He Hp Hne.
  destruct (FindAllStringSubmatch rFormat line);
    [|injection H as <-; simpl; auto].
  destruct (FindAllStringSubmatch rComment line);
    [|injection H as <-; simpl; auto].
  destruct (FindAllStringSubmatch rElement line); [|discriminate].
  destruct (FindAllStringSubmatch rProperty line); [|discriminate].
  assert (Hend : String.eqb line headerEnd = false)
    by (now apply String.eqb_neq).
  rewrite Hend in H. injection H as <-. auto.
Qed.

Lemma parse_lines_inert lines :
  forall st st1,
    parse_lines lines st = Ok st1 ->
    Forall (fun l => is_element_line l = false /\
                     is_property_line l = false /\ l <> headerEnd) lines ->
    ps_store st1 = ps_store st /\ ps_Elements st1 = ps_Elements st /\
    ps_curr st1 = ps_curr st.
Proof.
  induction lines as [|line lines IH]; intros st st1 H HF.
  - injection H as <-. auto.
  - inversion HF as [|? ? (H1 & H2 & H3) HF']; subst.
    cbn [parse_lines] in H.
    destruct (parse_line line st) as [st2| |] eqn:E; try discriminate.
    cbn [rbind] in H.
    destruct (parse_line_inert _ _ _ E H1 H2 H3) as (E1 & E2 & E3).
    destruct (IH _ _ H HF') as (F1 & F2 & F3).
    rewrite F1, F2, F3. auto.
Qed.

Lemma lookup_all {A} (l0 l : list A) :
  map (fun i => (l0 ++ l) !! i) (seq (length l0) (length l)) = map Some l.
Proof.
  revert l0. induction l as [|a l IH]; intros l0; [reflexivity|].
  cbn [length seq map]. f_equal.
  - rewrite lookup_app_r, Nat.sub_diag by lia. reflexivity.
  - specialize (IH (l0 ++ [a])). rewrite length_app in IH. simpl in IH.
    rewrite Nat.add_1_r, <- app_assoc in IH. exact IH.
Qed.

Lemma resolve_declared body post st :
  parse_lines (body ++ headerEnd :: post) (mkParse "" "" [] [] None) = Ok st ->
  Forall (fun l => l <> headerEnd) body ->
  existsb is_element_line body = true ->
  Forall (fun l => is_element_line l = false /\
                   is_property_line l = false /\ l <> headerEnd) post ->
  resolve st = map Some (declared body None).
Proof.
  intros E Hbody Hel Hpost.
  rewrite parse_lines_app in E.
  destruct (parse_lines body _) as [st1| |] eqn:E1; try discriminate.
  cbn [rbind parse_lines] in E.
  destruct (parse_line headerEnd st1) as [st2| |] eqn:E2; try discriminate.
  cbn [rbind] in E.
  destruct (parse_lines_holds body _ _ [] None E1 Hbody)
    as (done1 & open1 & (Hst & Hes & Hcu) & Hd & Hopen);
    [repeat split|].
  destruct open1 as [e|]; [|exfalso; apply Hopen; auto].
  cbn [open_list app] in *.
  assert (H2 : ps_store st2 = done1 ++ [e] /\
               ps_Elements st2 = map Some (seq 0 (length (done1 ++ [e])))).
  { revert E2. unfold parse_line, parse_property_and_end.
    change (FindAllStringSubmatch rFormat headerEnd) with (@nil (list string)).
    change (FindAllStringSubmatch rComment headerEnd) with (@nil (list string)).
    change (FindAllStringSubmatch rElement headerEnd) with (@nil (list string)).
    change (FindAllStringSubmatch rProperty headerEnd) with (@nil (list string)).
    cbn [rbind]. rewrite String.eqb_refl. intros [= <-].
    cbn [ps_store ps_Elements]. split; [exact Hst|].
    rewrite Hes, Hcu, length_app. simpl.
    rewrite Nat.add_1_r, seq_S, map_app. reflexivity. }
  destruct H2 as [Hst2 Hes2].
  destruct (parse_lines_inert _ _ _ E Hpost) as (F1 & F2 & _).
  unfold resolve. rewrite F1, F2, Hst2, Hes2, map_map.
  rewrite <- Hd. apply (lookup_all [] (done1 ++ [e])).
Qed.

(** X19: parseHeader builds the schema the header declares.  For a
    header whose first line that is exactly "end_header" comes after at
    least one element line and is followed by no element or property
    line, the element list is the list of the declared elements, in the
    order of their lines, each with the properties of the property lines
    between its line and the next element line, in their order. *)
Theorem parseHeader_declared hs offset ply body post :
  parseHeader hs offset = Ok ply ->
  split_lines hs = body ++ headerEnd :: post ->
  Forall (fun l => l <> headerEnd) body ->
  existsb is_element_line body = true ->
  Forall (fun l => is_element_line l = false /\
                   is_property_line l = false /\ l <> headerEnd) post ->
  hdr_Elements (ply_header ply) = map Some (declared body None).
Proof.
  unfold parseHeader. intros H Hsplit Hbody Hel Hpost.
  destruct (parse_lines (split_lines hs) _) as [st| |] eqn:E; try discriminate.
  cbn [rbind] in H. injection H as <-. cbn [ply_header hdr_Elements].
  rewrite Hsplit in E. exact (resolve_declared body post st E Hbody Hel Hpost).
Qed.

Lemma parseHeader_declared_witness :
  hdr_Elements (ply_header two_element_ply)
  = map Some
      (declared
         ["ply"; "format binary_little_endian 1.0"; "comment two elements";
          "element vertex 2";
          "property double x"; "property short y"; "property uchar red";
          "element face 3"; "property int a"] None).
Proof.
  apply (parseHeader_declared two_element_header 169 two_element_ply
           ["ply"; "format binary_little_endian 1.0"; "comment two elements";
          "element vertex 2";
            "property double x"; "property short y"; "property uchar red";
            "element face 3"; "property int a"] [""]).
  - vm_compute. reflexivity.
  - vm_compute. reflexivity.
  - repeat (constructor; [discriminate|]). constructor.
  - vm_compute. reflexivity.
  - repeat (constructor; [vm_compute; repeat split; discriminate|]). constructor.
Defined.

(** ** The layout of ReadPly and the schema of parseHeader *)

Lemma property_line_exclusive line :
  FindAllStringSubmatch rProperty line <> [] ->
  FindAllStringSubmatch rFormat line = [] /\
  FindAllStringSubmatch rComment line = [] /\
  FindAllStringSubmatch rElement line = [].
Proof.
  intros H.
  assert (Hp : strip_prefix "property " line <> None).
  { intros Hn. apply H. unfold FindAllStringSubmatch, rProperty, regExpProperty.
    cbn [rmatch]. unfold match_lit. rewrite Hn. reflexivity. }
  assert (Hq : forall q r, q = "format "%string \/ q = "comment "%string \/
                           q = "element "%string ->
               FindAllStringSubmatch (Seq (Lit q) r) line = []).
  { destruct line as [|c line]; [contradiction Hp; reflexivity|].
    cbn [strip_prefix] in Hp.
    destruct (Ascii.eqb_spec "p" c) as [<-|]; [|contradiction].
    intros q r [->|[->| ->]]; reflexivity. }
  unfold rFormat, regExpFormat, rComment, regExpComment, rElement, regExpElement.
  repeat split; apply Hq; auto.
Qed.

Lemma header_property_none acc line :
  FindAllStringSubmatch rProperty line = [] ->
  plyreader.header_property acc line = acc.
Proof. unfold plyreader.header_property. now intros ->. Qed.

Lemma header_property_some acc line :
  FindAllStringSubmatch rProperty line <> [] ->
  plyreader.header_property acc line = acc ++ [to_pp (line_property line)].
Proof.
  intros H. unfold plyreader.header_property, line_property, to_pp.
  destruct (FindAllStringSubmatch_sound _ _ _ eq_refl H)
    as (u & rest & caps & -> & _ & _ & G).
  simpl in G. inversion G as [|? c1 ? caps1 L1 G1]; subst.
  inversion G1 as [|? c2 ? caps2 L2 G2]; subst. inversion G2; subst.
  cbn [length nth Nat.ltb Nat.leb andb prop_Name prop_Size].
  apply addProperty_size.
Qed.

Lemma element_line_no_property line :
  is_element_line line = true ->
  FindAllStringSubmatch rProperty line = [].
Proof.
  unfold is_element_line. intros He.
  destruct (FindAllStringSubmatch rProperty line) as [|row tl] eqn:E;
    [reflexivity|].
  destruct (property_line_exclusive line) as (H1 & H2 & H3);
    [rewrite E; discriminate|].
  rewrite H1, H2, H3 in He. discriminate.
Qed.

Lemma other_line_no_property line :
  is_element_line line = false -> is_property_line line = false ->
  FindAllStringSubmatch rProperty line = [].
Proof.
  unfold is_property_line. intros _ Hp.
  destruct (FindAllStringSubmatch rProperty line) as [|row tl] eqn:E;
    [reflexivity|].
  destruct (property_line_exclusive line) as (H1 & H2 & H3);
    [rewrite E; discriminate|].
  rewrite H1, H2, H3 in Hp. discriminate.
Qed.

Lemma property_line_matches line :
  is_property_line line = true ->
  FindAllStringSubmatch rProperty line <> [].
Proof.
  unfold is_property_line.
  destruct (FindAllStringSubmatch rFormat line); [|discriminate].
  destruct (FindAllStringSubmatch rComment line); [|discriminate].
  destruct (FindAllStringSubmatch rElement line); [|discriminate].
  destruct (FindAllStringSubmatch rProperty line); discriminate.
Qed.

Lemma property_line_needs_element line st st1 :
  parse_line line st = Ok st1 -> is_property_line line = true ->
  ps_curr st <> None.
Proof.
  unfold parse_line, parse_property_and_end, is_property_line.
  destruct (FindAllStringSubmatch rFormat line); [|discriminate].
  destruct (FindAllStringSubmatch rComment line); [|discriminate].
  destruct (FindAllStringSubmatch rElement line); [|discriminate].
  destruct (FindAllStringSubmatch rProperty line); [discriminate|].
  destruct (ps_curr st); [discriminate|]. discriminate.
Qed.

Lemma layout_follows_schema lines :
  forall st st1 done open,
    parse_lines lines st = Ok st1 ->
    Forall (fun l => l <> headerEnd) lines ->
    holds st done open ->
    fold_left plyreader.header_property lines
      (map to_pp (flat_map elem_Properties (done ++ open_list open)))
    = map to_pp (flat_map elem_Properties (done ++ declared lines open)).
Proof.
  induction lines as [|line lines IH]; intros st st1 done open H HF Hh;
    [reflexivity|].
  inversion HF as [|? ? Hl HF']; subst.
  cbn [parse_lines] in H.
  destruct (parse_line line st) as [st2| |] eqn:E; try discriminate.
  cbn [rbind] in H.
  pose proof (parse_line_holds _ _ _ _ _ E Hl Hh) as Hh2.
  specialize (IH _ _ _ _ H HF' Hh2).
  cbn [fold_left declared].
  destruct (is_element_line line) eqn:Ee; rewrite ?Ee in IH.
  - rewrite header_property_none by (now apply element_line_no_property).
    rewrite (app_assoc done), <- IH. f_equal. f_equal.
    rewrite (flat_map_app _ (done ++ open_list open)). simpl.
    now rewrite app_nil_r.
  - destruct (is_property_line line) eqn:Ep; rewrite ?Ep in IH.
    + rewrite header_property_some by (now apply property_line_matches).
      rewrite <- IH. f_equal.
      pose proof (property_line_needs_element _ _ _ E Ep) as Hcur.
      destruct Hh as (_ & _ & Hcu).
      destruct open as [e0|]; [|contradiction].
      cbn [option_map open_list].
      rewrite !flat_map_app, !map_app. cbn [flat_map add_property elem_Properties].
      rewrite !app_nil_r, map_app, app_assoc. reflexivity.
    + rewrite header_property_none by (now apply other_line_no_property).
      exact IH.
Qed.

Lemma fold_header_property_inert lines acc :
  Forall (fun l => is_element_line l = false /\
                   is_property_line l = false /\ l <> headerEnd) lines ->
  fold_left plyreader.header_property lines acc = acc.
Proof.
  induction 1 as [|l lines (H1 & H2 & _) _ IH]; [reflexivity|].
  cbn [fold_left].
  rewrite header_property_none by (now apply other_line_no_property).
  exact IH.
Qed.

Lemma header_properties_declared body post st :
  parse_lines (body ++ headerEnd :: post) (mkParse "" "" [] [] None) = Ok st ->
  Forall (fun l => l <> headerEnd) body ->
  Forall (fun l => is_element_line l = false /\
                   is_property_line l = false /\ l <> headerEnd) post ->
  plyreader.header_properties (body ++ headerEnd :: post)
  = map to_pp (flat_map elem_Properties (declared body None)).
Proof.
  intros E Hbody Hpost.
  rewrite parse_lines_app in E.
  destruct (parse_lines body _) as [st1| |] eqn:E1; try discriminate.
  unfold plyreader.header_properties. rewrite fold_left_app.
  pose proof (layout_follows_schema body _ _ [] None E1 Hbody
                ltac:(repeat split)) as HL.
  cbn [app open_list flat_map map] in HL. rewrite HL.
  cbn [fold_left app].
  rewrite header_property_none by reflexivity.
  apply fold_header_property_inert. exact Hpost.
Qed.

(** X20: the record ReadPly reads is made of the properties of all the
    elements together.  For a header as parseHeader reads it without
    panic (first "end_header" line after an element line, no element or
    property line after it), the layout ReadPly takes from the header
    is the concatenation, in order, of the properties (name and size)
    of all the elements the header declares. *)
Theorem ReadPly_layout hs offset ply body post :
  parseHeader hs offset = Ok ply ->
  split_lines hs = body ++ headerEnd :: post ->
  Forall (fun l => l <> headerEnd) body ->
  existsb is_element_line body = true ->
  Forall (fun l => is_element_line l = false /\
                   is_property_line l = false /\ l <> headerEnd) post ->
  plyreader.header_properties (split_lines hs)
  = map to_pp (flat_map elem_Properties (declared body None)).
Proof.
  unfold parseHeader. intros H Hsplit Hbody Hel Hpost.
  destruct (parse_lines (split_lines hs) _) as [st| |] eqn:E; try discriminate.
  rewrite Hsplit in E |- *.
  exact (header_properties_declared body post st E Hbody Hpost).
Qed.

Lemma ReadPly_layout_witness :
  declared_properties two_element_file
  = map to_pp (elem_Properties vertex_element ++ elem_Properties face_element).
Proof.
  transitivity (plyreader.header_properties (split_lines two_element_header));
    [vm_compute; reflexivity|].
  rewrite (ReadPly_layout two_element_header 169 two_element_ply
           ["ply"; "format binary_little_endian 1.0"; "comment two elements";
            "element vertex 2";
            "property double x"; "property short y"; "property uchar red";
            "element face 3"; "property int a"] [""]).
  - vm_compute. reflexivity.
  - vm_compute. reflexivity.
  - vm_compute. reflexivity.
  - repeat (constructor; [discriminate|]). constructor.
  - vm_compute. reflexivity.
  - repeat (constructor; [vm_compute; repeat split; discriminate|]). constructor.
Defined.

(** ** From the file to the values of an element *)

Lemma element_read_from_file bytes ply f body post pre e rest fs :
  Open bytes = (Ok ply, f) ->
  split_lines (headerStr ply) = body ++ headerEnd :: post ->
  Forall (fun l => l <> headerEnd) body ->
  existsb is_element_line body = true ->
  Forall (fun l => is_element_line l = false /\
                   is_property_line l = false /\ l <> headerEnd) post ->
  declared body None = pre ++ e :: rest ->
  Forall (fun p => elem_Name p <> elem_Name e) pre ->
  Forall (settable (elem_Properties e)) fs ->
  0 <= bytes_before pre ->
  in_int64 (lenB bytes) ->
  let off := terminator_pos bytes + 11 + bytes_before pre in
  let size := sum_sizes (elem_Properties e) in
  off + elem_Count e * size <= lenB bytes ->
  exists r vs,
    GetElementReader ply (elem_Name e) = Ok r /\
    r = mkReader 0 off e /\
    read_sequentially (mkWorld f r (PtrStruct fs)) = Ok vs /\
    length vs = Z.to_nat (elem_Count e) /\
    forall i, 0 <= i < elem_Count e ->
      exists v,
        vs !! Z.to_nat i = Some v /\
        decode_props (elem_Properties e) 0
          (bits_at bytes (off + i * size) (off + (i + 1) * size))
          (PtrStruct fs) = Ok v.
Proof.
  intros HO Hsplit Hbody Hel Hpost Hdecl Hpre Hset Hbefore Hbytes off size Hfit.
  unfold Open in HO.
  destruct (readHeader_spec bytes) as (r0 & f1 & E & Hc & Hopen & Hr).
  rewrite E in HO.
  destruct r0 as [[h hoff]|err|msg]; try discriminate.
  destruct Hr as (Hpos & Hoff & Hh & Hnot).
  destruct (parseHeader h hoff) as [ply1| |] eqn:EP; try discriminate.
  destruct (negb _); [discriminate|]. injection HO as -> ->.
  unfold parseHeader in EP.
  destruct (parse_lines (split_lines h) _) as [st| |] eqn:EL; try discriminate.
  cbn [rbind] in EP. injection EP as <-. cbn [headerStr] in Hsplit.
  pose proof (parse_lines_store_ok _ _ _ EL ltac:(constructor)) as Hstore.
  rewrite Hsplit in EL.
  pose proof (resolve_declared body post st EL Hbody Hel Hpost) as Hres.
  rewrite Hdecl, map_app in Hres. cbn [map] in Hres.
  assert (Hok : element_ok e).
  { assert (Hin : In (Some e) (resolve st))
      by (rewrite Hres; apply in_or_app; right; now left).
    unfold resolve in Hin. apply in_map_iff in Hin as ([p|] & Hp & _);
      [|discriminate].
    exact (Forall_lookup_1 _ _ _ _ Hstore Hp). }
  destruct Hok as (Hcount & _ & Hprops).
  assert (Hwf : Forall wf_property (elem_Properties e)).
  { eapply Forall_impl; [exact Hprops|]. intros p (_ & _ & Hs & _). exact Hs. }
  assert (Hc64 : in_int64 (elem_Count e))
    by (unfold in_int64, maxInt64 in *; lia).
  pose proof (sum_sizes_nonneg _ Hwf) as Hnn. fold size in Hnn.
  assert (Hh0 : 11 <= hoff).
  { pose proof (strings_Index_range _ _ Hpos) as [H1 _].
    fold (terminator_pos bytes) in H1. lia. }
  assert (Hcs : 0 <= elem_Count e * size)
    by (apply Z.mul_nonneg_nonneg; lia).
  assert (Hoffv : wrap64 (hoff + wrap64 (0 + bytes_before pre)) = off).
  { rewrite wrap64_add_r, Z.add_0_l. unfold off. rewrite <- Hoff.
    apply wrap64_id. unfold in_int64 in *. unfold off in Hfit.
    rewrite <- Hoff in Hfit. lia. }
  exists (mkReader 0 off e).
  assert (HG : GetElementReader
                 (mkPlyFile h (mkHeader (ps_Format st) (ps_Comment st) hoff
                                 (resolve st))) (elem_Name e)
               = Ok (mkReader 0 off e)).
  { unfold GetElementReader, getElementOffset, getElement, Has.
    cbn [ply_header hdr_Elements hdr_offset]. rewrite Hres.
    rewrite (Has_loop_found (elem_Name e) e _ eq_refl pre Hpre). cbn [rbind negb].
    rewrite (getElementOffset_loop_found (elem_Name e) e _ eq_refl pre 0 Hpre)
      by (unfold in_int64; lia).
    rewrite (getElement_loop_found (elem_Name e) e _ eq_refl pre Hpre).
    cbn [rbind]. rewrite Hoffv. reflexivity. }
  assert (Ho : 0 <= off) by (unfold off; lia).
  destruct (ReadNext_n_complete e off bytes fs Hwf Hset Hc64 Ho Hbytes Hfit
              (Z.to_nat (elem_Count e)) 0 f (PtrStruct fs))
    as (vs & Hvs & Hks);
    [lia|lia|exact Hc|exact Hopen|apply agree_refl|].
  exists vs. split; [exact HG|]. split; [reflexivity|].
  assert (Heq : read_sequentially (mkWorld f (mkReader 0 off e) (PtrStruct fs))
                = ReadNext_n (Z.to_nat (elem_Count e))
                    (mkWorld f (mkReader 0 off e) (PtrStruct fs))).
  { unfold read_sequentially, Reset, Seek, Count. simpl.
    destruct (Z.ltb_spec (elem_Count e) 0); [lia|]. reflexivity. }
  rewrite Heq. split; [exact Hvs|].
  split; [exact (ReadNext_n_length _ _ _ Hvs)|].
  intros i Hi. destruct (Hks (Z.to_nat i) ltac:(lia)) as (v & Hl & Hd).
  exists v. split; [exact Hl|].
  rewrite Z2Nat.id, Z.add_0_l in Hd by lia. fold size in Hd.
  replace (off + (i + 1) * size) with (off + i * size + size) by lia.
  exact Hd.
Qed.


(** X21: a declared element whose records are in the file is read back.
    When Open succeeds on a file whose header declares the elements
    pre, e and rest in this order (terminator line after an element
    line, nothing declared after it), with no element of pre named like
    e, and the file holds the count records of e behind those of pre,
    then GetElementReader gives a reader on e that starts at the header
    length plus the bytes of pre, and Reset with count calls of ReadNext
    on a struct whose bound fields have the properties' types returns
    count values, the i-th decoded from the i-th record of e in the
    file. *)
Theorem declared_element_is_read bytes ply f body post pre e rest fs :
  Open bytes = (Ok ply, f) ->
  split_lines (headerStr ply) = body ++ headerEnd :: post ->
  Forall (fun l => l <> headerEnd) body ->
  existsb is_element_line body = true ->
  Forall (fun l => is_element_line l = false /\
                   is_property_line l = false /\ l <> headerEnd) post ->
  declared body None = pre ++ e :: rest ->
  Forall (fun p => elem_Name p <> elem_Name e) pre ->
  Forall (settable (elem_Properties e)) fs ->
  0 <= bytes_before pre ->
  in_int64 (lenB bytes) ->
  let off := terminator_pos bytes + 11 + bytes_before pre in
  let size := sum_sizes (elem_Properties e) in
  off + elem_Count e * size <= lenB bytes ->
  exists r vs,
    GetElementReader ply (elem_Name e) = Ok r /\
    r = mkReader 0 off e /\
    read_sequentially (mkWorld f r (PtrStruct fs)) = Ok vs /\
    length vs = Z.to_nat (elem_Count e) /\
    forall i, 0 <= i < elem_Count e ->
      exists v,
        vs !! Z.to_nat i = Some v /\
        decode_props (elem_Properties e) 0
          (bits_at bytes (off + i * size) (off + (i + 1) * size))
          (PtrStruct fs) = Ok v.
Proof.
  intros HO Hsplit Hbody Hel Hpost Hdecl Hpre Hset Hbefore Hbytes off size Hfit.
  exact (element_read_from_file bytes ply f body post pre e rest fs
           HO Hsplit Hbody Hel Hpost Hdecl Hpre Hset Hbefore Hbytes Hfit).
Qed.

Lemma declared_element_is_read_witness :
  exists r vs,
    GetElementReader two_element_ply "face" = Ok r /\
    r = mkReader 0 191 face_element /\
    read_sequentially (mkWorld (snd (Open two_element_file)) r (face_target 0))
    = Ok vs /\
    length vs = 3%nat /\
    forall i, 0 <= i < 3 ->
      exists v,
        vs !! Z.to_nat i = Some v /\
        decode_props (elem_Properties face_element) 0
          (bits_at two_element_file (191 + i * 4) (191 + (i + 1) * 4))
          (face_target 0) = Ok v.
Proof.
  apply (declared_element_is_read two_element_file two_element_ply
           (snd (Open two_element_file))
           ["ply"; "format binary_little_endian 1.0"; "comment two elements";
            "element vertex 2";
            "property double x"; "property short y"; "property uchar red";
            "element face 3"; "property int a"] [""]
           [vertex_element] face_element []
           [mkField "A" "a" (mkValue Tint32 0)]).
  - vm_compute. reflexivity.
  - vm_compute. reflexivity.
  - repeat (constructor; [discriminate|]). constructor.
  - vm_compute. reflexivity.
  - repeat (constructor; [vm_compute; repeat split; discriminate|]). constructor.
  - vm_compute. reflexivity.
  - repeat (constructor; [discriminate|]). constructor.
  - repeat (constructor;
            [intros p t [<-|[]]; intros _ [= <-]; split; reflexivity|]).
    constructor.
  - vm_compute. discriminate.
  - vm_compute. split; [discriminate|reflexivity].
  - vm_compute. discriminate.
Defined.

(** ** Both readers on a file with one element *)

Lemma Open_schema bytes ply f body post :
  Open bytes = (Ok ply, f) ->
  split_lines (headerStr ply) = body ++ headerEnd :: post ->
  Forall (fun l => l <> headerEnd) body ->
  existsb is_element_line body = true ->
  Forall (fun l => is_element_line l = false /\
                   is_property_line l = false /\ l <> headerEnd) post ->
  terminator_pos bytes <> -1 /\ ~ terminator_at_read_end bytes /\
  headerStr ply = header_text bytes /\
  Forall element_ok (declared body None) /\
  declared_properties bytes
  = map to_pp (flat_map elem_Properties (declared body None)).
Proof.
  intros HO Hsplit Hbody Hel Hpost. unfold Open in HO.
  destruct (readHeader_spec bytes) as (r0 & f1 & E & Hc & Hopen & Hr).
  rewrite E in HO.
  destruct r0 as [[h hoff]|err|msg]; try discriminate.
  destruct Hr as (Hpos & Hoff & Hh & Hnot).
  destruct (parseHeader h hoff) as [ply1| |] eqn:EP; try discriminate.
  destruct (negb _); [discriminate|]. injection HO as -> ->.
  unfold parseHeader in EP.
  destruct (parse_lines (split_lines h) _) as [st| |] eqn:EL; try discriminate.
  cbn [rbind] in EP. injection EP as <-. cbn [headerStr] in *.
  pose proof (parse_lines_store_ok _ _ _ EL ltac:(constructor)) as Hstore.
  assert (Htext : h = header_text bytes)
    by (unfold header_text; rewrite <- Hoff; exact Hh).
  split; [exact Hpos|]. split; [exact Hnot|]. split; [exact Htext|].
  rewrite Hsplit in EL.
  pose proof (resolve_declared body post st EL Hbody Hel Hpost) as Hres.
  split.
  - apply List.Forall_forall. intros e Hin.
    assert (Hin' : In (Some e) (resolve st))
      by (rewrite Hres; now apply in_map).
    unfold resolve in Hin'. apply in_map_iff in Hin' as ([p|] & Hp & _);
      [|discriminate].
    exact (Forall_lookup_1 _ _ _ _ Hstore Hp).
  - unfold declared_properties. rewrite <- Htext, Hsplit.
    exact (header_properties_declared body post st EL Hbody Hpost).
Qed.

Lemma point_settable ps x y z r g b fs :
  Forall point_typed ps ->
  Point x y z r g b = PtrStruct fs ->
  Forall (settable ps) fs.
Proof.
  intros Hty [= <-].
  repeat (constructor;
          [intros p t Hin Hname Hcase;
           pose proof (proj1 (List.Forall_forall _ _) Hty p Hin) as [Hxyz Hrgb];
           cbn [ftag] in Hname; rewrite Hname in Hxyz, Hrgb;
           first [ rewrite Hxyz in Hcase by (simpl; tauto);
                   injection Hcase as <-; split; reflexivity
                 | destruct Hrgb as [Hc|Hc]; [simpl; tauto| |];
                   rewrite Hc in Hcase; injection Hcase as <-;
                   split; reflexivity ]|]).
  constructor.
Qed.

Lemma no_writes_past ps :
  Forall wf_property ps -> Forall point_typed ps ->
  existsb writes_past (map to_pp ps) = false.
Proof.
  induction 1 as [|p ps Hp _ IH]; intros Hty; [reflexivity|].
  inversion Hty as [|? ? [_ Hrgb] Hty']; subst.
  cbn [map existsb]. rewrite (IH Hty'), orb_false_r.
  unfold writes_past, to_pp. cbn [plyreader.pp_Size plyreader.pp_Name].
  destruct (String.eqb_spec (prop_Name p) "green") as [Hg|_];
    [|destruct (String.eqb_spec (prop_Name p) "blue") as [Hb|_];
      [|now rewrite andb_false_r]].
  - rewrite Hp. destruct Hrgb as [-> | ->];
      [rewrite Hg; simpl; tauto|reflexivity|reflexivity].
  - rewrite Hp. destruct Hrgb as [-> | ->];
      [rewrite Hb; simpl; tauto|reflexivity|reflexivity].
Qed.

Lemma sum_pp_map ps : sum_pp (map to_pp ps) = sum_sizes ps.
Proof. induction ps as [|p ps IH]; simpl; [reflexivity|now rewrite IH]. Qed.

(** X22: on a file with one element both readers return the same
    points.  When Open succeeds on a file whose header declares the
    single element e (terminator line after its lines, nothing declared
    after it), with x, y and z declared double and the colours char or
    uchar, and whose body is exactly the count records of e, then
    GetElementReader with Reset and count calls of ReadNext on a Point,
    and ReadPly on the same file, both succeed, and the values the Point
    takes are, in order, the points of ReadPly. *)
Theorem readers_agree bytes ply f body post e :
  Open bytes = (Ok ply, f) ->
  split_lines (headerStr ply) = body ++ headerEnd :: post ->
  Forall (fun l => l <> headerEnd) body ->
  existsb is_element_line body = true ->
  Forall (fun l => is_element_line l = false /\
                   is_property_line l = false /\ l <> headerEnd) post ->
  declared body None = [e] ->
  Forall point_typed (elem_Properties e) ->
  elem_Properties e <> [] ->
  lenB bytes < 2 ^ 59 ->
  terminator_pos bytes + 11 + elem_Count e * sum_sizes (elem_Properties e)
  = lenB bytes ->
  exists r vs points,
    GetElementReader ply (elem_Name e) = Ok r /\
    read_sequentially (mkWorld f r (Point 0 0 0 0 0 0)) = Ok vs /\
    fst (plyreader.ReadPly bytes) = Ok points /\
    vs = map point_target points.
Proof.
  intros HO Hsplit Hbody Hel Hpost Hdecl Hty Hne Hsmall Hbodylen.
  destruct (Open_schema _ _ _ _ _ HO Hsplit Hbody Hel Hpost)
    as (Hpos & Hnot & Htext & Hoks & Hlayout).
  rewrite Hdecl in Hoks, Hlayout. cbn [flat_map] in Hlayout.
  rewrite app_nil_r in Hlayout.
  inversion Hoks as [|? ? (Hcount & _ & Hprops) _]; subst.
  assert (Hwf : Forall wf_property (elem_Properties e)).
  { eapply Forall_impl; [exact Hprops|]. intros p (_ & _ & Hs & _). exact Hs. }
  set (ps := elem_Properties e) in *.
  set (size := sum_sizes ps) in *.
  set (off := terminator_pos bytes + 11) in *.
  assert (Hlen0 : 0 <= lenB bytes) by (unfold lenB; lia).
  assert (Hb64 : in_int64 (lenB bytes)) by (unfold in_int64; lia).
  pose proof (sum_sizes_nonneg _ Hwf) as Hnn. fold size in Hnn.
  (* the element reader *)
  destruct (element_read_from_file bytes ply f body post [] e []
              [mkField "X" "x" (mkValue Tfloat64 0);
               mkField "Y" "y" (mkValue Tfloat64 0);
               mkField "Z" "z" (mkValue Tfloat64 0);
               mkField "R" "red" (mkValue Tuint8 0);
               mkField "G" "green" (mkValue Tuint8 0);
               mkField "B" "blue" (mkValue Tuint8 0)]
              HO Hsplit Hbody Hel Hpost Hdecl ltac:(constructor)
              (point_settable ps 0 0 0 0 0 0 _ Hty eq_refl)
              ltac:(simpl; lia) Hb64)
    as (r & vs & HG & Hr & Hvs & Hlvs & Hval).
  { cbn [bytes_before fold_right]. fold ps size off. lia. }
  cbn [bytes_before fold_right] in Hr, Hval. fold ps size in Hval.
  rewrite Z.add_0_r in Hr, Hval. fold off in Hr, Hval.
  (* ReadPly *)
  destruct (ReadPly_spec bytes Hsmall) as (r1 & f1 & ERP & _ & _ & Hr1).
  cbv zeta in Hr1. rewrite Hlayout in Hr1. rewrite sum_pp_map in Hr1.
  fold size off in Hr1.
  assert (Hover : existsb writes_past (map to_pp ps) = false)
    by (apply no_writes_past; assumption).
  destruct r1 as [points|err|msg].
  2: { exfalso. destruct Hr1 as [[_ H]|(_ & _ & _ & H)]; [contradiction|].
       destruct ps; [contradiction|discriminate]. }
  2: { exfalso. destruct Hr1 as [(_ & _ & H)|(_ & _ & _ & H & _)];
         [contradiction|congruence]. }
  destruct Hr1 as (_ & _ & _ & _ & Hs1 & _ & Hnpts & Hfull & _).
  exists r, vs, points. split; [exact HG|].
  split; [exact Hvs|]. split; [rewrite ERP; reflexivity|].
  assert (Hnp : Z.of_nat (length points) = elem_Count e).
  { rewrite Hnpts.
    replace (lenB bytes - off + size - 1)
      with (size - 1 + elem_Count e * size) by lia.
    rewrite Z.div_add by lia. rewrite Z.div_small by lia. lia. }
  apply list_eq. intros i. rewrite list_lookup_fmap.
  destruct (Nat.lt_ge_cases i (length points)) as [Hi|Hi].
  - assert (Hoff0 : 0 <= off).
    { pose proof (strings_Index_range _ _ Hpos) as [H1 _].
      fold (terminator_pos bytes) in H1. unfold off. lia. }
    assert (Hhi : (Z.of_nat i + 1) * size <= elem_Count e * size)
      by (apply Z.mul_le_mono_nonneg_r; lia).
    assert (Hlo : 0 <= Z.of_nat i * size)
      by (apply Z.mul_nonneg_nonneg; lia).
    destruct (Hval (Z.of_nat i) ltac:(lia)) as (v & Hlv & Hdv).
    destruct (Hfull (Z.of_nat i)) as (mem & Hdm & Hlp); [lia|lia|].
    rewrite Nat2Z.id in Hlv, Hlp. rewrite Hlv, Hlp. cbn [fmap option_fmap option_map].
    f_equal.
    set (buf := bits_at bytes (off + Z.of_nat i * size)
                  (off + (Z.of_nat i + 1) * size)) in *.
    assert (Hbl : lenB buf = size).
    { unfold buf. rewrite bits_at_length; lia. }
    destruct (decoders_agree_from ps Hwf Hty 0 buf 0 0 0 0 0 0
                plyreader.zero_point)
      as (x1 & y1 & z1 & r1 & g1 & b1 & mem1 & H1 & H2 & H3);
      [lia|fold size; lia|rewrite Hbl; unfold in_int64 in *; lia
      |reflexivity|reflexivity|].
    change (PtrStruct _) with (Point 0 0 0 0 0 0) in Hdv.
    rewrite H1 in Hdv. injection Hdv as <-.
    rewrite H2 in Hdm. injection Hdm as <-.
    unfold point_target. rewrite H3. reflexivity.
  - rewrite (lookup_ge_None_2 vs i) by lia.
    rewrite (lookup_ge_None_2 points i) by lia. reflexivity.
Qed.

Lemma readers_agree_witness :
  exists r vs points,
    GetElementReader red_ply "vertex" = Ok r /\
    read_sequentially (mkWorld (snd (Open red_file)) r (Point 0 0 0 0 0 0))
    = Ok vs /\
    fst (plyreader.ReadPly red_file) = Ok points /\
    vs = map point_target points.
Proof.
  apply (readers_agree red_file red_ply (snd (Open red_file))
           ["ply"; "format binary_little_endian 1.0"; "element vertex 1";
            "property uchar red"] [""]
           (mkElement "vertex" 1 [mkProperty "uchar" "red" 1])).
  - vm_compute. reflexivity.
  - vm_compute. reflexivity.
  - repeat (constructor; [discriminate|]). constructor.
  - vm_compute. reflexivity.
  - repeat (constructor; [vm_compute; repeat split; discriminate|]). constructor.
  - vm_compute. reflexivity.
  - repeat (constructor;
            [split; simpl; intros H;
             repeat (destruct H as [H|H]; try discriminate H);
             try contradiction; auto|]).
    constructor.
  - discriminate.
  - vm_compute. reflexivity.
  - vm_compute. reflexivity.
Defined.
